(** * tsh: a tiny shell with job control (shell.c)

    A shallow embedding of the job table, the tokenizer, the SIGCHLD
    reaper and the built-in dispatcher of [shell.c], together with the
    properties the design document states about them.

    Conventions.
    - A C [int] (and [pid_t]) is a [Z]; the two places where the program
      does arithmetic on one ([nextjid++] and [maxjid(...) + 1]) go through
      [int_add], which writes the 32-bit wrap-around out.
    - The job table [job_list[MAXJOBS]] is the [list job_t] of its MAXJOBS
      slots ([table_size]; every operation keeps the length), so that a
      loop over the indices 0 .. MAXJOBS-1 is a pass over the list; a
      pointer [struct job_t *] into it is the slot index, [NULL] is [None].
    - C strings are [string]s; the token buffer is a [list ascii].
    - A call that may end the process returns an [outcome]. *)

From Stdlib Require Import ZArith Lia Ascii String.
From stdpp Require Import base decidable option list relations gmap strings pretty.

Open Scope Z_scope.

(** ** Manifest constants *)

Definition MAXLINE_TSH : Z := 1024.
Definition MAXARGS : Z := 128.
Definition MAXJOBS : Z := 16.

Definition UNDEF : Z := 0.
Definition FG : Z := 1.
Definition BG : Z := 2.
Definition ST : Z := 3.

(** ** C integers *)

Definition INT_MIN : Z := - 2 ^ 31.
Definition INT_MAX : Z := 2 ^ 31 - 1.

(** The value a 32-bit two's complement [int] holds after storing [z]. *)
Definition to_int (z : Z) : Z := (z + 2 ^ 31) mod 2 ^ 32 - 2 ^ 31.

Definition int_add (a b : Z) : Z := to_int (a + b).

Definition in_int (z : Z) : Prop := INT_MIN <= z <= INT_MAX.

Definition nl : string := String "010" EmptyString.

(** ** Jobs and the shell's global state *)

Record job_t := Job {
  pid : Z;          (* job PID *)
  jid : Z;          (* job ID [1, 2, ...] *)
  state : Z;        (* UNDEF, BG, FG, or ST *)
  cmdline : string; (* command line *)
}.

(** The globals of [shell.c] and what the process has emitted so far:
    [out] is the text sent to standard output (printf, sio_puts, write on
    descriptor 1), [err] the messages sent to standard error, [signals]
    the [kill(target, sig)] calls made, oldest first, [files] the text
    written through descriptors opened on named files. *)
Record shell := Shell {
  job_list : list job_t;
  nextjid : Z;
  verbose : bool;
  out : string;
  err : list string;
  signals : list (Z * Z);
  files : list (string * string);
}.

Definition set_jobs (s : shell) (jobs : list job_t) : shell :=
  Shell jobs (nextjid s) (verbose s) (out s) (err s) (signals s) (files s).
Definition set_nextjid (s : shell) (n : Z) : shell :=
  Shell (job_list s) n (verbose s) (out s) (err s) (signals s) (files s).
Definition set_out (s : shell) (text : string) : shell :=
  Shell (job_list s) (nextjid s) (verbose s) text (err s) (signals s) (files s).
Definition printf (s : shell) (text : string) : shell :=
  set_out s (out s +:+ text).
Definition eprintf (s : shell) (text : string) : shell :=
  Shell (job_list s) (nextjid s) (verbose s) (out s) (err s ++ [text]) (signals s) (files s).
Definition kill (s : shell) (target sig : Z) : shell :=
  Shell (job_list s) (nextjid s) (verbose s) (out s) (err s) (signals s ++ [(target, sig)])
        (files s).
Definition add_file (s : shell) (name text : string) : shell :=
  Shell (job_list s) (nextjid s) (verbose s) (out s) (err s) (signals s)
        (files s ++ [(name, text)]).

(** How a call ends: it returns, the process exits, the process is killed
    by a fault (a NULL pointer is dereferenced), the process image is
    replaced (the child's [execve]), or the process stays blocked. *)
Inductive outcome (A : Type) : Type :=
  | Ret (a : A)
  | Exit (code : Z)
  | Fault
  | Exec
  | Blocked (s : shell).
Arguments Ret {A} a.
Arguments Exit {A} code.
Arguments Fault {A}.
Arguments Exec {A}.
Arguments Blocked {A} s.

Definition bind {A B} (m : outcome A) (k : A -> outcome B) : outcome B :=
  match m with
  | Ret a => k a
  | Exit c => Exit c
  | Fault => Fault
  | Exec => Exec
  | Blocked s => Blocked s
  end.

(** ** Helper routines that manipulate the job list *)

(** The table has MAXJOBS slots. *)
Definition table_size (jobs : list job_t) : Prop :=
  length jobs = Z.to_nat MAXJOBS.

(** The first slot, in index order, whose job satisfies [P]: the
    [for (i = 0; i < MAXJOBS; i++) if (P(job_list[i]))] scans. *)
Definition scan (P : job_t -> Prop) `{forall j, Decision (P j)}
    (jobs : list job_t) : option nat :=
  fst <$> list_find P jobs.

(** clearjob - Clear the entries in a job struct *)
Definition clearjob (job : job_t) : job_t :=
  {| pid := 0; jid := 0; state := UNDEF; cmdline := EmptyString |}.

(** initjobs - Initialize the job list *)
Definition initjobs (jobs : list job_t) : list job_t :=
  clearjob <$> jobs.

(** maxjid - Returns largest allocated job ID *)
Definition maxjid (jobs : list job_t) : Z :=
  foldl (fun max j => if decide (jid j > max) then jid j else max) 0 jobs.

(** addjob - Add a job to the job list *)
Definition addjob (s : shell) (p st : Z) (cmd : string) : Z * shell :=
  if decide (p < 1) then (0, s)
  else
    match scan (fun j => pid j = 0) (job_list s) with
    | Some i =>
        let j := {| pid := p; jid := nextjid s; state := st; cmdline := cmd |} in
        let n := int_add (nextjid s) 1 in
        let n := if decide (n > MAXJOBS) then 1 else n in
        let s := set_nextjid (set_jobs s (<[i := j]> (job_list s))) n in
        let s :=
          if verbose s
          then printf s ("Added job [" +:+ pretty (jid j) +:+ "] " +:+ pretty (pid j)
                         +:+ " " +:+ cmdline j +:+ nl)
          else s in
        (1, s)
    | None => (0, printf s ("Tried to create too many jobs" +:+ nl))
    end.

(** deletejob - Delete a job whose PID=pid from the job list *)
Definition deletejob (s : shell) (p : Z) : Z * shell :=
  if decide (p < 1) then (0, s)
  else
    match scan (fun j => pid j = p) (job_list s) with
    | Some i =>
        let jobs := alter clearjob i (job_list s) in
        (1, set_nextjid (set_jobs s jobs) (int_add (maxjid jobs) 1))
    | None => (0, s)
    end.

(** fgpid - Return PID of current foreground job, 0 if no such job *)
Definition fgpid (jobs : list job_t) : Z :=
  match list_find (fun j => state j = FG) jobs with
  | Some (_, j) => pid j
  | None => 0
  end.

(** getjobpid  - Find a job (by PID) on the job list *)
Definition getjobpid (jobs : list job_t) (p : Z) : option nat :=
  if decide (p < 1) then None else scan (fun j => pid j = p) jobs.

(** getjobjid  - Find a job (by JID) on the job list *)
Definition getjobjid (jobs : list job_t) (n : Z) : option nat :=
  if decide (n < 1) then None else scan (fun j => jid j = n) jobs.

(** pid2jid - Map process ID to job ID *)
Definition pid2jid (jobs : list job_t) (p : Z) : Z :=
  if decide (p < 1) then 0
  else
    match list_find (fun j => pid j = p) jobs with
    | Some (_, j) => jid j
    | None => 0
    end.

(** ** The tokenizer: parseline *)

(** Parsing states *)
Definition ST_NORMAL : Z := 0.  (* next token is an argument *)
Definition ST_INFILE : Z := 1.  (* next token is the input file *)
Definition ST_OUTFILE : Z := 2. (* next token is the output file *)

Inductive builtins_t :=
  | BUILTIN_NONE
  | BUILTIN_QUIT
  | BUILTIN_JOBS
  | BUILTIN_BG
  | BUILTIN_FG.

(** [struct cmdline_tokens].  [argv] holds the entries [argv[0..argc-1]], so
    [argc] is its length and [argv[argc]] reads as NULL; a NULL file name is
    [None]; [builtins] is [None] as long as the field has not been assigned
    (the caller's struct is an uninitialised local). *)
Record cmdline_tokens := Tokens {
  argv : list string;
  infile : option string;
  outfile : option string;
  builtins : option builtins_t;
}.

Definition argc (tok : cmdline_tokens) : Z := Z.of_nat (length (argv tok)).

Definition squote : ascii := "'"%char.
Definition dquote : ascii := "034"%char.

(** Membership in [delims = " \t\r\n"]. *)
Definition is_delim (c : ascii) : bool :=
  (c =? " ")%char || (c =? "009")%char || (c =? "013")%char || (c =? "010")%char.

Definition is_quote (c : ascii) : bool :=
  (c =? squote)%char || (c =? dquote)%char.

(** [buf + strspn(buf, delims)]: the buffer from its first non-delimiter on. *)
Fixpoint strspn_delims (buf : list ascii) : list ascii :=
  match buf with
  | c :: rest => if is_delim c then strspn_delims rest else buf
  | [] => []
  end.

(** [next = buf + strcspn(buf, delims)]: the characters before the first
    delimiter, and the buffer from [next] on (empty when [next] is the
    terminating NUL). *)
Fixpoint strcspn_delims (buf : list ascii) : list ascii * list ascii :=
  match buf with
  | c :: rest =>
      if is_delim c then ([], buf)
      else let '(token, next) := strcspn_delims rest in (c :: token, next)
  | [] => ([], [])
  end.

(** [next = strchr(buf, q)]: the characters before the first [q] and the
    buffer from [next] on, or [None] for a NULL result. *)
Fixpoint strchr (buf : list ascii) (q : ascii) : option (list ascii * list ascii) :=
  match buf with
  | c :: rest =>
      if (c =? q)%char then Some ([], buf)
      else prod_map (cons c) id <$> strchr rest q
  | [] => None
  end.

Definition msg_ambiguous : string := "Error: Ambiguous I/O redirection" +:+ nl.
Definition msg_unmatched (q : ascii) : string :=
  "Error: unmatched " +:+ String q "." +:+ nl.
Definition msg_nofile : string := "Error: must provide file name for redirection" +:+ nl.

(** The [switch (parsing_state)] that records a finished token; [None] is the
    [default] branch. *)
Definition record_token (tok : cmdline_tokens) (parsing_state : Z) (token : string)
    : option cmdline_tokens :=
  if decide (parsing_state = ST_NORMAL) then
    Some (Tokens (argv tok ++ [token]) (infile tok) (outfile tok) (builtins tok))
  else if decide (parsing_state = ST_INFILE) then
    Some (Tokens (argv tok) (Some token) (outfile tok) (builtins tok))
  else if decide (parsing_state = ST_OUTFILE) then
    Some (Tokens (argv tok) (infile tok) (Some token) (builtins tok))
  else None.

(** How the [while (buf < endbuf)] loop is left: by a [return -1] with its
    message, or normally, by its condition or a [break]. *)
Inductive loop_result :=
  | LoopFail (tok : cmdline_tokens) (msg : string)
  | LoopDone (tok : cmdline_tokens) (parsing_state : Z).

(** The body of the loop; [buf] is the text from the pointer [buf] up to
    [endbuf], and [continue_loop] stands for going round the loop again. *)
Definition parse_iter (continue_loop : list ascii -> cmdline_tokens -> Z -> loop_result)
    (buf : list ascii) (tok : cmdline_tokens) (parsing_state : Z) : loop_result :=
  (* Skip the white-spaces *)
  match strspn_delims buf with
  | [] => LoopDone tok parsing_state
  | c :: rest =>
      (* Check for I/O redirection specifiers *)
      if (c =? "<")%char then
        match infile tok with
        | Some _ => LoopFail tok msg_ambiguous
        | None => continue_loop rest tok (Z.lor parsing_state ST_INFILE)
        end
      else if (c =? ">")%char then
        match outfile tok with
        | Some _ => LoopFail tok msg_ambiguous
        | None => continue_loop rest tok (Z.lor parsing_state ST_OUTFILE)
        end
      else
        let found :=
          if is_quote c
          then strchr rest c                     (* Detect quoted tokens *)
          else Some (strcspn_delims (c :: rest)) (* Find next delimiter *) in
        match found with
        | None => LoopFail tok (msg_unmatched c)
        | Some (token, next) =>
            (* Record the token as either the next argument or the i/o file *)
            match record_token tok parsing_state (string_of_list_ascii token) with
            | None => LoopFail tok msg_ambiguous
            | Some tok =>
                (* Check if argv is full *)
                if decide (argc tok >= MAXARGS - 1) then LoopDone tok ST_NORMAL
                else continue_loop (drop 1 next) tok ST_NORMAL
            end
        end
  end.

(** The [while (buf < endbuf)] loop.  Every iteration that goes round again
    has moved [buf] forward, so [fuel] above the length of [buf] is never
    used up ([parse_loop_fuel]). *)
Fixpoint parse_loop (fuel : nat) (buf : list ascii) (tok : cmdline_tokens)
    (parsing_state : Z) : loop_result :=
  match fuel with
  | O => LoopDone tok parsing_state
  | S fuel => parse_iter (parse_loop fuel) buf tok parsing_state
  end.

(** The loop run on a whole buffer. *)
Definition parse_from (buf : list ascii) (tok : cmdline_tokens) (parsing_state : Z)
    : loop_result :=
  parse_loop (S (length buf)) buf tok parsing_state.

Definition classify (arg0 : string) : builtins_t :=
  if decide (arg0 = "quit") then BUILTIN_QUIT
  else if decide (arg0 = "jobs") then BUILTIN_JOBS
  else if decide (arg0 = "bg") then BUILTIN_BG
  else if decide (arg0 = "fg") then BUILTIN_FG
  else BUILTIN_NONE.

(** [*s == '&'] for a C string [s]. *)
Definition starts_with_amp (s : string) : bool :=
  match s with
  | String c _ => (c =? "&")%char
  | EmptyString => false
  end.

(** parseline - Parse the command line and build the argv array.

    The result is the value returned (1 background, 0 foreground, -1
    incorrectly formatted), the token structure as the call leaves it, and
    the messages written to standard error.  [cmdline] is a line as [main]
    hands it over: shorter than MAXLINE_TSH, so that [strncpy] copies it
    whole. *)
Definition parseline (cmdline : string) : Z * cmdline_tokens * list string :=
  let buf := list_ascii_of_string cmdline in
  let tok := Tokens [] None None None in (* argc = 0, infile = outfile = NULL *)
  match parse_from buf tok ST_NORMAL with
  | LoopFail tok msg => (-1, tok, [msg])
  | LoopDone tok parsing_state =>
      if decide (parsing_state <> ST_NORMAL) then (-1, tok, [msg_nofile])
      else
        match last (argv tok), head (argv tok) with
        | Some lastarg, Some arg0 =>
            let tok := Tokens (argv tok) (infile tok) (outfile tok) (Some (classify arg0)) in
            (* Should the job run in the background? *)
            if starts_with_amp lastarg
            then (1, Tokens (removelast (argv tok)) (infile tok) (outfile tok) (builtins tok), [])
            else (0, tok, [])
        | _, _ => (1, tok, [])  (* ignore blank line *)
        end
  end.

(** ** What the tokenizer reads, stated on the text of the line *)

(** A bare word: not empty, free of delimiters, and not starting with a
    redirection operator or a quote. *)
Definition bare_word (w : list ascii) : Prop :=
  Forall (fun c => is_delim c = false) w /\
  match w with
  | c :: _ => c <> "<"%char /\ c <> ">"%char /\ is_quote c = false
  | [] => False
  end.

(** [scans tok st pre tok' st']: from the top of the loop with the tokens [tok]
    and the parsing state [st], the tokenizer reads exactly the text [pre],
    whatever follows it, and is at the top of the loop again with [tok'] and
    [st'], the argument array not yet full.  [pre] is made of delimiters,
    redirection operators, quoted tokens with both their quotes, and bare
    words with the delimiter that ends them. *)
Inductive scans : cmdline_tokens -> Z -> list ascii -> cmdline_tokens -> Z -> Prop :=
  | scans_done tok st :
      scans tok st [] tok st
  | scans_delim tok st c pre tok' st' :
      is_delim c = true ->
      scans tok st pre tok' st' ->
      scans tok st (c :: pre) tok' st'
  | scans_infile tok st pre tok' st' :
      infile tok = None ->
      scans tok (Z.lor st ST_INFILE) pre tok' st' ->
      scans tok st ("<"%char :: pre) tok' st'
  | scans_outfile tok st pre tok' st' :
      outfile tok = None ->
      scans tok (Z.lor st ST_OUTFILE) pre tok' st' ->
      scans tok st (">"%char :: pre) tok' st'
  | scans_quoted tok st q body tok1 pre tok' st' :
      is_quote q = true -> q ∉ body ->
      record_token tok st (string_of_list_ascii body) = Some tok1 ->
      argc tok1 < MAXARGS - 1 ->
      scans tok1 ST_NORMAL pre tok' st' ->
      scans tok st (q :: body ++ q :: pre) tok' st'
  | scans_bare tok st w d tok1 pre tok' st' :
      bare_word w -> is_delim d = true ->
      record_token tok st (string_of_list_ascii w) = Some tok1 ->
      argc tok1 < MAXARGS - 1 ->
      scans tok1 ST_NORMAL pre tok' st' ->
      scans tok st (w ++ d :: pre) tok' st'.

(** The token structure [parseline] starts from. *)
Definition no_tokens : cmdline_tokens := Tokens [] None None None.

(** The arguments collected when the loop of [parseline] is left with every
    redirection operator followed by its file name. *)
Definition collected (cmdline : string) : option (list string) :=
  match parse_from (list_ascii_of_string cmdline) no_tokens ST_NORMAL with
  | LoopDone tok parsing_state =>
      if decide (parsing_state = ST_NORMAL) then Some (argv tok) else None
  | LoopFail _ _ => None
  end.

(** ** Child statuses

    The status word [waitpid] stores, read with the macros of the C library's
    <sys/wait.h> (here as glibc on Linux defines them). *)

Definition WTERMSIG (status : Z) : Z := Z.land status 0x7f.
Definition WEXITSTATUS (status : Z) : Z := Z.shiftr (Z.land status 0xff00) 8.
Definition WSTOPSIG (status : Z) : Z := WEXITSTATUS status.

(** The value a [signed char] holds after storing [z]. *)
Definition to_schar (z : Z) : Z := (z + 2 ^ 7) mod 2 ^ 8 - 2 ^ 7.

Definition WIFEXITED (status : Z) : bool := WTERMSIG status =? 0.
Definition WIFSIGNALED (status : Z) : bool :=
  Z.shiftr (to_schar (Z.land status 0x7f + 1)) 1 >? 0.
Definition WIFSTOPPED (status : Z) : bool := Z.land status 0xff =? 0x7f.

(** Signal numbers (Linux). *)
Definition SIGINT : Z := 2.
Definition SIGCONT : Z := 18.
Definition SIGTSTP : Z := 20.

(** [-x] on an [int]. *)
Definition int_neg (x : Z) : Z := to_int (- x).

(** ** The SIGCHLD handler *)

(** Modelled from the spec: [sio_puts] of csapp.c (not among the sources), the
    raw, signal-safe write of a string on standard output through which the
    reaper emits its notifications. *)
Definition sio_puts (s : shell) (text : string) : shell := printf s text.

(** Modelled from the spec: [sio_putl] of csapp.c (not among the sources), the
    signal-safe write of a number, in decimal, on standard output. *)
Definition sio_putl (s : shell) (v : Z) : shell := printf s (pretty v).

Definition set_state (st : Z) (job : job_t) : job_t :=
  {| pid := pid job; jid := jid job; state := st; cmdline := cmdline job |}.

(** The body of the handler's loop for one child: [p] and [stat] are what
    [waitpid(-1, &stat, WNOHANG | WUNTRACED)] returned and stored. *)
Definition reap_child (s : shell) (p stat : Z) : outcome shell :=
  bind
    (* check if child process was stopped *)
    (if WIFSTOPPED stat then
       match getjobpid (job_list s) p with
       | None => Fault (* cur_job is NULL and cur_job->state is written *)
       | Some i =>
           let s := set_jobs s (alter (set_state ST) i (job_list s)) in
           let s := sio_puts s "Job [" in
           let s := sio_putl s (pid2jid (job_list s) p) in
           let s := sio_puts s "] (" in
           let s := sio_putl s p in
           let s := sio_puts s ") stopped by signal " in
           let s := sio_putl s (WSTOPSIG stat) in
           Ret (sio_puts s nl)
       end
     else Ret s)
    (fun s =>
       (* check if child process was terminated by a signal *)
       let s :=
         if WIFSIGNALED stat then
           let s := sio_puts s "Job [" in
           let s := sio_putl s (pid2jid (job_list s) p) in
           let s := sio_puts s "] (" in
           let s := sio_putl s p in
           let s := sio_puts s ") terminated by signal " in
           let s := sio_putl s (WTERMSIG stat) in
           let s := sio_puts s nl in
           (deletejob s p).2
         else s in
       (* check if child process exited normally *)
       let s := if WIFEXITED stat then (deletejob s p).2 else s in
       Ret s).

(** sigchld_handler: [children] are the results of the successive [waitpid]
    calls; the loop stops at the first that is not positive, or when there
    is none left. *)
Fixpoint sigchld_handler (children : list (Z * Z)) (s : shell) : outcome shell :=
  match children with
  | [] => Ret s
  | (p, stat) :: children =>
      if decide (p > 0)
      then bind (reap_child s p stat) (sigchld_handler children)
      else Ret s
  end.

(** ** Listing the jobs *)

(** An output descriptor: whether [write] on it succeeds, and the text
    written through it so far. *)
Record sink := Sink {
  sink_ok : bool;
  sink_text : string;
}.

(** [write(fd, buf, strlen(buf))]; [None] is a negative result. *)
Definition write (fd : sink) (buf : string) : option sink :=
  if sink_ok fd then Some (Sink true (sink_text fd +:+ buf)) else None.

(** What the [switch (job_list[i].state)] puts into [buf]. *)
Definition state_text (i : nat) (st : Z) : string :=
  if decide (st = BG) then "Running    "
  else if decide (st = FG) then "Foreground "
  else if decide (st = ST) then "Stopped    "
  else "listjobs: Internal error: job[" +:+ pretty (Z.of_nat i) +:+ "].state="
       +:+ pretty st +:+ " ".

(** The loop of [listjobs] from slot [i] on; [Exit 1] is the [exit(1)] after
    a failed write. *)
Fixpoint listjobs_from (i : nat) (jobs : list job_t) (fd : sink) : outcome sink :=
  match jobs with
  | [] => Ret fd
  | job :: jobs =>
      if decide (pid job <> 0) then
        match write fd ("[" +:+ pretty (jid job) +:+ "] (" +:+ pretty (pid job) +:+ ") ") with
        | None => Exit 1
        | Some fd =>
            match write fd (state_text i (state job)) with
            | None => Exit 1
            | Some fd =>
                match write fd (cmdline job +:+ nl) with
                | None => Exit 1
                | Some fd => listjobs_from (S i) jobs fd
                end
            end
        end
      else listjobs_from (S i) jobs fd
  end.

(** listjobs - Print the job list *)
Definition listjobs (jobs : list job_t) (fd : sink) : outcome sink :=
  listjobs_from 0 jobs fd.

(** The line the listing has for the job [job] in slot [i]. *)
Definition job_line (i : nat) (job : job_t) : string :=
  "[" +:+ pretty (jid job) +:+ "] (" +:+ pretty (pid job) +:+ ") "
  +:+ state_text i (state job) +:+ cmdline job +:+ nl.

(** The slots in use, each with its index, in table order. *)
Definition live_slots (jobs : list job_t) : list (nat * job_t) :=
  filter (fun slot => pid slot.2 <> 0) (imap pair jobs).

(** The lines for the given slots, one after the other. *)
Definition listing (slots : list (nat * job_t)) : string :=
  foldr (fun slot text => job_line slot.1 slot.2 +:+ text) EmptyString slots.

(** The three state labels: the name, then spaces up to 11 characters. *)
Definition state_labels : list string :=
  ["Running    "; "Foreground "; "Stopped    "].

(** ** Built-in commands and eval *)

(** [atoi] of the C library: optional white space, an optional sign, then
    decimal digits; as in glibc the value is that of [strtol], clamped to a
    [long] and then cut to an [int]. *)
Definition is_space (c : ascii) : bool :=
  (c =? " ")%char || ((9 <=? nat_of_ascii c) && (nat_of_ascii c <=? 13))%nat.

Definition digit_of (c : ascii) : option Z :=
  let n := Z.of_nat (nat_of_ascii c) in
  if decide (48 <= n <= 57) then Some (n - 48) else None.

Fixpoint skip_space (s : string) : string :=
  match s with
  | String c rest => if is_space c then skip_space rest else s
  | EmptyString => s
  end.

Fixpoint digits_value (acc : Z) (s : string) : Z :=
  match s with
  | String c rest =>
      match digit_of c with
      | Some d => digits_value (10 * acc + d) rest
      | None => acc
      end
  | EmptyString => acc
  end.

Definition LONG_MAX : Z := 2 ^ 63 - 1.
Definition LONG_MIN : Z := - 2 ^ 63.

Definition strtol (s : string) : Z :=
  let v :=
    match skip_space s with
    | String "-" rest => - digits_value 0 rest
    | String "+" rest => digits_value 0 rest
    | rest => digits_value 0 rest
    end in
  Z.max LONG_MIN (Z.min LONG_MAX v).

Definition atoi (s : string) : Z := to_int (strtol s).

(** The job an argument of bg or fg names: [%jid] or a process id. *)
Definition target_job (jobs : list job_t) (arg : string) : option nat :=
  match arg with
  | String "%" rest => getjobjid jobs (atoi rest)
  | _ => getjobpid jobs (atoi arg)
  end.

(** [printf("[%d] (%d) %s\n", jid, pid, cmdline)] *)
Definition job_notice (j p : Z) (cmd : string) : string :=
  "[" +:+ pretty j +:+ "] (" +:+ pretty p +:+ ") " +:+ cmd +:+ nl.

(** What happens while the shell is blocked or idle: a signal is delivered
    and its handler runs.  For SIGCHLD, [children] are the results of the
    handler's [waitpid] calls; for the keyboard signals, [kill_ok] tells
    whether the handler's [kill] succeeds. *)
Inductive sig_event :=
  | GotSIGCHLD (children : list (Z * Z))
  | GotSIGINT (kill_ok : bool)
  | GotSIGTSTP (kill_ok : bool).

(** What the operating system answers during one call of [eval]. *)
Record os_reply := OsReply {
  open_ok : bool;               (* open() of a redirection file succeeds *)
  write_ok : bool;              (* write() on the listing descriptor succeeds *)
  fork_ret : Z;                 (* the value fork() returns *)
  execve_ok : bool;             (* in the child: execve() succeeds *)
  wait_events : list sig_event; (* signals handled once eval has unblocked them:
                                   while it waits for a foreground job, or before
                                   it prints the notice of a background job *)
  wait_status : option Z;       (* fg: the status waitpid stores, if it returns *)
}.

Section shell_model.
(** [unix_error] belongs to csapp.c, which is not among the sources: it is a
    parameter of the model.  It gets the message and the state of the
    process, and either returns to its caller or ends the process. *)
Variable unix_error : string -> shell -> outcome shell.

(** sigint_handler and sigtstp_handler: send the signal along to the
    foreground job. *)
Definition forward_signal (sig : Z) (kill_ok : bool) (s : shell) : outcome shell :=
  let fg_pid := fgpid (job_list s) in
  if decide (fg_pid <> 0) then
    let s := kill s (int_neg fg_pid) sig in
    if kill_ok then Ret s else unix_error "error with signal" s
  else Ret s.

Definition sigint_handler := forward_signal SIGINT.
Definition sigtstp_handler := forward_signal SIGTSTP.

(** sigquit_handler - The driver program can gracefully terminate the
    child shell by sending it a SIGQUIT signal. *)
Definition sigquit_handler (s : shell) : outcome shell :=
  unix_error ("Terminating after receipt of SIGQUIT signal" +:+ nl) s.

Definition handle (ev : sig_event) (s : shell) : outcome shell :=
  match ev with
  | GotSIGCHLD children => sigchld_handler children s
  | GotSIGINT kill_ok => sigint_handler kill_ok s
  | GotSIGTSTP kill_ok => sigtstp_handler kill_ok s
  end.

Fixpoint handle_all (events : list sig_event) (s : shell) : outcome shell :=
  match events with
  | [] => Ret s
  | ev :: events => bind (handle ev s) (handle_all events)
  end.

(** bg_handler once the job is found: [job] is [&job_list[i]]. *)
Definition bg_found (i : nat) (s : shell) : outcome shell :=
  (* set the job's state to background *)
  let s := set_jobs s (alter (set_state BG) i (job_list s)) in
  match job_list s !! i with
  | Some job =>
      (* send a continue signal to the job *)
      let s := kill s (int_neg (pid job)) SIGCONT in
      (* print the job's details *)
      Ret (printf s (job_notice (jid job) (pid job) (cmdline job)))
  | None => Fault
  end.

(** bg_handler changing a stopped background job into a running
    background job. *)
Definition bg_handler (tok : cmdline_tokens) (s : shell) : outcome shell :=
  match argv tok !! 1%nat with
  | None => Fault (* tok->argv[1] is NULL and tok->argv[1][0] is read *)
  | Some arg =>
      match target_job (job_list s) arg with
      | None =>
          (* if the job is not found, print an error message and return *)
          unix_error ("Job not found" +:+ nl) s
      | Some i => bg_found i s
      end
  end.

(** fg_handler from the job found to the call of [waitpid]. *)
Definition fg_resume (i : nat) (s : shell) : outcome shell :=
  match job_list s !! i with
  | Some job =>
      (* send a continue signal to the job *)
      let s := kill s (int_neg (pid job)) SIGCONT in
      (* set the job's state to foreground *)
      Ret (set_jobs s (alter (set_state FG) i (job_list s)))
  | None => Fault
  end.

(** fg_handler after [waitpid] has stored [status]. *)
Definition fg_finish (i : nat) (status : Z) (s : shell) : outcome shell :=
  if WIFSTOPPED status then
    Ret (set_jobs s (alter (set_state ST) i (job_list s)))
  else
    (* if the job terminated, delete it from the job list *)
    match job_list s !! i with
    | Some job => Ret (deletejob s (pid job)).2
    | None => Fault
    end.

(** fg_handler - changing a stopped background job into a running
    foreground job.  [events] are the signals handled while [waitpid]
    blocks, [status] what it stores when it returns. *)
Definition fg_handler (tok : cmdline_tokens) (events : list sig_event)
    (status : option Z) (s : shell) : outcome shell :=
  match argv tok !! 1%nat with
  | None => Fault (* tok->argv[1] is NULL and tok->argv[1][0] is read *)
  | Some arg =>
      match target_job (job_list s) arg with
      | None =>
          (* if the job is not found, print an error message and return *)
          unix_error ("Job not found" +:+ nl) s
      | Some i =>
          bind (fg_resume i s) (fun s =>
          bind (handle_all events s) (fun s =>
          match status with
          | Some status => fg_finish i status s
          | None => Blocked s
          end))
      end
  end.

(** The loop [while (pid == fgpid(job_list)) sigsuspend(&prev_mask)]:
    each [sigsuspend] returns after one handler has run. *)
Fixpoint wait_fg (p : Z) (events : list sig_event) (s : shell) : outcome shell :=
  match events with
  | [] => if decide (p = fgpid (job_list s)) then Blocked s else Ret s
  | ev :: events =>
      if decide (p = fgpid (job_list s))
      then bind (handle ev s) (wait_fg p events)
      else Ret s
  end.

(** The child's side of [fork]: redirections, then [execve]. *)
Definition run_child (tok : cmdline_tokens) (o : os_reply) (s : shell) : outcome shell :=
  bind
    (match infile tok with
     | Some _ => if open_ok o then Ret s else unix_error "error opening file" s
     | None => Ret s
     end)
    (fun s =>
  bind
    (match outfile tok with
     | Some _ => if open_ok o then Ret s else unix_error "error opening file" s
     | None => Ret s
     end)
    (fun s => if execve_ok o then Exec else Exit 0)).

(** The part of eval that runs a command which is not built in: fork, the
    child's side, then in the parent the registration of the job and, for
    a foreground job, the wait. *)
Definition launch (tok : cmdline_tokens) (bg : Z) (cmdline : string) (o : os_reply)
    (s : shell) : outcome shell :=
  (* create a child process *)
  let p := fork_ret o in
  (* handle fork error *)
  bind (if decide (p < 0) then unix_error "error with fork" s else Ret s) (fun s =>
  (* child process code *)
  if decide (p = 0) then run_child tok o s
  else
    (* add the child process to the job list *)
    let s := (addjob s p (int_add bg 1) cmdline).2 in
    (* unblock signals in parent: from here on the handlers run *)
    (* if it's a background process, print its details *)
    if decide (bg <> 0) then
      bind (handle_all (wait_events o) s) (fun s =>
      Ret (printf s (job_notice (pid2jid (job_list s) p) p cmdline)))
    (* if it's a foreground process, wait for it to complete *)
    else wait_fg p (wait_events o) s).

(** eval - Evaluate the command line that the user has just typed in *)
Definition eval (cmdline : string) (o : os_reply) (s : shell) : outcome shell :=
  (* parse the command line input *)
  let '(bg, tok, msgs) := parseline cmdline in
  let s := foldl eprintf s msgs in
  (* if parsing returns -1, return from the function *)
  if decide (bg = -1) then Ret s
  else
    match argv tok !! 0%nat, builtins tok with
    | None, _ => Ret s (* if no command is provided, return *)
    | Some _, None => Fault (* tok.builtins would be read unassigned *)
    | Some _, Some BUILTIN_QUIT => Exit 0
    | Some _, Some BUILTIN_JOBS =>
        match outfile tok with
        | Some name =>
            if open_ok o then
              bind (listjobs (job_list s) (Sink (write_ok o) EmptyString))
                   (fun fd => Ret (add_file s name (sink_text fd)))
            else unix_error "error opening file" s
        | None =>
            bind (listjobs (job_list s) (Sink (write_ok o) (out s)))
                 (fun fd => Ret (set_out s (sink_text fd)))
        end
    | Some _, Some BUILTIN_BG => bg_handler tok s
    | Some _, Some BUILTIN_FG => fg_handler tok (wait_events o) (wait_status o) s
    | Some _, Some BUILTIN_NONE => launch tok bg cmdline o s
    end.

Definition prompt : string := "tsh> ".

(** The read/eval loop of [main].  Each input item is a line without its
    newline, the signals handled while [fgets] waits for it, and what the
    operating system answers while it is evaluated; the end of the list is
    the end of file. *)
Fixpoint run (emit_prompt : bool) (input : list (list sig_event * string * os_reply))
    (s : shell) : outcome shell :=
  match input with
  | [] => Exit 0
  | (events, cmdline, o) :: input =>
      let s := if emit_prompt then printf s prompt else s in
      bind (handle_all events s) (fun s =>
      bind (eval cmdline o s) (run emit_prompt input))
  end.
End shell_model.

(** Modelled from the spec: [unix_error] of csapp.c (not among the sources).
    [sigquit_handler] relies on it to terminate the shell, and the design
    document has the failure to open a redirection file "reported inside the
    child", which then "exits": the message goes to standard error and the
    process ends.  Neither the sources nor the document give the exit status;
    it is a parameter. *)
Definition unix_error_exits (code : Z) (msg : string) (s : shell) : outcome shell :=
  Exit code.

(** ** The shell and its children as a transition system

    The job table is shared between the main line and the SIGCHLD handler,
    which may run between any two accesses the main line makes outside the
    region where eval keeps SIGCHLD blocked ([fork] and [addjob]).  A
    configuration is the state of the process, the place its main line has
    reached, and the children the operating system holds for it: those that
    have been forked and not yet waited for to their end. *)
Inductive mode :=
  | AtPrompt                          (* the read/eval loop, between two commands *)
  | BgLaunched (p : Z) (cmd : string) (* eval, before it prints the notice of a background job *)
  | FgSuspend (p : Z)                 (* eval waits in while (pid == fgpid(job_list)) *)
  | BgFound (i : nat)                 (* bg_handler holds job = &job_list[i] *)
  | FgFound (i : nat)                 (* fg_handler holds job = &job_list[i] *)
  | FgWaitpid (i : nat).              (* fg_handler waits in waitpid(job->pid, ...) *)

Record config := Config {
  proc : shell;
  place : mode;
  children : gset Z;
}.

(** A status that reports the end of the child: the operating system then
    gives the child up. *)
Definition terminated (status : Z) : bool := WIFEXITED status || WIFSIGNALED status.

Inductive step : config -> config -> Prop :=
  (* launch: eval forks and registers the job.  [p] is what fork returns to
     the parent: -1, or the id of the new child, which no child still held
     has. *)
  | step_launch s kids p bg cmd :
      p = -1 \/ (0 < p /\ p ∉ kids) ->
      bg = 0 \/ bg = 1 ->
      step (Config s AtPrompt kids)
           (Config (addjob s p (int_add bg 1) cmd).2
                   (if decide (bg <> 0) then BgLaunched p cmd else FgSuspend p)
                   (if decide (0 < p) then {[p]} ∪ kids else kids))
  | step_notice s kids p cmd :
      step (Config s (BgLaunched p cmd) kids)
           (Config (printf s (job_notice (pid2jid (job_list s) p) p cmd)) AtPrompt kids)
  (* the process writes on a descriptor or sends a signal: the table and the
     job id counter are as before *)
  | step_emit s s' m kids :
      job_list s' = job_list s ->
      nextjid s' = nextjid s ->
      step (Config s m kids) (Config s' m kids)
  (* the foreground wait ends *)
  | step_wake s kids p :
      p <> fgpid (job_list s) ->
      step (Config s (FgSuspend p) kids) (Config s AtPrompt kids)
  (* reap: the SIGCHLD handler gets the status of a child from waitpid *)
  | step_reap s m kids p stat s' :
      p ∈ kids ->
      reap_child s p stat = Ret s' ->
      step (Config s m kids)
           (Config s' m (if terminated stat then kids ∖ {[p]} else kids))
  (* delete: a job is removed from the table *)
  | step_delete s m kids p :
      step (Config s m kids) (Config (deletejob s p).2 m kids)
  (* bg: the job is looked up, then set running in the background *)
  | step_bg_lookup s kids arg i :
      target_job (job_list s) arg = Some i ->
      step (Config s AtPrompt kids) (Config s (BgFound i) kids)
  | step_bg s kids i s' :
      bg_found i s = Ret s' ->
      step (Config s (BgFound i) kids) (Config s' AtPrompt kids)
  (* fg: the job is looked up, continued and marked, then waited for *)
  | step_fg_lookup s kids arg i :
      target_job (job_list s) arg = Some i ->
      step (Config s AtPrompt kids) (Config s (FgFound i) kids)
  | step_fg_resume s kids i s' :
      fg_resume i s = Ret s' ->
      step (Config s (FgFound i) kids) (Config s' (FgWaitpid i) kids)
  (* waitpid returns with the status of the job's process *)
  | step_fg_waited s kids i job status s' :
      job_list s !! i = Some job ->
      pid job ∈ kids ->
      fg_finish i status s = Ret s' ->
      step (Config s (FgWaitpid i) kids)
           (Config s' AtPrompt (if terminated status then kids ∖ {[pid job]} else kids))
  (* waitpid fails, the handler having collected the child before: [status]
     is whatever the variable held *)
  | step_fg_wait_failed s kids i status s' :
      fg_finish i status s = Ret s' ->
      step (Config s (FgWaitpid i) kids) (Config s' AtPrompt kids).

(** The children held once the SIGCHLD handler has been given the statuses
    [reaped], and whether each of them is the status of a child held when it
    is given. *)
Fixpoint held_after_reaping (reaped : list (Z * Z)) (kids : gset Z) : gset Z :=
  match reaped with
  | [] => kids
  | (p, stat) :: reaped =>
      if decide (p > 0)
      then held_after_reaping reaped (if terminated stat then kids ∖ {[p]} else kids)
      else kids
  end.

Fixpoint reaping_ok (reaped : list (Z * Z)) (kids : gset Z) : Prop :=
  match reaped with
  | [] => True
  | (p, stat) :: reaped =>
      p > 0 ->
      p ∈ kids /\ reaping_ok reaped (if terminated stat then kids ∖ {[p]} else kids)
  end.

Definition held_after (ev : sig_event) (kids : gset Z) : gset Z :=
  match ev with
  | GotSIGCHLD reaped => held_after_reaping reaped kids
  | _ => kids
  end.

Fixpoint events_ok (events : list sig_event) (kids : gset Z) : Prop :=
  match events with
  | [] => True
  | ev :: events =>
      match ev with GotSIGCHLD reaped => reaping_ok reaped kids | _ => True end /\
      events_ok events (held_after ev kids)
  end.

(** What the operating system answers during a call of eval fits the
    children it holds: fork gives -1, 0 (in the child) or the id of a new
    child, and the handlers are given statuses of children held. *)
Definition os_ok (tok : cmdline_tokens) (o : os_reply) (kids : gset Z) : Prop :=
  match builtins tok with
  | Some BUILTIN_NONE =>
      (fork_ret o = -1 \/ fork_ret o = 0 \/ (0 < fork_ret o /\ fork_ret o ∉ kids)) /\
      events_ok (wait_events o)
                (if decide (0 < fork_ret o) then {[fork_ret o]} ∪ kids else kids)
  | _ => events_ok (wait_events o) kids
  end.

(** The configuration [main] starts the loop in: [initjobs] has cleared every
    slot, and there is no child. *)
Definition initial (c : config) : Prop :=
  (exists jobs, table_size jobs /\ job_list (proc c) = initjobs jobs) /\
  place c = AtPrompt /\ children c = ∅.

Definition reachable (c : config) : Prop :=
  exists c0, initial c0 /\ rtc step c0 c.

(** A job, that is a slot in use, in the foreground state. *)
Definition fg_job (j : job_t) : Prop := pid j <> 0 /\ state j = FG.

Global Instance fg_job_dec j : Decision (fg_job j).
Proof. unfold fg_job. apply _. Defined.

Definition fg_jobs (jobs : list job_t) : list job_t := filter fg_job jobs.

(** What the proof of the foreground invariant keeps track of.  Process ids
    in the table are not negative, no two slots in use hold the same, and
    each belongs to a child still held. *)
Definition table_ok (jobs : list job_t) : Prop :=
  (forall i j, jobs !! i = Some j -> 0 <= pid j) /\
  (forall i i' j j',
     jobs !! i = Some j -> jobs !! i' = Some j' ->
     pid j <> 0 -> pid j = pid j' -> i = i').

Definition kids_ok (jobs : list job_t) (kids : gset Z) : Prop :=
  (forall p, p ∈ kids -> 0 < p) /\
  (forall i j, jobs !! i = Some j -> pid j <> 0 -> pid j ∈ kids).

(** Where a foreground job may be, by the place the main line has reached. *)
Definition mode_ok (jobs : list job_t) (m : mode) : Prop :=
  match m with
  | AtPrompt | BgLaunched _ _ | BgFound _ | FgFound _ =>
      forall i j, jobs !! i = Some j -> ~ fg_job j
  | FgWaitpid i0 =>
      forall i j, jobs !! i = Some j -> fg_job j -> i = i0
  | FgSuspend p =>
      forall i j, jobs !! i = Some j -> fg_job j ->
        pid j = p /\
        forall k jk, jobs !! k = Some jk -> (k < i)%nat -> state jk <> FG
  end.

Definition inv (c : config) : Prop :=
  table_ok (job_list (proc c)) /\
  kids_ok (job_list (proc c)) (children c) /\
  mode_ok (job_list (proc c)) (place c).

(** A slot after the reaper, a deletion or bg has touched it: it holds the
    same process or none, and has not become a foreground job. *)
Definition demoted (j j' : job_t) : Prop :=
  (pid j' = pid j \/ pid j' = 0) /\ (state j' = state j \/ state j' <> FG).

Global Instance demoted_refl : Reflexive demoted.
Proof. intros j. split; by left. Qed.

Global Instance demoted_trans : Transitive demoted.
Proof.
  intros j1 j2 j3 [Hp1 Hs1] [Hp2 Hs2]. split.
  - destruct Hp2 as [->| ->]; auto.
  - destruct Hs2 as [->|?]; auto.
Qed.

(** Rewrites with the hypothesis that a step left the table as it was. *)
Ltac rewrite_job_list :=
  match goal with H : job_list _ = job_list _ |- _ => rewrite H end.

(** ** A concrete start state *)

(** The shell as [main] enters its loop: MAXJOBS cleared slots. *)
Definition shell0 : shell :=
  Shell (initjobs (replicate (Z.to_nat MAXJOBS) (Job 0 0 UNDEF EmptyString)))
        1 false EmptyString [] [] [].

(** ** Command lines that fill the argument array *)

(** MAXARGS - 1 = 127 one-letter arguments, each followed by a space, and
    then [tail]. *)
Definition full_argv_text : list ascii :=
  concat (replicate 127 ["a"; " "]%char).

Definition full_argv_line (tail : string) : string :=
  string_of_list_ascii full_argv_text +:+ tail.

(** ** Lines made of words *)

(** A word as it is typed on a command line: bare, or between two quotes. *)
Inductive word :=
  | Bare (w : list ascii)
  | Quoted (q : ascii) (body : list ascii).

Definition word_ok (x : word) : Prop :=
  match x with
  | Bare w => bare_word w
  | Quoted q body => is_quote q = true /\ q ∉ body
  end.

(** The text of a word on the line, and the argument it stands for. *)
Definition word_text (x : word) : list ascii :=
  match x with
  | Bare w => w
  | Quoted q body => q :: body ++ [q]
  end.

Definition word_arg (x : word) : string :=
  match x with
  | Bare w => string_of_list_ascii w
  | Quoted _ body => string_of_list_ascii body
  end.

(** The words one after the other, a space between two of them. *)
Fixpoint unwords (xs : list word) : list ascii :=
  match xs with
  | [] => []
  | [x] => word_text x
  | x :: xs => word_text x ++ " "%char :: unwords xs
  end.

(** The result of [parseline] for a line that holds the arguments [args] and
    no redirection. *)
Definition parsed (args : list string) : Z * cmdline_tokens * list string :=
  match last args, head args with
  | Some lastarg, Some arg0 =>
      if starts_with_amp lastarg
      then (1, Tokens (removelast args) None None (Some (classify arg0)), [])
      else (0, Tokens args None None (Some (classify arg0)), [])
  | _, _ => (1, Tokens [] None None None, [])
  end.

(** ** The options of main *)

(** usage - print a help message: the text it prints before [exit(1)]. *)
Definition usage_text : string :=
  "Usage: shell [-hvp]" +:+ nl +:+
  "   -h   print this message" +:+ nl +:+
  "   -v   print additional diagnostic information" +:+ nl +:+
  "   -p   do not emit a command prompt" +:+ nl.

(** The loop [while ((c = getopt(argc, argv, "hvp")) != EOF)] of [main].
    Each item of [opts] is one call of [getopt]: the character it returns,
    and the text [getopt] itself writes for it on standard error, which
    [main] has made the stream of standard output by [dup2(1, 2)]: nothing
    for an option of the option string, the diagnostic of the C library for
    any other, for which [getopt] returns a question mark.  The result is the
    text written, and either [verbose] and [emit_prompt] as the loop leaves
    them or the exit status with which [usage] ends the process. *)
Fixpoint main_options (opts : list (ascii * string)) (verbose emit_prompt : bool)
    : string * ((bool * bool) + Z) :=
  match opts with
  | [] => (EmptyString, inl (verbose, emit_prompt))
  | (c, diagnostic) :: opts =>
      let next verbose emit_prompt :=
        let '(text, result) := main_options opts verbose emit_prompt in
        (diagnostic +:+ text, result) in
      if (c =? "h")%char then (diagnostic +:+ usage_text, inr 1) (* print help message *)
      else if (c =? "v")%char then next true emit_prompt
      else if (c =? "p")%char then next verbose false
      else (diagnostic +:+ usage_text, inr 1)
  end.

(** The text [getopt] has written for the calls [opts], followed by [tail]. *)
Definition getopt_text (opts : list (ascii * string)) (tail : string) : string :=
  foldr (fun o text => o.2 +:+ text) tail opts.

(** ** The states of the slots in use *)

(** A slot in use is in one of the three job states. *)
Definition live_state_ok (j : job_t) : Prop :=
  pid j <> 0 -> state j = FG \/ state j = BG \/ state j = ST.

(** [n] spaces. *)
Definition padding (n : nat) : string := string_of_list_ascii (replicate n " "%char).

(** * Properties *)

(** ** Facts about C integers *)

Lemma to_int_id z : in_int z -> to_int z = z.
Proof.
  unfold in_int, INT_MIN, INT_MAX, to_int. intros Hz.
  rewrite Z.mod_small; lia.
Qed.

Lemma int_add_id a b : in_int (a + b) -> int_add a b = a + b.
Proof. apply to_int_id. Qed.

(** ** Facts about the scans *)

Section scans.
Context (P : job_t -> Prop) `{!forall j, Decision (P j)}.

Lemma scan_Some jobs i :
  scan P jobs = Some i <->
  exists j, jobs !! i = Some j /\ P j /\
    forall k jk, jobs !! k = Some jk -> (k < i)%nat -> ~ P jk.
Proof.
  unfold scan. split.
  - destruct (list_find P jobs) as [[i' j]|] eqn:E; [|done].
    apply list_find_Some in E. intros [= <-]. by exists j.
  - intros (j & Hj). by rewrite (proj2 (list_find_Some P jobs i j) Hj).
Qed.

Lemma scan_None jobs : scan P jobs = None <-> Forall (fun j => ~ P j) jobs.
Proof.
  unfold scan. rewrite <- (list_find_None P).
  destruct (list_find P jobs); simpl; split; congruence.
Qed.

Lemma scan_lt jobs i : scan P jobs = Some i -> (i < length jobs)%nat.
Proof.
  intros (j & Hj & _)%scan_Some. by eapply lookup_lt_Some.
Qed.
End scans.

Lemma maxjid_foldl_ge jobs m :
  m <= foldl (fun max j => if decide (jid j > max) then jid j else max) m jobs.
Proof.
  revert m. induction jobs as [|j jobs IH]; intros m; simpl; [lia|].
  etrans; [|apply IH]. case_decide; lia.
Qed.

Lemma maxjid_nonneg jobs : 0 <= maxjid jobs.
Proof. apply maxjid_foldl_ge. Qed.

(** ** The job table: addjob and deletejob *)

Lemma alter_clearjob (jobs : list job_t) (i : nat) :
  alter clearjob i jobs = <[i := Job 0 0 UNDEF EmptyString]> jobs.
Proof. symmetry. apply list_insert_alter. Qed.

Lemma addjob_rejects_pid s p st cmd : p < 1 -> addjob s p st cmd = (0, s).
Proof. intros Hp. unfold addjob. by rewrite decide_True. Qed.

Lemma addjob_full s p st cmd :
  1 <= p -> Forall (fun j => pid j <> 0) (job_list s) ->
  addjob s p st cmd = (0, printf s ("Tried to create too many jobs" +:+ nl)).
Proof.
  intros Hp Hfull. unfold addjob. rewrite decide_False by lia.
  apply (scan_None (fun j => pid j = 0)) in Hfull. by rewrite Hfull.
Qed.

Lemma addjob_first_empty s p st cmd i :
  1 <= p -> scan (fun j => pid j = 0) (job_list s) = Some i ->
  (addjob s p st cmd).1 = 1 /\
  job_list (addjob s p st cmd).2 = <[i := Job p (nextjid s) st cmd]> (job_list s) /\
  nextjid (addjob s p st cmd).2 =
    (if decide (int_add (nextjid s) 1 > MAXJOBS) then 1 else int_add (nextjid s) 1).
Proof.
  intros Hp Hi. unfold addjob. rewrite decide_False by lia. rewrite Hi.
  cbn [fst snd set_nextjid set_jobs verbose]. by destruct (verbose s).
Qed.

(** C2. [addjob(job_list, pid, state, cmdline)]: with a non-positive pid, or
    with no empty slot, it returns 0 and leaves the slots and the counter
    [nextjid] as they were; otherwise it fills the lowest-indexed slot whose
    pid is 0, gives it the current value of [nextjid] as its job id, and
    advances [nextjid] by one, setting it back to 1 exactly when the advanced
    value exceeds MAXJOBS. *)
Theorem addjob_spec (s : shell) (p st : Z) (cmd : string) :
  (p <= 0 \/ Forall (fun j => pid j <> 0) (job_list s) ->
     (addjob s p st cmd).1 = 0 /\
     job_list (addjob s p st cmd).2 = job_list s /\
     nextjid (addjob s p st cmd).2 = nextjid s) /\
  (forall i j0,
     0 < p ->
     job_list s !! i = Some j0 -> pid j0 = 0 ->
     (forall k jk, job_list s !! k = Some jk -> (k < i)%nat -> pid jk <> 0) ->
     INT_MIN <= nextjid s < INT_MAX ->
     (addjob s p st cmd).1 = 1 /\
     job_list (addjob s p st cmd).2 = <[i := Job p (nextjid s) st cmd]> (job_list s) /\
     nextjid (addjob s p st cmd).2 =
       (if decide (nextjid s + 1 > MAXJOBS) then 1 else nextjid s + 1)).
Proof.
  split.
  - intros [Hp|Hfull].
    + by rewrite addjob_rejects_pid by lia.
    + destruct (decide (p < 1)) as [Hp|Hp].
      * by rewrite addjob_rejects_pid.
      * by rewrite addjob_full by (done || lia).
  - intros i j0 Hp Hi H0 Hfirst Hn.
    assert (scan (fun j => pid j = 0) (job_list s) = Some i) as Hscan.
    { apply scan_Some. exists j0. split_and!; [done..|]. intros k jk ? ?. by eapply Hfirst. }
    destruct (addjob_first_empty s p st cmd i ltac:(lia) Hscan) as (-> & -> & ->).
    rewrite int_add_id; [done|]. unfold in_int. lia.
Qed.

Lemma addjob_spec_witness :
  let s := Shell [Job 7 1 BG "a"; Job 0 0 UNDEF EmptyString] 2 false EmptyString [] [] [] in
  (addjob s 9 FG "b").1 = 1 /\
  job_list (addjob s 9 FG "b").2 = [Job 7 1 BG "a"; Job 9 2 FG "b"] /\
  nextjid (addjob s 9 FG "b").2 = 3.
Proof.
  intros s.
  apply (proj2 (addjob_spec s 9 FG "b") 1%nat (Job 0 0 UNDEF EmptyString)).
  - lia.
  - reflexivity.
  - reflexivity.
  - intros [|[|k]] jk Hk Hlt; [|lia..]. injection Hk as <-. discriminate.
  - unfold INT_MIN, INT_MAX. simpl. lia.
Defined.

Lemma deletejob_absent s p :
  p <= 0 \/ Forall (fun j => pid j <> p) (job_list s) -> deletejob s p = (0, s).
Proof.
  intros H. unfold deletejob. case_decide; [done|].
  destruct H as [H|H]; [lia|].
  apply (scan_None (fun j => pid j = p)) in H. by rewrite H.
Qed.

(** C5. [deletejob(job_list, pid)]: when no slot holds [pid] (in particular
    for every non-positive pid) it returns 0 and changes nothing, neither a
    slot nor [nextjid]; when a slot matches, the first such slot is cleared
    (pid 0, jid 0, state UNDEF, empty command line) and [nextjid] becomes
    [maxjid(job_list) + 1].  Deleting an absent pid a second time is the same
    as deleting it once. *)
Theorem deletejob_spec (s : shell) (p : Z) :
  (p <= 0 \/ Forall (fun j => pid j <> p) (job_list s) -> deletejob s p = (0, s)) /\
  (forall i j0,
     0 < p ->
     job_list s !! i = Some j0 -> pid j0 = p ->
     (forall k jk, job_list s !! k = Some jk -> (k < i)%nat -> pid jk <> p) ->
     let jobs' := <[i := Job 0 0 UNDEF EmptyString]> (job_list s) in
     deletejob s p =
       (1, Shell jobs' (int_add (maxjid jobs') 1) (verbose s) (out s) (err s) (signals s) (files s)) /\
     (maxjid jobs' < INT_MAX -> int_add (maxjid jobs') 1 = maxjid jobs' + 1)) /\
  ((deletejob s p).1 = 0 -> deletejob (deletejob s p).2 p = deletejob s p).
Proof.
  split_and!.
  - apply deletejob_absent.
  - intros i j0 Hp Hi Hpid Hfirst jobs'. split.
    + unfold deletejob. rewrite decide_False by lia.
      assert (scan (fun j => pid j = p) (job_list s) = Some i) as ->.
      { apply scan_Some. exists j0. split_and!; [done..|]. intros k jk ? ?. by eapply Hfirst. }
      by rewrite alter_clearjob.
    + intros Hmax. apply int_add_id. pose proof (maxjid_nonneg jobs').
      unfold in_int, INT_MIN, INT_MAX in *. lia.
  - unfold deletejob. case_decide; [done|].
    destruct (scan _ (job_list s)) as [i|] eqn:E; [done|].
    intros _. cbn [snd]. by rewrite E.
Qed.

Lemma deletejob_spec_witness :
  let s := Shell [Job 7 1 BG "a"; Job 9 2 ST "b"] 3 false EmptyString [] [] [] in
  deletejob s 9 =
    (1, Shell [Job 7 1 BG "a"; Job 0 0 UNDEF EmptyString] 2 false EmptyString [] [] []) /\
  deletejob s 5 = (0, s) /\
  deletejob (deletejob s 5).2 5 = deletejob s 5.
Proof.
  intros s. split_and!.
  - refine (proj1 (proj1 (proj2 (deletejob_spec s 9)) 1%nat (Job 9 2 ST "b") _ _ _ _)).
    + lia.
    + reflexivity.
    + reflexivity.
    + intros [|[|k]] jk Hk Hlt; [|lia..]. injection Hk as <-. discriminate.
  - apply (proj1 (deletejob_spec s 5)). right.
    repeat constructor; discriminate.
  - apply (proj2 (proj2 (deletejob_spec s 5))). reflexivity.
Defined.

(** ** The tokenizer *)

Lemma strspn_delims_length buf : (length (strspn_delims buf) <= length buf)%nat.
Proof. induction buf as [|c buf IH]; simpl; [lia|]. destruct (is_delim c); simpl; lia. Qed.

Lemma strcspn_delims_length buf :
  (length (strcspn_delims buf).2 <= length buf)%nat.
Proof.
  induction buf as [|c buf IH]; simpl; [lia|].
  destruct (is_delim c); simpl; [lia|].
  destruct (strcspn_delims buf); simpl in *; lia.
Qed.

Lemma strchr_length buf q token next :
  strchr buf q = Some (token, next) -> (length next <= length buf)%nat.
Proof.
  revert token. induction buf as [|c buf IH]; intros token; simpl; [done|].
  destruct (c =? q)%char.
  - intros [= <- <-]. simpl. lia.
  - destruct (strchr buf q) as [[t n]|]; simpl; [|done].
    intros [= <- <-]. specialize (IH _ eq_refl). lia.
Qed.

Lemma found_length c rest token next :
  (if is_quote c then strchr rest c else Some (strcspn_delims (c :: rest)))
    = Some (token, next) ->
  (length (drop 1 next) <= length rest)%nat.
Proof.
  rewrite length_drop. destruct (is_quote c).
  - intros ?%strchr_length. lia.
  - pose proof (strcspn_delims_length (c :: rest)) as Hl.
    remember (strcspn_delims (c :: rest)) as r eqn:Er.
    intros [= ->]. simpl in Hl. lia.
Qed.

Lemma parse_loop_S fuel buf tok st :
  parse_loop (S fuel) buf tok st = parse_iter (parse_loop fuel) buf tok st.
Proof. reflexivity. Qed.

(** Fuel above the length of the buffer is never used up: the result does not
    depend on it. *)
Lemma parse_loop_fuel n m buf tok st :
  (length buf < n)%nat -> (length buf < m)%nat ->
  parse_loop n buf tok st = parse_loop m buf tok st.
Proof.
  revert m buf tok st. induction n as [|n IH]; intros [|m] buf tok st Hn Hm; try lia.
  rewrite !parse_loop_S. unfold parse_iter.
  pose proof (strspn_delims_length buf) as Hskip.
  destruct (strspn_delims buf) as [|c rest]; [done|]. simpl in Hskip.
  destruct (c =? "<")%char.
  { destruct (infile tok); [done|]. apply IH; lia. }
  destruct (c =? ">")%char.
  { destruct (outfile tok); [done|]. apply IH; lia. }
  destruct (if is_quote c then _ else _) as [[token next]|] eqn:Hfound; [|done].
  apply found_length in Hfound.
  destruct (record_token _ _ _) as [tok'|]; [|done].
  case_decide; [done|].
  apply IH; lia.
Qed.

(** The loop as a recursion equation. *)
Lemma parse_from_unfold buf tok st :
  parse_from buf tok st = parse_iter parse_from buf tok st.
Proof.
  unfold parse_from at 1. rewrite parse_loop_S. unfold parse_iter.
  pose proof (strspn_delims_length buf) as Hskip.
  destruct (strspn_delims buf) as [|c rest]; [done|]. simpl in Hskip.
  destruct (c =? "<")%char.
  { destruct (infile tok); [done|]. apply parse_loop_fuel; lia. }
  destruct (c =? ">")%char.
  { destruct (outfile tok); [done|]. apply parse_loop_fuel; lia. }
  destruct (if is_quote c then _ else _) as [[token next]|] eqn:Hfound; [|done].
  apply found_length in Hfound.
  destruct (record_token _ _ _) as [tok'|]; [|done].
  case_decide; [done|].
  apply parse_loop_fuel; lia.
Qed.

Lemma is_quote_cases q : is_quote q = true -> q = squote \/ q = dquote.
Proof.
  unfold is_quote. intros [H|H]%orb_prop; apply Ascii.eqb_eq in H; auto.
Qed.

Lemma parse_from_nil tok st : parse_from [] tok st = LoopDone tok st.
Proof. reflexivity. Qed.

Lemma parse_from_delim c buf tok st :
  is_delim c = true -> parse_from (c :: buf) tok st = parse_from buf tok st.
Proof.
  intros Hc. rewrite (parse_from_unfold (c :: buf)), (parse_from_unfold buf).
  unfold parse_iter. cbn [strspn_delims]. by rewrite Hc.
Qed.

Lemma parse_from_delims ws buf tok st :
  Forall (fun c => is_delim c = true) ws ->
  parse_from (ws ++ buf) tok st = parse_from buf tok st.
Proof.
  induction 1 as [|c ws Hc _ IH]; [done|].
  cbn [app]. by rewrite parse_from_delim.
Qed.

Lemma parse_from_infile buf tok st :
  parse_from ("<"%char :: buf) tok st =
    match infile tok with
    | Some _ => LoopFail tok msg_ambiguous
    | None => parse_from buf tok (Z.lor st ST_INFILE)
    end.
Proof. by rewrite parse_from_unfold. Qed.

Lemma parse_from_outfile buf tok st :
  parse_from (">"%char :: buf) tok st =
    match outfile tok with
    | Some _ => LoopFail tok msg_ambiguous
    | None => parse_from buf tok (Z.lor st ST_OUTFILE)
    end.
Proof. by rewrite parse_from_unfold. Qed.

Lemma strchr_None buf q : q ∉ buf -> strchr buf q = None.
Proof.
  induction buf as [|c buf IH]; [done|].
  intros Hq. apply not_elem_of_cons in Hq as [Hne Hq]. simpl.
  destruct (Ascii.eqb_spec c q); [congruence|]. by rewrite IH.
Qed.

Lemma strchr_Some body buf q :
  q ∉ body -> strchr (body ++ q :: buf) q = Some (body, q :: buf).
Proof.
  induction body as [|c body IH]; intros Hq.
  - simpl. by rewrite Ascii.eqb_refl.
  - apply not_elem_of_cons in Hq as [Hne Hq]. simpl.
    destruct (Ascii.eqb_spec c q); [congruence|]. by rewrite IH.
Qed.

Lemma strcspn_delims_word w buf :
  Forall (fun c => is_delim c = false) w ->
  match buf with d :: _ => is_delim d = true | [] => True end ->
  strcspn_delims (w ++ buf) = (w, buf).
Proof.
  intros Hw Hbuf. induction Hw as [|c w Hc _ IH].
  - destruct buf as [|d buf]; [done|]. simpl. by rewrite Hbuf.
  - simpl. by rewrite Hc, IH.
Qed.

(** The iteration that meets a quote with no second one after it. *)
Lemma parse_from_unmatched q buf tok st :
  is_quote q = true -> q ∉ buf ->
  parse_from (q :: buf) tok st = LoopFail tok (msg_unmatched q).
Proof.
  intros Hq Hbuf. rewrite parse_from_unfold. unfold parse_iter.
  destruct (is_quote_cases q Hq) as [-> | ->];
    cbn [strspn_delims]; simpl; by rewrite (strchr_None buf _ Hbuf).
Qed.

(** The iteration that reads a quoted token. *)
Lemma parse_from_quoted q body buf tok st :
  is_quote q = true -> q ∉ body ->
  parse_from (q :: body ++ q :: buf) tok st =
    match record_token tok st (string_of_list_ascii body) with
    | None => LoopFail tok msg_ambiguous
    | Some tok1 =>
        if decide (argc tok1 >= MAXARGS - 1) then LoopDone tok1 ST_NORMAL
        else parse_from buf tok1 ST_NORMAL
    end.
Proof.
  intros Hq Hbody. rewrite parse_from_unfold. unfold parse_iter.
  destruct (is_quote_cases q Hq) as [-> | ->];
    cbn [strspn_delims]; simpl; by rewrite (strchr_Some body buf _ Hbody).
Qed.

(** The iteration that reads a bare word, up to a delimiter or to the end of
    the line. *)
Lemma parse_from_bare w buf tok st :
  bare_word w ->
  match buf with d :: _ => is_delim d = true | [] => True end ->
  parse_from (w ++ buf) tok st =
    match record_token tok st (string_of_list_ascii w) with
    | None => LoopFail tok msg_ambiguous
    | Some tok1 =>
        if decide (argc tok1 >= MAXARGS - 1) then LoopDone tok1 ST_NORMAL
        else parse_from (drop 1 buf) tok1 ST_NORMAL
    end.
Proof.
  intros [Hw Hfirst] Hbuf. rewrite parse_from_unfold. unfold parse_iter.
  destruct w as [|c w]; [done|]. destruct Hfirst as (Hlt & Hgt & Hnq).
  pose proof (Forall_inv Hw) as Hc. cbn [app strspn_delims]. rewrite Hc.
  destruct (Ascii.eqb_spec c "<"); [done|]. destruct (Ascii.eqb_spec c ">"); [done|].
  rewrite Hnq. change (c :: w ++ buf) with ((c :: w) ++ buf).
  by rewrite (strcspn_delims_word (c :: w) buf Hw Hbuf).
Qed.

(** What [scans] says of a prefix of the line is what the loop does with it. *)
Lemma scans_parse_from tok st pre tok' st' rest :
  scans tok st pre tok' st' ->
  parse_from (pre ++ rest) tok st = parse_from rest tok' st'.
Proof.
  induction 1 as [tok st|tok st c pre tok' st' Hc _ IH|tok st pre tok' st' Hin _ IH
                 |tok st pre tok' st' Hout _ IH
                 |tok st q body tok1 pre tok' st' Hq Hbody Hrec Hroom _ IH
                 |tok st w d tok1 pre tok' st' Hw Hd Hrec Hroom _ IH].
  - done.
  - cbn [app]. by rewrite parse_from_delim.
  - cbn [app]. by rewrite parse_from_infile, Hin.
  - cbn [app]. by rewrite parse_from_outfile, Hout.
  - cbn [app]. rewrite <- app_assoc. cbn [app].
    rewrite parse_from_quoted, Hrec by done. by rewrite decide_False by lia.
  - rewrite <- app_assoc. cbn [app].
    rewrite parse_from_bare, Hrec by done. by rewrite decide_False by lia.
Qed.

(** ** parseline: quotes, redirections and the background marker *)

Lemma record_token_builtins tok st token tok1 :
  record_token tok st token = Some tok1 -> builtins tok1 = builtins tok.
Proof.
  unfold record_token. repeat case_decide; by intros [= <-].
Qed.

Lemma record_token_infile tok st token tok1 f :
  record_token tok st token = Some tok1 ->
  infile tok1 = Some f -> infile tok = Some f \/ st = ST_INFILE.
Proof.
  unfold record_token. repeat case_decide; intros [= <-]; simpl; auto.
Qed.

Lemma record_token_outfile tok st token tok1 f :
  record_token tok st token = Some tok1 ->
  outfile tok1 = Some f -> outfile tok = Some f \/ st = ST_OUTFILE.
Proof.
  unfold record_token. repeat case_decide; intros [= <-]; simpl; auto.
Qed.

Lemma scans_builtins tok st pre tok' st' :
  scans tok st pre tok' st' -> builtins tok' = builtins tok.
Proof.
  induction 1; try done.
  - rewrite IHscans. by eapply record_token_builtins.
  - rewrite IHscans. by eapply record_token_builtins.
Qed.

(** An input file recorded while [pre] was read has its '<' in [pre], and an
    output file its '>'. *)
Lemma scans_redirections tok st pre tok' st' :
  scans tok st pre tok' st' ->
  (forall f, infile tok' = Some f ->
     infile tok = Some f \/ Z.land st ST_INFILE <> 0 \/ "<"%char ∈ pre) /\
  (forall f, outfile tok' = Some f ->
     outfile tok = Some f \/ Z.land st ST_OUTFILE <> 0 \/ ">"%char ∈ pre).
Proof.
  induction 1 as [tok st|tok st c pre tok' st' Hc _ [IHi IHo]|tok st pre tok' st' Hin _ [IHi IHo]
                 |tok st pre tok' st' Hout _ [IHi IHo]
                 |tok st q body tok1 pre tok' st' Hq Hbody Hrec Hroom _ [IHi IHo]
                 |tok st w d tok1 pre tok' st' Hw Hd Hrec Hroom _ [IHi IHo]].
  - auto.
  - split; intros f Hf; [destruct (IHi f Hf) as [?|[?|?]]|destruct (IHo f Hf) as [?|[?|?]]];
      auto; right; right; by apply elem_of_cons; right.
  - split; intros f Hf.
    + right; right. apply elem_of_cons. by left.
    + destruct (IHo f Hf) as [?|[Hst|?]]; auto.
      * right; left. intros Hz. apply Hst.
        rewrite Z.land_lor_distr_l, Hz. done.
      * right; right. apply elem_of_cons. by right.
  - split; intros f Hf.
    + destruct (IHi f Hf) as [?|[Hst|?]]; auto.
      * right; left. intros Hz. apply Hst.
        rewrite Z.land_lor_distr_l, Hz. done.
      * right; right. apply elem_of_cons. by right.
    + right; right. apply elem_of_cons. by left.
  - split; intros f Hf.
    + destruct (IHi f Hf) as [Hf1|[?|?]]; [|done|].
      * destruct (record_token_infile _ _ _ _ _ Hrec Hf1) as [?| ->]; auto.
      * right; right. apply elem_of_cons; right. apply elem_of_app; right.
        by apply elem_of_cons; right.
    + destruct (IHo f Hf) as [Hf1|[?|?]]; [|done|].
      * destruct (record_token_outfile _ _ _ _ _ Hrec Hf1) as [?| ->]; auto.
      * right; right. apply elem_of_cons; right. apply elem_of_app; right.
        by apply elem_of_cons; right.
  - split; intros f Hf.
    + destruct (IHi f Hf) as [Hf1|[?|?]]; [|done|].
      * destruct (record_token_infile _ _ _ _ _ Hrec Hf1) as [?| ->]; auto.
      * right; right. apply elem_of_app; right. by apply elem_of_cons; right.
    + destruct (IHo f Hf) as [Hf1|[?|?]]; [|done|].
      * destruct (record_token_outfile _ _ _ _ _ Hrec Hf1) as [?| ->]; auto.
      * right; right. apply elem_of_app; right. by apply elem_of_cons; right.
Qed.

Lemma eval_parse_error unix_error cmdline tok msgs o s :
  parseline cmdline = (-1, tok, msgs) ->
  eval unix_error cmdline o s = Ret (foldl eprintf s msgs).
Proof. intros Hparse. unfold eval. by rewrite Hparse. Qed.

(** C8 as amended.  When the tokenizer, the argument array not yet full,
    comes to a single or double quote at the start of a token and the same
    quote does not occur again on the rest of the line, parseline returns -1
    with the message "unmatched"; the token structure holds what was stored
    before, without a built-in classification, and eval returns without
    acting on the line. *)
Theorem unmatched_quote_fails (cmdline : string) (pre rest : list ascii) (q : ascii)
    (tok : cmdline_tokens) (st : Z) :
  list_ascii_of_string cmdline = pre ++ q :: rest ->
  scans no_tokens ST_NORMAL pre tok st ->
  is_quote q = true ->
  q ∉ rest ->
  parseline cmdline = (-1, tok, [msg_unmatched q]) /\
  builtins tok = None /\
  forall unix_error o s,
    eval unix_error cmdline o s = Ret (eprintf s (msg_unmatched q)).
Proof.
  intros Hline Hscans Hq Hrest.
  assert (parseline cmdline = (-1, tok, [msg_unmatched q])) as Hparse.
  { unfold parseline. fold no_tokens. rewrite Hline.
    rewrite (scans_parse_from _ _ _ _ _ _ Hscans).
    by rewrite parse_from_unmatched. }
  split_and!; [done| |].
  - by rewrite (scans_builtins _ _ _ _ _ Hscans).
  - intros unix_error o s. by rewrite (eval_parse_error _ _ _ _ _ _ Hparse).
Qed.

Lemma unmatched_quote_fails_witness :
  parseline ("ls " +:+ String dquote "abc") =
    (-1, Tokens ["ls"] None None None, [msg_unmatched dquote]).
Proof.
  refine (proj1 (unmatched_quote_fails ("ls " +:+ String dquote "abc")
                   ["l"; "s"; " "]%char ["a"; "b"; "c"]%char dquote
                   (Tokens ["ls"] None None None) ST_NORMAL eq_refl _ eq_refl _)).
  - apply (scans_bare no_tokens ST_NORMAL ["l"; "s"]%char " "%char
             (Tokens ["ls"] None None None) []).
    + split; [by repeat constructor|]. by split_and!.
    + reflexivity.
    + reflexivity.
    + vm_compute. reflexivity.
    + apply scans_done.
  - intros Hin. repeat (apply elem_of_cons in Hin as [Hin|Hin]; [discriminate|]).
    by apply elem_of_nil in Hin.
Defined.

(** C8 as stated fails on a line whose opening quote comes after MAXARGS - 1
    arguments: the loop is left before the quote is read, and the line is
    accepted. *)
Lemma unmatched_quote_after_full_argv :
  let line := full_argv_line (String dquote "b") in
  (String.length line < Z.to_nat MAXLINE_TSH)%nat /\
  list_ascii_of_string line = full_argv_text ++ [dquote; "b"%char] /\
  last full_argv_text = Some " "%char /\
  (dquote ∉ full_argv_text) /\ (squote ∉ full_argv_text) /\
  (parseline line).1.1 = 0 /\
  length (argv (parseline line).1.2) = 127%nat.
Proof.
  intros line. split_and!; try by vm_compute.
  - vm_compute. lia.
  - apply (bool_decide_unpack _). by vm_compute.
  - apply (bool_decide_unpack _). by vm_compute.
Qed.

(** C7 as amended.  When the tokenizer, the argument array not yet full,
    comes to a '<' after an input file name has been recorded, or to a '>'
    after an output file name has been recorded, parseline returns -1 with the
    message "Ambiguous I/O redirection" and eval returns without acting on the
    line.  The recorded name belongs to an earlier '<' (or '>') of the line. *)
Theorem repeated_redirection_fails (cmdline : string) (pre rest : list ascii)
    (tok : cmdline_tokens) (st : Z) :
  scans no_tokens ST_NORMAL pre tok st ->
  (list_ascii_of_string cmdline = pre ++ "<"%char :: rest ->
   infile tok <> None ->
   "<"%char ∈ pre /\
   parseline cmdline = (-1, tok, [msg_ambiguous]) /\
   forall unix_error o s, eval unix_error cmdline o s = Ret (eprintf s msg_ambiguous)) /\
  (list_ascii_of_string cmdline = pre ++ ">"%char :: rest ->
   outfile tok <> None ->
   ">"%char ∈ pre /\
   parseline cmdline = (-1, tok, [msg_ambiguous]) /\
   forall unix_error o s, eval unix_error cmdline o s = Ret (eprintf s msg_ambiguous)).
Proof.
  intros Hscans.
  destruct (scans_redirections _ _ _ _ _ Hscans) as [Hi Ho].
  split.
  - intros Hline Hfile.
    destruct (infile tok) as [f|] eqn:Hf; [clear Hfile|done].
    assert (parseline cmdline = (-1, tok, [msg_ambiguous])) as Hparse.
    { unfold parseline. fold no_tokens. rewrite Hline.
      rewrite (scans_parse_from _ _ _ _ _ _ Hscans).
      by rewrite parse_from_infile, Hf. }
    split_and!; [|done|].
    + by destruct (Hi f eq_refl) as [?|[?|?]].
    + intros unix_error o s. by rewrite (eval_parse_error _ _ _ _ _ _ Hparse).
  - intros Hline Hfile.
    destruct (outfile tok) as [f|] eqn:Hf; [clear Hfile|done].
    assert (parseline cmdline = (-1, tok, [msg_ambiguous])) as Hparse.
    { unfold parseline. fold no_tokens. rewrite Hline.
      rewrite (scans_parse_from _ _ _ _ _ _ Hscans).
      by rewrite parse_from_outfile, Hf. }
    split_and!; [|done|].
    + by destruct (Ho f eq_refl) as [?|[?|?]].
    + intros unix_error o s. by rewrite (eval_parse_error _ _ _ _ _ _ Hparse).
Qed.

Lemma repeated_redirection_fails_witness :
  parseline "cat < f < g" = (-1, Tokens ["cat"] (Some "f") None None, [msg_ambiguous]).
Proof.
  refine (proj1 (proj2 (proj1 (repeated_redirection_fails "cat < f < g"
            ["c"; "a"; "t"; " "; "<"; " "; "f"; " "]%char [" "; "g"]%char
            (Tokens ["cat"] (Some "f") None None) ST_NORMAL _) eq_refl _))).
  - apply (scans_bare no_tokens ST_NORMAL ["c"; "a"; "t"]%char " "%char
             (Tokens ["cat"] None None None)
             ["<"; " "; "f"; " "]%char).
    + split; [by repeat constructor|]. by split_and!.
    + reflexivity.
    + reflexivity.
    + vm_compute. reflexivity.
    + apply scans_infile; [reflexivity|].
      apply scans_delim; [reflexivity|].
      apply (scans_bare _ _ ["f"]%char " "%char (Tokens ["cat"] (Some "f") None None) []).
      * split; [by repeat constructor|]. by split_and!.
      * reflexivity.
      * reflexivity.
      * vm_compute. reflexivity.
      * apply scans_done.
  - discriminate.
Defined.

(** C7 as stated fails on a line whose two '<' come after MAXARGS - 1
    arguments: the loop is left before they are read, and the line is
    accepted. *)
Lemma repeated_redirection_after_full_argv :
  let line := full_argv_line "< a < b" in
  (String.length line < Z.to_nat MAXLINE_TSH)%nat /\
  list_ascii_of_string line = full_argv_text ++ list_ascii_of_string "< a < b" /\
  last full_argv_text = Some " "%char /\
  (parseline line).1.1 = 0 /\
  (parseline line).2 = [] /\
  infile (parseline line).1.2 = None /\
  length (argv (parseline line).1.2) = 127%nat.
Proof.
  intros line. split_and!; try by vm_compute.
  vm_compute. lia.
Qed.

(** Two '<' with no file name between them are accepted as well: the second
    one finds no input file recorded yet. *)
Lemma adjacent_redirections_accepted :
  parseline "cat < < f" = (0, Tokens ["cat"] (Some "f") None (Some BUILTIN_NONE), []).
Proof. reflexivity. Qed.

Lemma parseline_collected cmdline args a :
  collected cmdline = Some (args ++ [a]) ->
  exists tok,
    parse_from (list_ascii_of_string cmdline) no_tokens ST_NORMAL = LoopDone tok ST_NORMAL /\
    argv tok = args ++ [a] /\
    parseline cmdline =
      if starts_with_amp a
      then (1, Tokens args (infile tok) (outfile tok)
                 (Some (classify (default a (head args)))), [])
      else (0, Tokens (args ++ [a]) (infile tok) (outfile tok)
                 (Some (classify (default a (head args)))), []).
Proof.
  unfold collected, parseline. fold no_tokens.
  destruct (parse_from _ _ _) as [tok0 msg|tok0 st]; [done|].
  case_decide as Hst; [|done]. intros [= Hargs]. subst st.
  exists tok0. split_and!; [done..|].
  rewrite decide_False by (by intros []).
  rewrite Hargs, last_snoc.
  assert (head (args ++ [a]) = Some (default a (head args))) as ->.
  { by destruct args. }
  cbn [argv infile outfile builtins]. by rewrite removelast_last.
Qed.

(** C6 as amended.  On a line that parses, with at least one argument
    collected: when the last argument collected, bare or quoted, is exactly
    "&", the result is marked background (1 is returned) and that argument is
    removed from the list; when the last argument does not begin with '&', the
    result is not marked background (0 is returned) and the list is returned
    whole.  In particular a bare "&" that the tokenizer reads as the last
    argument of the line marks it background and is removed.  A line with no
    argument returns 1 with an empty list. *)
Theorem background_marker (cmdline : string) :
  (forall args a,
     collected cmdline = Some (args ++ [a]) ->
     (a = "&" ->
        (parseline cmdline).1.1 = 1 /\ argv (parseline cmdline).1.2 = args) /\
     (starts_with_amp a = false ->
        (parseline cmdline).1.1 = 0 /\ argv (parseline cmdline).1.2 = args ++ [a])) /\
  (forall pre ws tok,
     list_ascii_of_string cmdline = pre ++ "&"%char :: ws ->
     Forall (fun c => is_delim c = true) ws ->
     scans no_tokens ST_NORMAL pre tok ST_NORMAL ->
     collected cmdline = Some (argv tok ++ ["&"]) /\
     (parseline cmdline).1.1 = 1 /\ argv (parseline cmdline).1.2 = argv tok) /\
  (collected cmdline = Some [] ->
     (parseline cmdline).1.1 = 1 /\ argv (parseline cmdline).1.2 = []).
Proof.
  assert (forall args a,
     collected cmdline = Some (args ++ [a]) ->
     (a = "&" ->
        (parseline cmdline).1.1 = 1 /\ argv (parseline cmdline).1.2 = args) /\
     (starts_with_amp a = false ->
        (parseline cmdline).1.1 = 0 /\ argv (parseline cmdline).1.2 = args ++ [a])) as Hlast.
  { intros args a (tok & _ & _ & Hparse)%parseline_collected. split.
    - intros ->. by rewrite Hparse.
    - intros Hamp. by rewrite Hparse, Hamp. }
  split_and!; [done| |].
  - intros pre ws tok Hline Hws Hscans.
    assert (collected cmdline = Some (argv tok ++ ["&"])) as Hcoll.
    { unfold collected. rewrite Hline.
      rewrite (scans_parse_from _ _ _ _ _ _ Hscans).
      change ("&"%char :: ws) with (["&"%char] ++ ws).
      rewrite (parse_from_bare ["&"%char] ws).
      - unfold record_token. rewrite decide_True by done.
        change (string_of_list_ascii ["&"%char]) with "&".
        assert (parse_from (drop 1 ws) (Tokens (argv tok ++ ["&"]) (infile tok) (outfile tok)
                  (builtins tok)) ST_NORMAL
                = LoopDone (Tokens (argv tok ++ ["&"]) (infile tok) (outfile tok)
                    (builtins tok)) ST_NORMAL) as ->.
        { rewrite <- (app_nil_r (drop 1 ws)).
          rewrite parse_from_delims; [done|]. by apply Forall_drop. }
        by case_decide.
      - split; [by repeat constructor|]. by split_and!.
      - by destruct Hws. }
    split; [done|]. by apply (Hlast (argv tok) "&").
  - unfold collected, parseline. fold no_tokens.
    destruct (parse_from _ _ _) as [tok0 msg|tok0 st]; [done|].
    case_decide as Hst; [|done]. intros [= Hargs].
    rewrite decide_False by (by intros []). by rewrite Hargs.
Qed.

Lemma background_marker_witness :
  (parseline "sleep 5 &").1.1 = 1 /\ argv (parseline "sleep 5 &").1.2 = ["sleep"; "5"].
Proof.
  exact (proj1 (proj1 (background_marker "sleep 5 &") ["sleep"; "5"] "&" eq_refl) eq_refl).
Defined.

(** C6 as stated fails on a line whose last token is a quoted "&": the quotes
    are gone once the token is stored, and the line is marked background with
    the token removed. *)
Lemma quoted_ampersand_is_background :
  let line := "sleep 5 " +:+ String dquote ("&" +:+ String dquote EmptyString) in
  list_ascii_of_string line
    = list_ascii_of_string "sleep 5 " ++ [dquote; "&"%char; dquote] /\
  collected line = Some ["sleep"; "5"; "&"] /\
  parseline line = (1, Tokens ["sleep"; "5"] None None (Some BUILTIN_NONE), []).
Proof. by vm_compute. Qed.

(** Other lines on which the mark and the last token of the line disagree. *)
Lemma background_marker_other_cases :
  parseline "sleep 5 &x" = (1, Tokens ["sleep"; "5"] None None (Some BUILTIN_NONE), []) /\
  parseline "ls > &" = (0, Tokens ["ls"] None (Some "&") (Some BUILTIN_NONE), []) /\
  parseline "ls & > f" = (1, Tokens ["ls"] None (Some "f") (Some BUILTIN_NONE), []) /\
  parseline EmptyString = (1, Tokens [] None None None, []).
Proof. by vm_compute. Qed.

(** ** The SIGCHLD handler *)

Lemma append_assoc (a b c : string) : (a +:+ b) +:+ c = a +:+ (b +:+ c).
Proof.
  induction a as [|x a IH]; [done|].
  change (String x ((a +:+ b) +:+ c) = String x (a +:+ (b +:+ c))). by f_equal.
Qed.

Lemma land_low_byte status : Z.land status 0x7f = Z.land (Z.land status 0xff) 0x7f.
Proof. by rewrite <- Z.land_assoc. Qed.

Lemma low_byte_range status : 0 <= Z.land status 0xff < 256.
Proof.
  change 0xff with (Z.ones 8). rewrite Z.land_ones by lia.
  apply Z.mod_pos_bound. lia.
Qed.

(** A property of bytes that holds of each of the 256 holds of every byte. *)
Lemma byte_cases (f : Z -> bool) :
  forallb f (Z.of_nat <$> seq 0 256) = true ->
  forall b, 0 <= b < 256 -> f b = true.
Proof.
  intros Hall b Hb. rewrite forallb_forall in Hall. apply Hall.
  apply list_elem_of_In, list_elem_of_fmap. exists (Z.to_nat b). split; [lia|].
  apply elem_of_seq. lia.
Qed.

(** The three kinds of status exclude one another. *)
Lemma status_kinds_exclusive status :
  (WIFSTOPPED status = true -> WIFSIGNALED status = false /\ WIFEXITED status = false) /\
  (WIFSIGNALED status = true -> WIFSTOPPED status = false /\ WIFEXITED status = false) /\
  (WIFEXITED status = true -> WIFSTOPPED status = false /\ WIFSIGNALED status = false).
Proof.
  unfold WIFSTOPPED, WIFSIGNALED, WIFEXITED, WTERMSIG.
  rewrite (land_low_byte status).
  pose proof (low_byte_range status) as Hb. revert Hb.
  generalize (Z.land status 0xff). intros b Hb.
  pose proof (byte_cases
    (fun b =>
       let stopped := b =? 0x7f in
       let signaled := Z.shiftr (to_schar (Z.land b 0x7f + 1)) 1 >? 0 in
       let exited := Z.land b 0x7f =? 0 in
       negb (stopped && signaled) && negb (stopped && exited) && negb (signaled && exited))
    ltac:(by vm_compute) b Hb) as H.
  simpl in H.
  destruct (b =? 0x7f), (Z.shiftr _ 1 >? 0), (Z.land b 0x7f =? 0);
    try discriminate H; repeat split; intros; congruence.
Qed.

Lemma pid2jid_found jobs p i j :
  getjobpid jobs p = Some i -> jobs !! i = Some j -> pid2jid jobs p = jid j /\ pid j = p.
Proof.
  unfold getjobpid, pid2jid, scan. case_decide; [done|].
  destruct (list_find _ jobs) as [[i' j']|] eqn:Hfind; [|done].
  intros [= ->] Hj. apply list_find_Some in Hfind as (Hj' & Hp & _).
  split; congruence.
Qed.

Lemma getjobpid_Some jobs p i :
  getjobpid jobs p = Some i <->
  0 < p /\ exists j, jobs !! i = Some j /\ pid j = p /\
    forall k jk, jobs !! k = Some jk -> (k < i)%nat -> pid jk <> p.
Proof.
  unfold getjobpid. case_decide.
  - split; [done|]. intros [? _]. lia.
  - rewrite (scan_Some (fun j => pid j = p)). split; [intros; split; [lia|done]|by intros [_ ?]].
Qed.

Lemma getjobpid_None jobs p :
  getjobpid jobs p = None <-> p <= 0 \/ Forall (fun j => pid j <> p) jobs.
Proof.
  unfold getjobpid. case_decide.
  - split; [intros _; left; lia|done].
  - rewrite (scan_None (fun j => pid j = p)). split; [by right|]. intros [?|?]; [lia|done].
Qed.

(** A slot update that keeps what a scan tests and what it reads does not
    change the result of the scan. *)
Lemma list_find_alter_proj {B} (g : job_t -> B) (f : job_t -> job_t)
    (P : job_t -> Prop) `{!forall j, Decision (P j)} (jobs : list job_t) (i : nat) :
  (forall j, g (f j) = g j) -> (forall j, P (f j) <-> P j) ->
  prod_map id g <$> list_find P (alter f i jobs) = prod_map id g <$> list_find P jobs.
Proof.
  intros Hg HP. revert i. induction jobs as [|j jobs IH]; intros [|i]; try done.
  - change (alter f 0 (j :: jobs)) with (f j :: jobs).
    simpl.
    destruct (decide (P (f j))) as [Hfj|Hfj], (decide (P j)) as [Hj|Hj];
      [simpl; by rewrite Hg|by destruct Hj; apply HP|by destruct Hfj; apply HP|done].
  - change (alter f (S i) (j :: jobs)) with (j :: alter f i jobs).
    simpl. case_decide; [done|].
    specialize (IH i).
    destruct (list_find P (alter f i jobs)) as [[]|], (list_find P jobs) as [[]|];
      simpl in *; congruence.
Qed.

Lemma getjobpid_set_state jobs p i st :
  getjobpid (alter (set_state st) i jobs) p = getjobpid jobs p.
Proof.
  unfold getjobpid, scan. case_decide; [done|].
  pose proof (list_find_alter_proj (fun _ => tt) (set_state st) (fun j => pid j = p)
                jobs i ltac:(done) ltac:(done)) as H'.
  destruct (list_find _ (alter _ _ _)) as [[]|], (list_find _ jobs) as [[]|];
    simpl in *; congruence.
Qed.

Lemma pid2jid_set_state jobs p i st :
  pid2jid (alter (set_state st) i jobs) p = pid2jid jobs p.
Proof.
  unfold pid2jid. case_decide; [done|].
  pose proof (list_find_alter_proj jid (set_state st) (fun j => pid j = p)
                jobs i ltac:(done) ltac:(done)) as H'.
  destruct (list_find _ (alter _ _ _)) as [[]|], (list_find _ jobs) as [[]|];
    simpl in *; congruence.
Qed.

(** The text of the reaper's two notifications. *)
Lemma reaper_notice s j p what n :
  sio_puts (sio_putl (sio_puts (sio_putl (sio_puts (sio_putl (sio_puts s "Job [") j)
    "] (") p) what) n) nl
  = printf s ("Job [" +:+ pretty j +:+ "] (" +:+ pretty p +:+ what +:+ pretty n +:+ nl).
Proof.
  unfold sio_puts, sio_putl, printf, set_out. simpl. f_equal.
  by rewrite !append_assoc.
Qed.

Lemma alter_at (f : job_t -> job_t) (jobs : list job_t) (i : nat) (j : job_t) :
  jobs !! i = Some j -> alter f i jobs = <[i := f j]> jobs.
Proof.
  intros Hj. rewrite list_insert_alter. apply list_alter_ext; [|done].
  intros j' Hj'. congruence.
Qed.

Lemma reap_child_stopped s p stat i :
  WIFSTOPPED stat = true -> getjobpid (job_list s) p = Some i ->
  reap_child s p stat =
    Ret (printf (set_jobs s (alter (set_state ST) i (job_list s)))
           ("Job [" +:+ pretty (pid2jid (job_list s) p) +:+ "] (" +:+ pretty p
            +:+ ") stopped by signal " +:+ pretty (WSTOPSIG stat) +:+ nl)).
Proof.
  intros Hst Hfound.
  destruct (proj1 (status_kinds_exclusive stat) Hst) as [Hsig Hex].
  unfold reap_child. rewrite Hst, Hfound, Hsig, Hex. cbn [bind].
  rewrite reaper_notice.
  change (job_list (sio_puts ?s0 _)) with (job_list s0).
  cbn [job_list set_jobs]. by rewrite pid2jid_set_state.
Qed.

Lemma reap_child_signaled s p stat :
  WIFSIGNALED stat = true ->
  reap_child s p stat =
    Ret (deletejob
           (printf s ("Job [" +:+ pretty (pid2jid (job_list s) p) +:+ "] (" +:+ pretty p
                      +:+ ") terminated by signal " +:+ pretty (WTERMSIG stat) +:+ nl))
           p).2.
Proof.
  intros Hsig.
  destruct (proj1 (proj2 (status_kinds_exclusive stat)) Hsig) as [Hst Hex].
  unfold reap_child. rewrite Hst, Hsig, Hex. cbn [bind].
  by rewrite reaper_notice.
Qed.

Lemma reap_child_exited s p stat :
  WIFEXITED stat = true -> reap_child s p stat = Ret (deletejob s p).2.
Proof.
  intros Hex.
  destruct (proj2 (proj2 (status_kinds_exclusive stat)) Hex) as [Hst Hsig].
  unfold reap_child. by rewrite Hst, Hsig, Hex.
Qed.

(** C10. In the stopped branch the handler writes through the result of
    [getjobpid] without testing it: the branch faults exactly when the pid is
    not in the table, and when every stopped pid handed to it belongs to a
    job in the table the lookup never gives NULL and the branch returns. *)
Theorem reap_stopped_needs_job (s : shell) (p stat : Z) :
  WIFSTOPPED stat = true ->
  (reap_child s p stat = Fault <-> getjobpid (job_list s) p = None) /\
  (0 < p -> (exists j, j ∈ job_list s /\ pid j = p) ->
   getjobpid (job_list s) p <> None /\ exists s', reap_child s p stat = Ret s').
Proof.
  intros Hst.
  assert (reap_child s p stat = Fault <-> getjobpid (job_list s) p = None) as Hfault.
  { destruct (getjobpid (job_list s) p) as [i|] eqn:Hfound.
    - rewrite (reap_child_stopped s p stat i Hst Hfound). done.
    - unfold reap_child. by rewrite Hst, Hfound. }
  split; [done|].
  intros Hp (j & Hin & Hpid).
  assert (getjobpid (job_list s) p <> None) as Hsome.
  { intros [?|Hnone]%getjobpid_None; [lia|].
    rewrite Forall_forall in Hnone. by apply (Hnone j). }
  split; [done|].
  destruct (getjobpid (job_list s) p) as [i|] eqn:Hfound; [|done].
  rewrite (reap_child_stopped s p stat i Hst Hfound). eauto.
Qed.

Lemma reap_stopped_needs_job_witness :
  let s := Shell [Job 7 1 FG "vi"; Job 0 0 UNDEF EmptyString] 2 false EmptyString [] [] [] in
  reap_child s 8 0x147f = Fault /\
  getjobpid (job_list s) 7 <> None /\ exists s', reap_child s 7 0x147f = Ret s'.
Proof.
  intros s. split.
  - apply (proj1 (reap_stopped_needs_job s 8 0x147f eq_refl)). reflexivity.
  - apply (proj2 (reap_stopped_needs_job s 7 0x147f eq_refl)); [lia|].
    exists (Job 7 1 FG "vi"). split; [|reflexivity]. constructor.
Defined.

(** ** At most one foreground job *)

Lemma demoted_fg j j' : demoted j j' -> fg_job j' -> fg_job j /\ pid j' = pid j.
Proof.
  intros [Hp Hs] [Hlive Hfg]. unfold fg_job.
  destruct Hp as [Hp|Hp]; [|done]. destruct Hs as [Hs|Hs]; [|done].
  rewrite <- Hp, <- Hs. done.
Qed.

Lemma demoted_state j j' : demoted j j' -> state j' = FG -> state j = FG.
Proof. intros [_ [Hs|Hs]] Hfg; congruence. Qed.

Lemma demotes_alter (f : job_t -> job_t) (jobs : list job_t) (i : nat) :
  (forall j, demoted j (f j)) -> Forall2 demoted jobs (alter f i jobs).
Proof.
  intros Hf. revert i. induction jobs as [|j jobs IH]; intros [|i]; simpl.
  - constructor.
  - constructor.
  - constructor; [apply Hf|reflexivity].
  - constructor; [reflexivity|apply IH].
Qed.

Lemma demoted_set_state st j : st <> FG -> demoted j (set_state st j).
Proof. intros Hst. split; simpl; auto. Qed.

Lemma demoted_clearjob j : demoted j (clearjob j).
Proof. split; simpl; [by right|right; done]. Qed.

Lemma demotes_pids jobs jobs' :
  Forall2 demoted jobs jobs' ->
  Forall2 (fun j j' => pid j' = pid j \/ pid j' = 0) jobs jobs'.
Proof. intros Hd. eapply Forall2_impl; [apply Hd|]. by intros j j' [Hp _]. Qed.

Lemma pids_table_ok jobs jobs' :
  Forall2 (fun j j' => pid j' = pid j \/ pid j' = 0) jobs jobs' ->
  table_ok jobs -> table_ok jobs'.
Proof.
  intros Hd [Hnn Huniq]. split.
  - intros i j' Hi.
    destruct (Forall2_lookup_r _ _ _ _ _ Hd Hi) as (j & Hj & [->| ->]); [|lia].
    by eapply Hnn.
  - intros i i' j1' j2' Hi Hi' Hlive Heq.
    destruct (Forall2_lookup_r _ _ _ _ _ Hd Hi) as (j1 & Hj1 & Hp1).
    destruct (Forall2_lookup_r _ _ _ _ _ Hd Hi') as (j2 & Hj2 & Hp2).
    destruct Hp1 as [Hp1|Hp1]; [|done].
    destruct Hp2 as [Hp2|Hp2]; [|congruence].
    apply (Huniq i i' j1 j2); congruence.
Qed.

Lemma pids_kids_ok jobs jobs' kids :
  Forall2 (fun j j' => pid j' = pid j \/ pid j' = 0) jobs jobs' ->
  kids_ok jobs kids -> kids_ok jobs' kids.
Proof.
  intros Hd [Hpos Hk]. split; [done|]. intros i j' Hi Hlive.
  destruct (Forall2_lookup_r _ _ _ _ _ Hd Hi) as (j & Hj & [Hp|Hp]); [|done].
  rewrite Hp. apply (Hk i j Hj). congruence.
Qed.

Lemma demotes_mode_ok jobs jobs' m :
  Forall2 demoted jobs jobs' -> mode_ok jobs m -> mode_ok jobs' m.
Proof.
  intros Hd Hm.
  assert (forall i j', jobs' !! i = Some j' -> fg_job j' ->
            exists j, jobs !! i = Some j /\ fg_job j /\ pid j' = pid j) as Hback.
  { intros i j' Hi Hfg.
    destruct (Forall2_lookup_r _ _ _ _ _ Hd Hi) as (j & Hj & Hdem).
    exists j. split; [done|]. by apply demoted_fg. }
  destruct m as [|p cmd|p|i0|i0|i0]; simpl in *.
  - intros i j' Hi Hfg. destruct (Hback _ _ Hi Hfg) as (j & Hj & Hfj & _). by eapply Hm.
  - intros i j' Hi Hfg. destruct (Hback _ _ Hi Hfg) as (j & Hj & Hfj & _). by eapply Hm.
  - intros i j' Hi Hfg. destruct (Hback _ _ Hi Hfg) as (j & Hj & Hfj & Hpid).
    destruct (Hm _ _ Hj Hfj) as [Hp Hbefore]. split; [congruence|].
    intros k jk' Hk Hlt Hst.
    destruct (Forall2_lookup_r _ _ _ _ _ Hd Hk) as (jk & Hjk & Hdem).
    apply (Hbefore k jk Hjk Hlt). by eapply demoted_state.
  - intros i j' Hi Hfg. destruct (Hback _ _ Hi Hfg) as (j & Hj & Hfj & _). by eapply Hm.
  - intros i j' Hi Hfg. destruct (Hback _ _ Hi Hfg) as (j & Hj & Hfj & _). by eapply Hm.
  - intros i j' Hi Hfg. destruct (Hback _ _ Hi Hfg) as (j & Hj & Hfj & _). by eapply Hm.
Qed.

Lemma demotes_inv s s' m kids :
  Forall2 demoted (job_list s) (job_list s') ->
  inv (Config s m kids) -> inv (Config s' m kids).
Proof.
  intros Hd (Ht & Hk & Hm). split_and!; simpl in *.
  - eapply pids_table_ok; [by apply demotes_pids|done].
  - eapply pids_kids_ok; [by apply demotes_pids|done].
  - by eapply demotes_mode_ok.
Qed.

Lemma deletejob_demotes s p :
  Forall2 demoted (job_list s) (job_list (deletejob s p).2).
Proof.
  unfold deletejob. case_decide; [reflexivity|].
  destruct (scan _ _) as [i|]; [|reflexivity].
  simpl. apply demotes_alter, demoted_clearjob.
Qed.

Lemma deletejob_demotes_from s0 s p :
  job_list s = job_list s0 ->
  Forall2 demoted (job_list s0) (job_list (deletejob s p).2).
Proof. intros <-. apply deletejob_demotes. Qed.

Lemma reap_child_demotes s p stat s' :
  reap_child s p stat = Ret s' -> Forall2 demoted (job_list s) (job_list s').
Proof.
  unfold reap_child.
  set (after := fun s : shell => _).
  assert (forall s1, Forall2 demoted (job_list s) (job_list s1) ->
            after s1 = Ret s' -> Forall2 demoted (job_list s) (job_list s')) as Hafter.
  { intros s1 H1. unfold after. intros [= <-].
    etrans; [apply H1|].
    destruct (WIFSIGNALED stat), (WIFEXITED stat); simpl.
    - etrans; [|apply deletejob_demotes]. by apply deletejob_demotes_from.
    - by apply deletejob_demotes_from.
    - apply deletejob_demotes.
    - reflexivity. }
  destruct (WIFSTOPPED stat).
  - destruct (getjobpid (job_list s) p) as [i|]; [|done].
    simpl. apply Hafter. simpl. apply demotes_alter. intros j. by apply demoted_set_state.
  - simpl. by apply Hafter.
Qed.

(** Once [deletejob] has run for a process id, no slot holds it. *)
Lemma deletejob_gone s p :
  table_ok (job_list s) -> 0 < p ->
  forall i j, job_list (deletejob s p).2 !! i = Some j -> pid j <> p.
Proof.
  intros [_ Huniq] Hp i j. unfold deletejob. rewrite decide_False by lia.
  destruct (scan _ _) as [k|] eqn:Hscan; simpl.
  - apply (scan_Some (fun j => pid j = p)) in Hscan as (jk & Hjk & Hpk & _).
    rewrite list_lookup_alter. case_decide as Hki.
    + subst i. rewrite Hjk. intros [= <-]. simpl. lia.
    + intros Hi Hpid. apply Hki. apply (Huniq k i jk j); [done|done|lia|congruence].
  - apply (scan_None (fun j => pid j = p)) in Hscan. rewrite Forall_lookup in Hscan.
    intros Hi. by apply (Hscan i j).
Qed.

Lemma reap_child_gone s p stat s' :
  table_ok (job_list s) -> 0 < p -> terminated stat = true ->
  reap_child s p stat = Ret s' ->
  forall i j, job_list s' !! i = Some j -> pid j <> p.
Proof.
  intros Hok Hp Hterm. unfold terminated in Hterm.
  destruct (WIFEXITED stat) eqn:Hex.
  - rewrite (reap_child_exited s p stat Hex). intros [= <-]. by apply deletejob_gone.
  - simpl in Hterm. rewrite (reap_child_signaled s p stat Hterm). intros [= <-].
    by apply deletejob_gone.
Qed.

Lemma kids_ok_remove jobs kids p :
  kids_ok jobs kids ->
  (forall i j, jobs !! i = Some j -> pid j <> p) ->
  kids_ok jobs (kids ∖ {[p]}).
Proof.
  intros [Hpos Hk] Hgone. split.
  - intros q [Hq _]%elem_of_difference. by apply Hpos.
  - intros i j Hi Hlive. apply elem_of_difference. split; [by eapply Hk|].
    rewrite elem_of_singleton. by eapply Hgone.
Qed.

Lemma inv_initial c : initial c -> inv c.
Proof.
  intros ((jobs & _ & Hjobs) & Hplace & Hkids). unfold inv.
  rewrite Hjobs, Hplace, Hkids. unfold initjobs.
  split_and!; [split|split|].
  - intros i j (j0 & -> & _)%list_lookup_fmap_Some. simpl. lia.
  - intros i i' j j' (j0 & -> & _)%list_lookup_fmap_Some _ Hlive. by simpl in Hlive.
  - intros p Hp. by apply elem_of_empty in Hp.
  - intros i j (j0 & -> & _)%list_lookup_fmap_Some Hlive. by simpl in Hlive.
  - intros i j (j0 & -> & _)%list_lookup_fmap_Some [Hlive _]. by simpl in Hlive.
Qed.

Lemma addjob_jobs s p st cmd :
  job_list (addjob s p st cmd).2 = job_list s \/
  (1 <= p /\ exists k,
     scan (fun j => pid j = 0) (job_list s) = Some k /\
     job_list (addjob s p st cmd).2 = <[k := Job p (nextjid s) st cmd]> (job_list s)).
Proof.
  unfold addjob. case_decide; [by left|].
  destruct (scan _ _) as [k|] eqn:Hk; [|by left].
  right. split; [lia|]. exists k. split; [done|].
  cbn [snd]. by destruct (verbose _).
Qed.

Lemma inv_launch s kids p bg cmd :
  p = -1 \/ (0 < p /\ p ∉ kids) ->
  bg = 0 \/ bg = 1 ->
  inv (Config s AtPrompt kids) ->
  inv (Config (addjob s p (int_add bg 1) cmd).2
              (if decide (bg <> 0) then BgLaunched p cmd else FgSuspend p)
              (if decide (0 < p) then {[p]} ∪ kids else kids)).
Proof.
  intros Hfork Hbg ([Hnn Huniq] & [Hpos Hk] & Hm). simpl in *.
  assert (kids_ok (job_list s) (if decide (0 < p) then {[p]} ∪ kids else kids)) as Hk'.
  { split.
    - intros q Hq. case_decide; [|by apply Hpos].
      apply elem_of_union in Hq as [->%elem_of_singleton|Hq]; [done|by apply Hpos].
    - intros i j Hi Hlive. case_decide; [apply elem_of_union; right|]; by eapply Hk. }
  destruct (addjob_jobs s p (int_add bg 1) cmd) as [Hsame|(Hp & k & Hscan & Hnew)].
  { unfold inv. simpl. rewrite Hsame. split_and!; [done|done|].
    destruct (decide (bg <> 0)); simpl; [exact Hm|].
    intros i j Hi Hfg. by destruct (Hm i j). }
  destruct Hfork as [?|[_ Hfresh]]; [lia|].
  apply (scan_Some (fun j => pid j = 0)) in Hscan as (j0 & Hj0 & Hempty & Hfirst).
  assert (forall i j, job_list s !! i = Some j -> pid j <> p) as Hnew_pid.
  { intros i j Hi Hpid. destruct (decide (pid j = 0)) as [?|Hlive]; [lia|].
    apply Hfresh. rewrite <- Hpid. by eapply Hk. }
  unfold inv. simpl. rewrite Hnew. split_and!; [split|split|].
  - intros i j [(-> & <- & _)|[_ Hi]]%list_lookup_insert_Some; simpl; [lia|by eapply Hnn].
  - intros i i' j j' Hi Hi' Hlive Heq.
    apply list_lookup_insert_Some in Hi as [(-> & <- & _)|[Hne Hi]];
      apply list_lookup_insert_Some in Hi' as [(-> & <- & _)|[Hne' Hi']]; simpl in *.
    + done.
    + by destruct (Hnew_pid _ _ Hi').
    + by destruct (Hnew_pid _ _ Hi).
    + by eapply Huniq.
  - by destruct Hk'.
  - intros i j [(-> & <- & _)|[_ Hi]]%list_lookup_insert_Some Hlive; simpl.
    + rewrite decide_True by lia. apply elem_of_union. left. by apply elem_of_singleton.
    + destruct Hk' as [_ Hk']. by eapply Hk'.
  - destruct (decide (bg <> 0)) as [Hb|Hb]; simpl.
    + assert (bg = 1) as -> by lia.
      intros i j [(-> & <- & _)|[_ Hi]]%list_lookup_insert_Some.
      * intros [_ Hst]. simpl in Hst. by vm_compute in Hst.
      * by eapply Hm.
    + intros i j [(-> & <- & _)|[_ Hi]]%list_lookup_insert_Some Hfg.
      * split; [done|].
        intros k' jk [(-> & _)|[_ Hk'']]%list_lookup_insert_Some Hlt Hst; [lia|].
        apply (Hm k' jk Hk''). split; [|done]. by eapply Hfirst.
      * by destruct (Hm i j).
Qed.

Lemma inv_wake s kids p :
  p <> fgpid (job_list s) ->
  inv (Config s (FgSuspend p) kids) -> inv (Config s AtPrompt kids).
Proof.
  intros Hp (Hok & Hk & Hm). split_and!; [done..|]. simpl in *.
  intros i j Hi Hfg. destruct (Hm i j Hi Hfg) as [Hpid Hbefore].
  apply Hp. unfold fgpid.
  assert (list_find (fun j => state j = FG) (job_list s) = Some (i, j)) as ->; [|done].
  apply list_find_Some. split_and!; [done|by destruct Hfg|done].
Qed.

Lemma alter_lookup_Some (f : job_t -> job_t) (jobs : list job_t) (i k : nat) (j' : job_t) :
  alter f i jobs !! k = Some j' ->
  exists j, jobs !! k = Some j /\ (k = i /\ j' = f j \/ k <> i /\ j' = j).
Proof.
  rewrite list_lookup_alter. case_decide as Hik.
  - subst k. intros (j & Hj & ->)%fmap_Some. exists j. split; [done|by left].
  - intros Hk. exists j'. split; [done|right]. split; congruence.
Qed.

Lemma alter_set_state_pids st (jobs : list job_t) (i : nat) :
  Forall2 (fun j j' => pid j' = pid j \/ pid j' = 0) jobs (alter (set_state st) i jobs).
Proof.
  apply Forall2_same_length_lookup_2; [by rewrite length_alter|].
  intros k j j' Hj (j0 & Hj0 & [[_ ->]|[_ ->]])%alter_lookup_Some; left; simpl; congruence.
Qed.

Lemma inv_fg_resume s kids i s' :
  fg_resume i s = Ret s' ->
  inv (Config s (FgFound i) kids) -> inv (Config s' (FgWaitpid i) kids).
Proof.
  unfold fg_resume. destruct (job_list s !! i) as [job|]; [|done].
  intros [= <-] (Hok & Hk & Hm). split_and!; simpl in *.
  - eapply pids_table_ok; [apply alter_set_state_pids|done].
  - eapply pids_kids_ok; [apply alter_set_state_pids|done].
  - intros k j' (j & Hj & [[-> _]|[Hne ->]])%alter_lookup_Some Hfg; [done|].
    by destruct (Hm k j).
Qed.

(** After fg_handler's wait no job is in the foreground; the slots hold the
    processes they held, or none; and when the status is not a stop, the
    process of the job is in no slot any more. *)
Lemma fg_finish_table s i status s' :
  fg_finish i status s = Ret s' ->
  table_ok (job_list s) -> mode_ok (job_list s) (FgWaitpid i) ->
  Forall2 (fun j j' => pid j' = pid j \/ pid j' = 0) (job_list s) (job_list s') /\
  mode_ok (job_list s') AtPrompt /\
  (WIFSTOPPED status = false ->
   forall job, job_list s !! i = Some job -> 0 < pid job ->
   forall k j, job_list s' !! k = Some j -> pid j <> pid job).
Proof.
  unfold fg_finish. intros Hfin Hok Hm. simpl in *.
  destruct (WIFSTOPPED status).
  { injection Hfin as <-. split_and!; simpl; [apply alter_set_state_pids| |done].
    intros k j' (j & Hj & [[-> ->]|[Hne ->]])%alter_lookup_Some Hfg.
    - by destruct Hfg.
    - by apply Hne, (Hm k j). }
  destruct (job_list s !! i) as [job|] eqn:Hjob; [|done].
  injection Hfin as <-.
  split_and!; [apply demotes_pids, deletejob_demotes| |].
  - destruct (decide (fg_job job)) as [[Hlive Hfg]|Hnfg].
    + destruct Hok as [Hnn Huniq]. pose proof (Hnn _ _ Hjob) as Hpos.
      intros k j Hk [Hlivek Hfgk].
      pose proof (deletejob_gone s (pid job) (conj Hnn Huniq) ltac:(lia) k j Hk) as Hgone.
      destruct (Forall2_lookup_r _ _ _ _ _ (deletejob_demotes s (pid job)) Hk)
        as (j0 & Hj0 & Hdem).
      destruct (demoted_fg _ _ Hdem (conj Hlivek Hfgk)) as [Hfg0 Hpid0].
      assert (k = i) as -> by by eapply Hm. congruence.
    + apply (demotes_mode_ok (job_list s) _ (FgFound i)); [apply deletejob_demotes|]. simpl.
      intros k j Hk Hfg. assert (k = i) as -> by by eapply Hm. congruence.
  - intros _ job' [= <-] Hpos. by apply deletejob_gone.
Qed.

Lemma fg_finish_size s i status s' :
  fg_finish i status s = Ret s' -> length (job_list s') = length (job_list s).
Proof.
  unfold fg_finish. destruct (WIFSTOPPED status).
  - intros [= <-]. simpl. by rewrite length_alter.
  - destruct (job_list s !! i); [|done]. intros [= <-].
    by rewrite (Forall2_length _ _ _ (deletejob_demotes s (pid j))).
Qed.

Lemma bg_found_jobs i s s' :
  bg_found i s = Ret s' -> job_list s' = alter (set_state BG) i (job_list s).
Proof.
  unfold bg_found. simpl. destruct (alter _ _ _ !! i); [|done]. by intros [= <-].
Qed.

Lemma inv_bg s kids i s' :
  bg_found i s = Ret s' ->
  inv (Config s (BgFound i) kids) -> inv (Config s' AtPrompt kids).
Proof.
  intros Hjobs%bg_found_jobs Hinv.
  apply (demotes_inv s s' (BgFound i)); [|done].
  rewrite Hjobs. apply demotes_alter. intros j. by apply demoted_set_state.
Qed.

Lemma inv_reap s m kids p stat s' :
  p ∈ kids -> reap_child s p stat = Ret s' ->
  inv (Config s m kids) ->
  inv (Config s' m (if terminated stat then kids ∖ {[p]} else kids)).
Proof.
  intros Hp Hreap Hinv.
  pose proof (demotes_inv _ _ _ _ (reap_child_demotes _ _ _ _ Hreap) Hinv)
    as (Hok' & Hk' & Hm').
  destruct (terminated stat) eqn:Hterm; [|by split_and!].
  destruct Hinv as (Hok & [Hpos Hk] & _). simpl in *.
  split_and!; [done| |done]. simpl.
  apply kids_ok_remove; [done|].
  exact (reap_child_gone s p stat s' Hok (Hpos p Hp) Hterm Hreap).
Qed.

Lemma inv_fg_waited s kids i job status s' :
  job_list s !! i = Some job -> pid job ∈ kids ->
  fg_finish i status s = Ret s' ->
  inv (Config s (FgWaitpid i) kids) ->
  inv (Config s' AtPrompt (if terminated status then kids ∖ {[pid job]} else kids)).
Proof.
  intros Hjob Hkid Hfin (Hok & Hk & Hm). simpl in *.
  destruct (fg_finish_table _ _ _ _ Hfin Hok Hm) as (Hpids & Hm' & Hgone).
  pose proof (pids_kids_ok _ _ _ Hpids Hk) as Hk'.
  split_and!; simpl; [by eapply pids_table_ok| |done].
  destruct (terminated status) eqn:Hterm; [|done].
  apply kids_ok_remove; [done|].
  assert (WIFSTOPPED status = false) as Hns.
  { destruct (WIFSTOPPED status) eqn:Hst; [|done].
    destruct (proj1 (status_kinds_exclusive status) Hst) as [Hsig Hex].
    unfold terminated in Hterm. by rewrite Hsig, Hex in Hterm. }
  apply (Hgone Hns job Hjob). destruct Hk as [Hpos _]. by apply Hpos.
Qed.

Lemma inv_fg_wait_failed s kids i status s' :
  fg_finish i status s = Ret s' ->
  inv (Config s (FgWaitpid i) kids) -> inv (Config s' AtPrompt kids).
Proof.
  intros Hfin (Hok & Hk & Hm). simpl in *.
  destruct (fg_finish_table _ _ _ _ Hfin Hok Hm) as (Hpids & Hm' & _).
  split_and!; simpl; [by eapply pids_table_ok|by eapply pids_kids_ok|done].
Qed.

(** Every step keeps the invariant. *)
Lemma inv_step c c' : step c c' -> inv c -> inv c'.
Proof.
  intros Hstep. destruct Hstep.
  - by apply inv_launch.
  - intros (Hok & Hk & Hm). by split_and!.
  - intros (Hok & Hk & Hm). simpl in *.
    unfold inv. simpl. by rewrite_job_list.
  - by apply inv_wake.
  - by apply inv_reap.
  - apply demotes_inv, deletejob_demotes.
  - intros (Hok & Hk & Hm). by split_and!.
  - by apply inv_bg.
  - intros (Hok & Hk & Hm). by split_and!.
  - by apply inv_fg_resume.
  - by eapply inv_fg_waited.
  - by eapply inv_fg_wait_failed.
Qed.

Lemma inv_reachable c : reachable c -> inv c.
Proof.
  intros (c0 & Hinit & Hsteps).
  apply (rtc_ind_r (R := step) inv c0); [by apply inv_initial| |done].
  intros c1 c2 _ Hstep Hinv. by eapply inv_step.
Qed.

Lemma filter_at_most_one {A} (P : A -> Prop) `{!forall x, Decision (P x)} (l : list A) :
  (forall i i' x y, l !! i = Some x -> l !! i' = Some y -> P x -> P y -> i = i') ->
  (length (filter P l) <= 1)%nat.
Proof.
  induction l as [|a l IH]; intros Huniq; [simpl; lia|].
  rewrite filter_cons. case_decide as Ha.
  - assert (filter P l = []) as ->; [|simpl; lia].
    clear IH. induction l as [|b l IH]; [done|].
    rewrite filter_cons. rewrite decide_False.
    + apply IH. intros [|i] [|i'] x y Hx Hy HPx HPy; try done.
      * by specialize (Huniq 0%nat (S (S i')) x y Hx Hy HPx HPy).
      * by specialize (Huniq (S (S i)) 0%nat x y Hx Hy HPx HPy).
      * specialize (Huniq (S (S i)) (S (S i')) x y Hx Hy HPx HPy). lia.
    + intros Hb. by specialize (Huniq 0%nat 1%nat a b eq_refl eq_refl Ha Hb).
  - apply IH. intros i i' x y Hx Hy HPx HPy.
    specialize (Huniq (S i) (S i') x y Hx Hy HPx HPy). lia.
Qed.

Lemma inv_at_most_one c : inv c -> (length (fg_jobs (job_list (proc c))) <= 1)%nat.
Proof.
  destruct c as [s m kids]. intros ([_ Huniq] & _ & Hm). simpl in *.
  apply filter_at_most_one.
  intros i i' x y Hx Hy Hfx Hfy.
  destruct m as [|p cmd|p|i0|i0|i0]; simpl in Hm.
  - by destruct (Hm i x).
  - by destruct (Hm i x).
  - destruct (Hm i x Hx Hfx) as [Hpx _]. destruct (Hm i' y Hy Hfy) as [Hpy _].
    apply (Huniq i i' x y); [done|done|by destruct Hfx|congruence].
  - by destruct (Hm i x).
  - by destruct (Hm i x).
  - rewrite (Hm i x), (Hm i' y); done.
Qed.

(** The table keeps its MAXJOBS slots. *)
Lemma step_table_size c c' :
  step c c' -> length (job_list (proc c')) = length (job_list (proc c)).
Proof.
  assert (forall s p, length (job_list (deletejob s p).2) = length (job_list s)) as Hdel.
  { intros s p. by rewrite (Forall2_length _ _ _ (deletejob_demotes s p)). }
  intros Hstep. destruct Hstep; simpl; try done;
    repeat match goal with
    | H : reap_child _ _ _ = Ret _ |- _ =>
        apply reap_child_demotes, Forall2_length in H
    | H : bg_found _ _ = Ret _ |- _ => apply bg_found_jobs in H; rewrite H, length_alter
    | H : fg_finish _ _ _ = Ret _ |- _ => apply fg_finish_size in H
    | H : job_list _ = job_list _ |- _ => rewrite H
    end; try done.
  - destruct (addjob_jobs s p (int_add bg 1) cmd) as [->|(_ & k & _ & ->)]; [done|].
    by rewrite length_insert.
  - unfold fg_resume in *. destruct (job_list s !! i); [|done].
    match goal with H : Ret _ = Ret _ |- _ => injection H as <- end.
    simpl. by rewrite length_alter.
Qed.

Lemma reachable_table_size c : reachable c -> table_size (job_list (proc c)).
Proof.
  intros (c0 & ((jobs & Hsize & Hjobs) & _) & Hsteps).
  apply (rtc_ind_r (R := step) (fun c => table_size (job_list (proc c))) c0); [| |done].
  - unfold table_size, initjobs in *. by rewrite Hjobs, length_fmap.
  - intros c1 c2 _ Hstep Hc1. unfold table_size in *. by rewrite (step_table_size _ _ Hstep).
Qed.

Lemma at_most_one_foreground_job_at_prompt c :
  reachable c -> place c = AtPrompt -> fg_jobs (job_list (proc c)) = [].
Proof.
  intros (_ & _ & Hm)%inv_reachable Hplace. rewrite Hplace in Hm. simpl in Hm.
  unfold fg_jobs. induction (job_list (proc c)) as [|j jobs IH]; [done|].
  rewrite filter_cons, decide_False.
  - apply IH. intros i j' Hi. by apply (Hm (S i) j').
  - by apply (Hm 0%nat j).
Qed.

(** Among the slots in use: in every configuration the shell reaches from
    its start by launching commands, bg, fg, reaping children and deleting
    jobs, the SIGCHLD handler running between any two steps of the main line,
    at most one slot with a process id is in the FG state.  A slot without
    one can be in that state too (next theorem). *)
Theorem at_most_one_foreground_job (c : config) :
  reachable c -> (length (fg_jobs (job_list (proc c))) <= 1)%nat.
Proof. intros Hinv%inv_reachable. by apply inv_at_most_one. Qed.

Lemma launch_foreground_reachable :
  reachable (Config (addjob shell0 100 (int_add 0 1) "ls").2 (FgSuspend 100) ({[100]} ∪ ∅)).
Proof.
  exists (Config shell0 AtPrompt ∅). split.
  - split_and!; [|done..].
    by exists (replicate (Z.to_nat MAXJOBS) (Job 0 0 UNDEF EmptyString)).
  - apply rtc_once. apply (step_launch shell0 ∅ 100 0 "ls").
    + right. split; [lia|]. apply not_elem_of_empty.
    + by left.
Defined.

Lemma at_most_one_foreground_job_witness :
  let c := Config (addjob shell0 100 (int_add 0 1) "ls").2 (FgSuspend 100) ({[100]} ∪ ∅) in
  reachable c /\ (length (fg_jobs (job_list (proc c))) <= 1)%nat.
Proof.
  intros c. split; [exact launch_foreground_reachable|].
  exact (at_most_one_foreground_job c launch_foreground_reachable).
Defined.

Lemma initial_shell0 : initial (Config shell0 AtPrompt ∅).
Proof.
  split_and!; [|done..].
  by exists (replicate (Z.to_nat MAXJOBS) (Job 0 0 UNDEF EmptyString)).
Qed.

(** C3.  The claim fails on the code: the state field is FG in two slots of
    a table the shell reaches.  Two background jobs are started (process ids
    100 and 101, job ids 1 and 2).  The user types [fg %1]; [fg_handler] has
    found the job when the child 100 exits and the SIGCHLD handler clears
    its slot; [fg_handler] then writes FG through its pointer into the
    cleared slot, [waitpid] fails, and [deletejob] of process id 0 leaves
    the slot as it is.  The user types [fg %2], and the slot of job 2 gets
    state FG as well, while [fgpid], which returns the process id of the
    first slot in state FG, gives 0. *)
Theorem two_slots_in_foreground_state :
  exists c,
    reachable c /\
    place c = FgWaitpid 1 /\
    filter (fun j => state j = FG) (job_list (proc c))
      = [Job 0 0 FG EmptyString; Job 101 2 FG "b &"] /\
    fg_jobs (job_list (proc c)) = [Job 101 2 FG "b &"] /\
    fgpid (job_list (proc c)) = 0.
Proof.
  set (s1 := (addjob shell0 100 (int_add 1 1) "a &").2).
  set (s2 := printf s1 (job_notice (pid2jid (job_list s1) 100) 100 "a &")).
  set (s3 := (addjob s2 101 (int_add 1 1) "b &").2).
  set (s4 := printf s3 (job_notice (pid2jid (job_list s3) 101) 101 "b &")).
  set (s5 := (deletejob s4 100).2).
  set (s6 := set_jobs (kill s5 (int_neg 0) SIGCONT)
               (alter (set_state FG) 0%nat (job_list s5))).
  set (s8 := set_jobs (kill s6 (int_neg 101) SIGCONT)
               (alter (set_state FG) 1%nat (job_list s6))).
  set (k1 := ({[100]} ∪ ∅ : gset Z)).
  set (k2 := ({[101]} ∪ k1 : gset Z)).
  set (k3 := (k2 ∖ {[100]} : gset Z)).
  exists (Config s8 (FgWaitpid 1) k3). split; [|by vm_compute].
  exists (Config shell0 AtPrompt ∅). split; [apply initial_shell0|].
  eapply rtc_l.
  { apply (step_launch shell0 ∅ 100 1 "a &"); [|by right].
    right. split; [lia|]. apply not_elem_of_empty. }
  eapply rtc_l; [apply (step_notice s1 k1 100 "a &")|].
  eapply rtc_l.
  { apply (step_launch s2 k1 101 1 "b &"); [|by right].
    right. split; [lia|]. unfold k1.
    rewrite elem_of_union, elem_of_singleton, elem_of_empty. intros [?|[]]. lia. }
  eapply rtc_l; [apply (step_notice s3 k2 101 "b &")|].
  eapply rtc_l; [apply (step_fg_lookup s4 k2 "%1" 0%nat); reflexivity|].
  eapply rtc_l.
  { apply (step_reap s4 (FgFound 0) k2 100 0 s5); [|reflexivity].
    unfold k2, k1. rewrite !elem_of_union, !elem_of_singleton. by right; left. }
  eapply rtc_l; [apply (step_fg_resume s5 k3 0%nat s6); reflexivity|].
  eapply rtc_l; [apply (step_fg_wait_failed s6 k3 0%nat 0 s6); reflexivity|].
  eapply rtc_l; [apply (step_fg_lookup s6 k3 "%2" 1%nat); reflexivity|].
  apply rtc_once. apply (step_fg_resume s6 k3 1%nat s8). reflexivity.
Qed.

(** ** eval as a path of the transition system *)

Lemma sigchld_handler_path reaped s s' m kids :
  reaping_ok reaped kids ->
  sigchld_handler reaped s = Ret s' ->
  rtc step (Config s m kids) (Config s' m (held_after_reaping reaped kids)).
Proof.
  revert s kids. induction reaped as [|[p stat] reaped IH]; intros s kids; simpl.
  - by intros _ [= <-].
  - case_decide as Hp; [|by intros _ [= <-]].
    intros Hok. destruct (Hok Hp) as [Hin Hrest].
    destruct (reap_child s p stat) as [s1| | | |] eqn:Hreap; try done. simpl.
    intros Hs'. eapply rtc_l; [by eapply step_reap|]. by apply IH.
Qed.

Lemma parseline_bg cmdline bg tok msgs :
  parseline cmdline = (bg, tok, msgs) -> bg = -1 \/ bg = 0 \/ bg = 1.
Proof.
  unfold parseline.
  destruct (parse_from _ _ _) as [tok0 msg|tok0 st]; [intros [= <- _ _]; auto|].
  case_decide; [intros [= <- _ _]; auto|].
  destruct (last (argv tok0)), (head (argv tok0)); try (intros [= <- _ _]; auto).
  destruct (starts_with_amp _); intros [= <- _ _]; auto.
Qed.

Section paths.
Variable unix_error : string -> shell -> outcome shell.

(** [unix_error] does not touch the job table. *)
Hypothesis unix_error_table :
  forall msg s s', unix_error msg s = Ret s' ->
    job_list s' = job_list s /\ nextjid s' = nextjid s.

Lemma unix_error_path msg s s' m kids :
  unix_error msg s = Ret s' -> rtc step (Config s m kids) (Config s' m kids).
Proof.
  intros [Hjobs Hnext]%unix_error_table. apply rtc_once. by apply step_emit.
Qed.

Lemma handle_path ev s s' m kids :
  match ev with GotSIGCHLD reaped => reaping_ok reaped kids | _ => True end ->
  handle unix_error ev s = Ret s' ->
  rtc step (Config s m kids) (Config s' m (held_after ev kids)).
Proof.
  assert (forall sig kill_ok, forward_signal unix_error sig kill_ok s = Ret s' ->
            rtc step (Config s m kids) (Config s' m kids)) as Hforward.
  { intros sig kill_ok. unfold forward_signal. case_decide; [|by intros [= <-]].
    destruct kill_ok.
    - intros [= <-]. apply rtc_once. by apply step_emit.
    - intros [Hjobs Hnext]%unix_error_table. apply rtc_once. by apply step_emit. }
  destruct ev as [reaped|kill_ok|kill_ok]; simpl.
  - apply sigchld_handler_path.
  - intros _. apply Hforward.
  - intros _. apply Hforward.
Qed.

Lemma handle_all_path events s s' m kids :
  events_ok events kids ->
  handle_all unix_error events s = Ret s' ->
  exists kids', rtc step (Config s m kids) (Config s' m kids').
Proof.
  revert s kids. induction events as [|ev events IH]; intros s kids; simpl.
  - intros _ [= <-]. by exists kids.
  - intros [Hev Hrest].
    destruct (handle unix_error ev s) as [s1| | | |] eqn:Hhandle; try done. simpl.
    intros Hs'. destruct (IH _ _ Hrest Hs') as [kids' Hpath].
    exists kids'. etrans; [|exact Hpath]. by apply handle_path.
Qed.

Lemma wait_fg_path p events s s' kids :
  events_ok events kids ->
  wait_fg unix_error p events s = Ret s' ->
  exists kids', rtc step (Config s (FgSuspend p) kids) (Config s' AtPrompt kids').
Proof.
  revert s kids. induction events as [|ev events IH]; intros s kids; simpl.
  - intros _. case_decide; [done|]. intros [= <-]. exists kids.
    apply rtc_once. by apply step_wake.
  - intros [Hev Hrest]. case_decide; last first.
    { intros [= <-]. exists kids. apply rtc_once. by apply step_wake. }
    destruct (handle unix_error ev s) as [s1| | | |] eqn:Hhandle; try done. simpl.
    intros Hs'. destruct (IH _ _ Hrest Hs') as [kids' Hpath].
    exists kids'. etrans; [|exact Hpath]. by apply handle_path.
Qed.

Lemma bg_handler_path tok s s' kids :
  bg_handler unix_error tok s = Ret s' ->
  rtc step (Config s AtPrompt kids) (Config s' AtPrompt kids).
Proof.
  unfold bg_handler. destruct (argv tok !! 1%nat) as [arg|]; [|done].
  destruct (target_job (job_list s) arg) as [i|] eqn:Hfound.
  - intros Hbg. eapply rtc_l; [by eapply step_bg_lookup|].
    apply rtc_once. by apply step_bg.
  - apply unix_error_path.
Qed.

Lemma fg_handler_path tok events status s s' kids :
  events_ok events kids ->
  fg_handler unix_error tok events status s = Ret s' ->
  exists kids', rtc step (Config s AtPrompt kids) (Config s' AtPrompt kids').
Proof.
  intros Hevents. unfold fg_handler. destruct (argv tok !! 1%nat) as [arg|]; [|done].
  destruct (target_job (job_list s) arg) as [i|] eqn:Hfound; last first.
  { intros Herr. exists kids. by eapply unix_error_path. }
  destruct (fg_resume i s) as [s1| | | |] eqn:Hresume; try done. simpl.
  destruct (handle_all unix_error events s1) as [s2| | | |] eqn:Hhandle; try done. simpl.
  destruct status as [status|]; [|done]. intros Hfinish.
  destruct (handle_all_path _ _ _ (FgWaitpid i) _ Hevents Hhandle) as [kids' Hpath].
  exists kids'.
  eapply rtc_l; [by eapply step_fg_lookup|].
  eapply rtc_l; [by eapply step_fg_resume|].
  etrans; [exact Hpath|]. apply rtc_once. by eapply step_fg_wait_failed.
Qed.

Lemma run_child_ends tok o s s' : run_child unix_error tok o s <> Ret s'.
Proof.
  unfold run_child.
  destruct (match infile tok with Some _ => _ | None => _ end); try done. simpl.
  destruct (match outfile tok with Some _ => _ | None => _ end); try done. simpl.
  by destruct (execve_ok o).
Qed.

Lemma launch_path tok bg cmdline o s s' kids :
  bg = 0 \/ bg = 1 ->
  fork_ret o = -1 \/ fork_ret o = 0 \/ (0 < fork_ret o /\ fork_ret o ∉ kids) ->
  events_ok (wait_events o)
            (if decide (0 < fork_ret o) then {[fork_ret o]} ∪ kids else kids) ->
  launch unix_error tok bg cmdline o s = Ret s' ->
  exists kids', rtc step (Config s AtPrompt kids) (Config s' AtPrompt kids').
Proof.
  intros Hbg Hfork Hevents. unfold launch.
  destruct (if decide (fork_ret o < 0) then _ else _) as [s1| | | |] eqn:Herr; try done.
  simpl. assert (rtc step (Config s AtPrompt kids) (Config s1 AtPrompt kids)) as Hpath1.
  { case_decide; [by eapply unix_error_path|]. by injection Herr as <-. }
  clear Herr. destruct (decide (fork_ret o = 0)) as [Hchild|Hchild];
    [intros Hrun; by destruct (run_child_ends _ _ _ _ Hrun)|].
  assert (fork_ret o = -1 \/ 0 < fork_ret o /\ fork_ret o ∉ kids) as Hparent
    by (destruct Hfork as [?|[?|?]]; [by left|done|by right]).
  pose proof (step_launch s1 kids (fork_ret o) bg cmdline Hparent Hbg) as Hlaunch.
  destruct (decide (bg <> 0)) as [Hb|Hb].
  - destruct (handle_all unix_error (wait_events o) _) as [s2| | | |] eqn:Hhandle; try done.
    simpl. intros [= <-].
    destruct (handle_all_path _ _ _ (BgLaunched (fork_ret o) cmdline) _ Hevents Hhandle)
      as [kids' Hpath].
    exists kids'. etrans; [exact Hpath1|]. eapply rtc_l; [exact Hlaunch|].
    etrans; [exact Hpath|]. apply rtc_once. apply step_notice.
  - intros Hwait. destruct (wait_fg_path _ _ _ _ _ Hevents Hwait) as [kids' Hpath].
    exists kids'. etrans; [exact Hpath1|]. eapply rtc_l; [exact Hlaunch|]. exact Hpath.
Qed.

(** A call of eval that returns has taken the shell along a path of the
    transition system, from the prompt back to the prompt. *)
Theorem eval_path cmdline o s s' kids :
  os_ok (parseline cmdline).1.2 o kids ->
  eval unix_error cmdline o s = Ret s' ->
  exists kids', rtc step (Config s AtPrompt kids) (Config s' AtPrompt kids').
Proof.
  unfold eval, os_ok.
  destruct (parseline cmdline) as [[bg tok] msgs] eqn:Hparse. simpl.
  assert (rtc step (Config s AtPrompt kids) (Config (foldl eprintf s msgs) AtPrompt kids))
    as Hmsgs.
  { clear. revert s. induction msgs as [|msg msgs IH]; intros s; simpl; [done|].
    eapply rtc_l; [|apply IH]. by apply step_emit. }
  intros Hos. destruct (decide (bg = -1)) as [Hbg|Hbg]; [intros [= <-]; by exists kids|].
  destruct (argv tok !! 0%nat) as [arg0|]; [|intros [= <-]; by exists kids].
  destruct (builtins tok) as [[]|]; try done.
  - intros Hlaunch.
    destruct (parseline_bg _ _ _ _ Hparse) as [?|Hbg01]; [done|]. destruct Hos as [Hfork Hev].
    destruct (launch_path _ _ _ _ _ _ _ Hbg01 Hfork Hev Hlaunch) as [kids' Hpath].
    exists kids'. by etrans.
  - destruct (outfile tok) as [name|].
    + destruct (open_ok o).
      * destruct (listjobs _ _) as [fd| | | |]; try done. simpl. intros [= <-].
        exists kids. etrans; [exact Hmsgs|]. apply rtc_once. by apply step_emit.
      * intros Herr. exists kids. etrans; [exact Hmsgs|]. by eapply unix_error_path.
    + destruct (listjobs _ _) as [fd| | | |]; try done. simpl. intros [= <-].
      exists kids. etrans; [exact Hmsgs|]. apply rtc_once. by apply step_emit.
  - intros Hbgh. exists kids. etrans; [exact Hmsgs|]. by apply (bg_handler_path tok).
  - intros Hfgh. destruct (fg_handler_path _ _ _ _ _ _ Hos Hfgh) as [kids' Hpath].
    exists kids'. by etrans.
Qed.

(** So a call of eval made at the prompt of a reachable configuration leaves
    the table with its MAXJOBS slots and no job in the foreground. *)
Corollary eval_keeps_invariant cmdline o s s' kids :
  reachable (Config s AtPrompt kids) ->
  os_ok (parseline cmdline).1.2 o kids ->
  eval unix_error cmdline o s = Ret s' ->
  table_size (job_list s') /\ fg_jobs (job_list s') = [].
Proof.
  intros (c0 & Hinit & Hsteps) Hos Heval.
  destruct (eval_path _ _ _ _ _ Hos Heval) as [kids' Hpath].
  assert (reachable (Config s' AtPrompt kids')) as Hreach.
  { exists c0. split; [done|]. by etrans. }
  split.
  - apply (reachable_table_size _ Hreach).
  - by apply (at_most_one_foreground_job_at_prompt _ Hreach).
Qed.
End paths.

Lemma unix_error_exits_table code msg s s' :
  unix_error_exits code msg s = Ret s' ->
  job_list s' = job_list s /\ nextjid s' = nextjid s.
Proof. done. Qed.

(** A foreground command whose child (pid 7) exits while the shell waits. *)
Example eval_foreground_command :
  let o := OsReply true true 7 true [GotSIGCHLD [(7, 0)]] None in
  os_ok (parseline "/bin/ls").1.2 o ∅ /\
  exists s', eval (unix_error_exits 0) "/bin/ls" o shell0 = Ret s' /\
             job_list s' = job_list shell0.
Proof.
  split.
  - vm_compute. split; [right; right; split; [done|set_solver]|].
    split; [|done]. intros _. split; [set_solver|done].
  - eexists. split; [vm_compute; reflexivity|reflexivity].
Qed.

(** ** Listing the jobs *)

Lemma append_nil_r (a : string) : a +:+ EmptyString = a.
Proof.
  induction a as [|x a IH]; [done|].
  change (String x (a +:+ EmptyString) = String x a). by f_equal.
Qed.

Lemma listjobs_from_ok (k : nat) (jobs : list job_t) (text : string) :
  listjobs_from k jobs (Sink true text) =
    Ret (Sink true
           (text +:+ listing (filter (fun slot => pid slot.2 <> 0)
                                (imap (fun i j => ((k + i)%nat, j)) jobs)))).
Proof.
  revert k text. induction jobs as [|j jobs IH]; intros k text.
  - simpl. by rewrite append_nil_r.
  - rewrite imap_cons, filter_cons. cbn [listjobs_from snd].
    assert (imap ((fun i j0 => ((k + i)%nat, j0)) ∘ S) jobs
            = imap (fun i j0 => ((S k + i)%nat, j0)) jobs) as ->.
    { apply imap_ext. intros i x _. simpl. f_equal. lia. }
    rewrite Nat.add_0_r.
    destruct (decide (pid j <> 0)) as [Hlive|Hempty].
    + unfold write. cbn [sink_ok sink_text]. rewrite IH.
      cbn [listing foldr fst snd]. unfold job_line.
      by rewrite !append_assoc.
    + by rewrite IH.
Qed.

Lemma live_slots_length (jobs : list job_t) :
  length (live_slots jobs) = length (filter (fun j => pid j <> 0) jobs).
Proof.
  unfold live_slots.
  assert (forall f : nat -> nat,
    length (filter (fun slot : nat * job_t => pid slot.2 <> 0) (imap (fun i j => (f i, j)) jobs))
    = length (filter (fun j => pid j <> 0) jobs)) as H.
  { induction jobs as [|j jobs IH]; intros f; [done|].
    rewrite imap_cons, !filter_cons. simpl.
    specialize (IH (f ∘ S)). unfold compose in *.
    case_decide; simpl; by rewrite IH. }
  apply (H id).
Qed.

(** A failed write ends the process. *)
Lemma listjobs_write_fails (jobs : list job_t) (text : string) :
  listjobs jobs (Sink false text) =
    if decide (Forall (fun j => pid j = 0) jobs) then Ret (Sink false text) else Exit 1.
Proof.
  unfold listjobs. generalize 0%nat.
  induction jobs as [|j jobs IH]; intros k.
  - case_decide as Hall; [done|]. destruct Hall. constructor.
  - cbn [listjobs_from]. specialize (IH (S k)).
    destruct (decide (pid j <> 0)) as [Hlive|Hempty%dec_stable].
    + cbn [write sink_ok].
      destruct (decide (Forall _ (j :: jobs))) as [Hall|Hall]; [|done]. by inversion Hall.
    + rewrite IH.
      destruct (decide (Forall _ jobs)) as [Hall|Hall],
               (decide (Forall _ (j :: jobs))) as [Hall'|Hall']; try done.
      * destruct Hall'. by constructor.
      * by inversion Hall'.
Qed.

(** ** bg and fg with a target that is not in the table *)

Lemma parseline_ok_msgs cmdline bg tok msgs :
  parseline cmdline = (bg, tok, msgs) -> bg <> -1 -> msgs = [].
Proof.
  unfold parseline.
  destruct (parse_from _ _ _) as [tok0 msg|tok0 st]; [by intros [= <- _ _]|].
  case_decide; [by intros [= <- _ _]|].
  destruct (last (argv tok0)), (head (argv tok0)); try by intros [= _ _ <-].
  destruct (starts_with_amp _); by intros [= _ _ <-].
Qed.

Lemma target_job_None jobs arg :
  target_job jobs arg = None <->
  match arg with
  | String "%" rest => atoi rest < 1 \/ Forall (fun j => jid j <> atoi rest) jobs
  | _ => atoi arg < 1 \/ Forall (fun j => pid j <> atoi arg) jobs
  end.
Proof.
  assert (forall n, getjobjid jobs n = None <-> n < 1 \/ Forall (fun j => jid j <> n) jobs) as Hjid.
  { intros n. unfold getjobjid. case_decide.
    - split; [by left|done].
    - rewrite (scan_None (fun j => jid j = n)). split; [by right|]. by intros [?|?]. }
  assert (forall n, getjobpid jobs n = None <-> n < 1 \/ Forall (fun j => pid j <> n) jobs) as Hpid.
  { intros n. rewrite getjobpid_None. split; (intros [?|?]; [left; lia|by right]). }
  unfold target_job. destruct arg as [|c rest]; [apply Hpid|].
  destruct (Ascii.eqb_spec c "%") as [->|Hne]; [apply Hjid|].
  destruct c as [[] [] [] [] [] [] [] []]; try apply Hpid. done.
Qed.

Section target_not_found.
Variable unix_error : string -> shell -> outcome shell.
Variable code : Z.

(** [unix_error] ends the process: [sigquit_handler] is built on that, and
    the design document has the child "exit" on the failure it reports. *)
Hypothesis unix_error_ends : forall msg s, unix_error msg s = Exit code.

(** A bg or fg command whose argument, %jid or pid, is found in no slot of
    the job table: the call of [unix_error] ends the shell, and the [return]
    that follows it in both handlers is not reached. *)
Lemma target_not_found_exits (tok : cmdline_tokens) (arg : string) (s : shell) :
  argv tok !! 1%nat = Some arg ->
  target_job (job_list s) arg = None ->
  bg_handler unix_error tok s = Exit code /\
  (forall events status, fg_handler unix_error tok events status s = Exit code) /\
  (forall cmdline bg msgs o,
     parseline cmdline = (bg, tok, msgs) -> bg <> -1 ->
     builtins tok = Some BUILTIN_BG \/ builtins tok = Some BUILTIN_FG ->
     eval unix_error cmdline o s = Exit code).
Proof.
  intros Harg Hnone.
  assert (bg_handler unix_error tok s = Exit code) as Hbg.
  { unfold bg_handler. by rewrite Harg, Hnone. }
  assert (forall events status, fg_handler unix_error tok events status s = Exit code) as Hfg.
  { intros events status. unfold fg_handler. by rewrite Harg, Hnone. }
  split_and!; [done..|].
  intros cmdline bg msgs o Hparse Hbgok Hbuiltin.
  unfold eval. rewrite Hparse.
  rewrite (parseline_ok_msgs _ _ _ _ Hparse Hbgok). cbn [foldl].
  rewrite decide_False by done.
  destruct (argv tok) as [|arg0 [|arg1 args]] eqn:Hargv; [done..|].
  cbn [lookup list_lookup].
  destruct Hbuiltin as [-> | ->]; [apply Hbg|apply Hfg].
Qed.
End target_not_found.

(** C1.  The claim fails on the code: with the table empty, the lines
    [bg %5], [bg 5], [fg %5] and [fg 5] name no job; each handler calls
    [unix_error], which ends the process, so that eval does not return and
    the read/eval loop does not go on with the next line, whatever the exit
    status [unix_error] uses and whatever input follows. *)
Theorem target_not_found_ends_shell (code : Z) (o : os_reply)
    (input : list (list sig_event * string * os_reply)) :
  eval (unix_error_exits code) "bg %5" o shell0 = Exit code /\
  eval (unix_error_exits code) "bg 5" o shell0 = Exit code /\
  eval (unix_error_exits code) "fg %5" o shell0 = Exit code /\
  eval (unix_error_exits code) "fg 5" o shell0 = Exit code /\
  run (unix_error_exits code) true (([], "bg %5", o) :: input) shell0 = Exit code /\
  sigquit_handler (unix_error_exits code) shell0 = Exit code.
Proof. by split_and!. Qed.

(** * Further properties of the code *)

(** ** More on the job table *)

(** A slot update between two jobs that a scan does not stop at leaves the
    result of the scan as it was. *)
Lemma list_find_insert_other (P : job_t -> Prop) `{!forall j, Decision (P j)}
    (jobs : list job_t) (i : nat) (j0 j1 : job_t) :
  jobs !! i = Some j0 -> ~ P j0 -> ~ P j1 ->
  list_find P (<[i := j1]> jobs) = list_find P jobs.
Proof.
  revert i. induction jobs as [|j jobs IH]; intros [|i] Hi H0 H1; try done.
  - injection Hi as ->. simpl. by rewrite !decide_False.
  - simpl in *. case_decide; [done|]. by rewrite (IH i).
Qed.

Lemma maxjid_foldl_spec (jobs : list job_t) (m : Z) :
  let r := foldl (fun max j => if decide (jid j > max) then jid j else max) m jobs in
  Forall (fun j => jid j <= r) jobs /\ (r = m \/ exists j, j ∈ jobs /\ jid j = r).
Proof.
  revert m. induction jobs as [|j jobs IH]; intros m; simpl; [by split; [constructor|left]|].
  destruct (IH (if decide (jid j > m) then jid j else m)) as [Hle Hwho]. split.
  - constructor; [|done].
    etrans; [|apply maxjid_foldl_ge]. case_decide; lia.
  - destruct Hwho as [->|(j' & Hin & Hj')].
    + case_decide; [|by left]. right. exists j. split; [left|done].
    + right. exists j'. split; [by right|done].
Qed.

(** X1. [maxjid] returns a bound of the job ids in the table, and one that is
    reached: it is 0, or the job id of some slot. *)
Theorem maxjid_spec (jobs : list job_t) :
  Forall (fun j => jid j <= maxjid jobs) jobs /\
  (maxjid jobs = 0 \/ exists j, j ∈ jobs /\ jid j = maxjid jobs).
Proof. apply (maxjid_foldl_spec jobs 0). Qed.

Lemma initjobs_lookup (jobs : list job_t) (i : nat) (j : job_t) :
  initjobs jobs !! i = Some j -> j = Job 0 0 UNDEF EmptyString.
Proof.
  unfold initjobs. rewrite list_lookup_fmap.
  destruct (jobs !! i); [|done]. by intros [= <-].
Qed.

Lemma list_find_initjobs (P : job_t -> Prop) `{!forall j, Decision (P j)}
    (jobs : list job_t) :
  ~ P (Job 0 0 UNDEF EmptyString) -> list_find P (initjobs jobs) = None.
Proof.
  intros HP. apply list_find_None, Forall_lookup. intros i j Hj.
  by rewrite (initjobs_lookup _ _ _ Hj).
Qed.

(** X2. After [initjobs] the table has its slots and no job: no foreground
    process, largest job id 0, every lookup by process id or by job id fails,
    and [listjobs] writes nothing. *)
Theorem initjobs_empty (jobs : list job_t) (p n : Z) (fd : sink) :
  length (initjobs jobs) = length jobs /\
  fgpid (initjobs jobs) = 0 /\
  maxjid (initjobs jobs) = 0 /\
  getjobpid (initjobs jobs) p = None /\
  getjobjid (initjobs jobs) n = None /\
  pid2jid (initjobs jobs) p = 0 /\
  listjobs (initjobs jobs) fd = Ret fd.
Proof.
  split_and!.
  - apply length_fmap.
  - unfold fgpid. by rewrite list_find_initjobs.
  - unfold maxjid.
    destruct (maxjid_foldl_spec (initjobs jobs) 0) as [_ [?|(j & Hin & Hj)]]; [done|].
    apply list_elem_of_lookup in Hin as [i Hi].
    rewrite <- Hj. by rewrite (initjobs_lookup _ _ _ Hi).
  - unfold getjobpid, scan. case_decide; [done|].
    rewrite list_find_initjobs; [done|]. simpl. lia.
  - unfold getjobjid, scan. case_decide; [done|].
    rewrite list_find_initjobs; [done|]. simpl. lia.
  - unfold pid2jid. case_decide; [done|].
    rewrite list_find_initjobs; [done|]. simpl. lia.
  - unfold listjobs, initjobs. generalize 0%nat.
    induction jobs as [|j jobs IH]; intros k; simpl; [done|]. apply IH.
Qed.

Lemma addjob_added s p st cmd :
  (addjob s p st cmd).1 = 1 ->
  1 <= p /\ exists i j0,
    scan (fun j => pid j = 0) (job_list s) = Some i /\
    job_list s !! i = Some j0 /\ pid j0 = 0 /\
    job_list (addjob s p st cmd).2 = <[i := Job p (nextjid s) st cmd]> (job_list s).
Proof.
  intros Hret. destruct (decide (p < 1)) as [Hp|Hp].
  { by rewrite addjob_rejects_pid in Hret. }
  split; [lia|].
  destruct (scan (fun j => pid j = 0) (job_list s)) as [i|] eqn:Hscan.
  - destruct (addjob_first_empty s p st cmd i ltac:(lia) Hscan) as (_ & Hjobs & _).
    apply (scan_Some (fun j => pid j = 0)) in Hscan as (j0 & Hj0 & Hfree & _).
    by exists i, j0.
  - apply (scan_None (fun j => pid j = 0)) in Hscan.
    by rewrite addjob_full in Hret by (done || lia).
Qed.

(** The slot [addjob] has filled is the one [getjobpid] finds. *)
Lemma addjob_getjobpid (s : shell) (p st : Z) (cmd : string) (i : nat) :
  1 <= p -> scan (fun j => pid j = 0) (job_list s) = Some i ->
  Forall (fun j => pid j <> p) (job_list s) ->
  getjobpid (<[i := Job p (nextjid s) st cmd]> (job_list s)) p = Some i.
Proof.
  intros Hp Hscan Hnew. apply scan_lt in Hscan.
  apply getjobpid_Some. split; [lia|]. eexists. split_and!.
  - by apply list_lookup_insert_eq.
  - done.
  - intros k jk Hk Hlt. rewrite list_lookup_insert_ne in Hk by lia.
    rewrite Forall_lookup in Hnew. by eapply Hnew.
Qed.

Lemma addjob_pid2jid (s : shell) (p st : Z) (cmd : string) :
  (addjob s p st cmd).1 = 1 ->
  Forall (fun j => pid j <> p) (job_list s) ->
  pid2jid (job_list (addjob s p st cmd).2) p = nextjid s.
Proof.
  intros (Hp & i & j0 & Hscan & Hj0 & _ & Hjobs)%addjob_added Hnew. rewrite Hjobs.
  pose proof (addjob_getjobpid s p st cmd i Hp Hscan Hnew) as Hget.
  destruct (pid2jid_found _ _ _ (Job p (nextjid s) st cmd) Hget) as [-> _]; [|done].
  apply list_lookup_insert_eq. by eapply lookup_lt_Some.
Qed.

(** X3. A job that [addjob] has stored is found again: when [addjob] returns
    1 for a process id that no slot held before, [getjobpid] gives the slot
    with the process id, the job id taken from [nextjid], the state and the
    command line that were passed, and [pid2jid] gives that job id. *)
Theorem addjob_lookup (s : shell) (p st : Z) (cmd : string) :
  (addjob s p st cmd).1 = 1 ->
  Forall (fun j => pid j <> p) (job_list s) ->
  exists i,
    getjobpid (job_list (addjob s p st cmd).2) p = Some i /\
    job_list (addjob s p st cmd).2 !! i = Some (Job p (nextjid s) st cmd) /\
    pid2jid (job_list (addjob s p st cmd).2) p = nextjid s.
Proof.
  intros Hadded Hnew.
  destruct (addjob_added _ _ _ _ Hadded) as (Hp & i & j0 & Hscan & Hj0 & _ & Hjobs).
  exists i. split_and!.
  - rewrite Hjobs. by apply addjob_getjobpid.
  - rewrite Hjobs. apply list_lookup_insert_eq. by eapply lookup_lt_Some.
  - by apply addjob_pid2jid.
Qed.

Lemma addjob_lookup_witness :
  let s := Shell [Job 7 1 BG "a"; Job 0 0 UNDEF EmptyString] 2 false EmptyString [] [] [] in
  exists i,
    getjobpid (job_list (addjob s 9 FG "b").2) 9 = Some i /\
    job_list (addjob s 9 FG "b").2 !! i = Some (Job 9 2 FG "b") /\
    pid2jid (job_list (addjob s 9 FG "b").2) 9 = 2.
Proof.
  intros s. apply (addjob_lookup s 9 FG "b").
  - reflexivity.
  - repeat constructor; discriminate.
Defined.

Lemma addjob_live_slots s p st cmd i j :
  job_list s !! i = Some j -> pid j <> 0 ->
  job_list (addjob s p st cmd).2 !! i = Some j.
Proof.
  intros Hi Hlive.
  destruct (addjob_jobs s p st cmd) as [->|(Hp & k & Hscan & ->)]; [done|].
  apply (scan_Some (fun j => pid j = 0)) in Hscan as (j0 & Hj0 & Hfree & _).
  rewrite list_lookup_insert_ne; [done|]. congruence.
Qed.

(** X4. [addjob] touches one empty slot at most: the table keeps its length,
    every slot in use stays as it is, and the lookups of every other process
    id give what they gave before. *)
Theorem addjob_frame (s : shell) (p st : Z) (cmd : string) (q : Z) :
  q <> p ->
  length (job_list (addjob s p st cmd).2) = length (job_list s) /\
  (forall i j, job_list s !! i = Some j -> pid j <> 0 ->
     job_list (addjob s p st cmd).2 !! i = Some j) /\
  getjobpid (job_list (addjob s p st cmd).2) q = getjobpid (job_list s) q /\
  pid2jid (job_list (addjob s p st cmd).2) q = pid2jid (job_list s) q.
Proof.
  intros Hq. split; [|split; [apply addjob_live_slots|]];
    destruct (addjob_jobs s p st cmd) as [->|(Hp & k & Hscan & ->)]; try done.
  { apply length_insert. }
  apply (scan_Some (fun j => pid j = 0)) in Hscan as (j0 & Hj0 & Hfree & _).
  split.
  - unfold getjobpid, scan. case_decide; [done|].
    rewrite (list_find_insert_other (fun j => pid j = q) _ k j0); [done..|lia|done].
  - unfold pid2jid. case_decide; [done|].
    rewrite (list_find_insert_other (fun j => pid j = q) _ k j0); [done..|lia|done].
Qed.

Lemma addjob_frame_witness :
  let s := Shell [Job 7 1 BG "a"; Job 0 0 UNDEF EmptyString] 2 false EmptyString [] [] [] in
  length (job_list (addjob s 9 FG "b").2) = 2%nat /\
  (forall i j, job_list s !! i = Some j -> pid j <> 0 ->
     job_list (addjob s 9 FG "b").2 !! i = Some j) /\
  getjobpid (job_list (addjob s 9 FG "b").2) 7 = Some 0%nat /\
  pid2jid (job_list (addjob s 9 FG "b").2) 7 = 1.
Proof. intros s. apply (addjob_frame s 9 FG "b" 7). lia. Defined.

Lemma deletejob_jobs s p :
  (deletejob s p = (0, s) /\
   (p < 1 \/ Forall (fun j => pid j <> p) (job_list s))) \/
  (1 <= p /\ exists i j0,
     job_list s !! i = Some j0 /\ pid j0 = p /\
     (forall k jk, job_list s !! k = Some jk -> (k < i)%nat -> pid jk <> p) /\
     deletejob s p =
       (1, set_nextjid (set_jobs s (<[i := Job 0 0 UNDEF EmptyString]> (job_list s)))
             (int_add (maxjid (<[i := Job 0 0 UNDEF EmptyString]> (job_list s))) 1))).
Proof.
  unfold deletejob. case_decide as Hp; [left; split; [done|by left]|].
  destruct (scan _ _) as [i|] eqn:Hscan.
  - right. split; [lia|].
    apply (scan_Some (fun j => pid j = p)) in Hscan as (j0 & Hj0 & Hpid & Hfirst).
    exists i, j0. split_and!; [done..|]. by rewrite alter_clearjob.
  - left. split; [done|]. right. by apply (scan_None (fun j => pid j = p)).
Qed.

(** What [deletejob] keeps: the length of the table, every slot with another
    process id, and what the process has emitted. *)
Lemma deletejob_keeps (s : shell) (p : Z) :
  length (job_list (deletejob s p).2) = length (job_list s) /\
  (forall i j, job_list s !! i = Some j -> pid j <> p ->
     job_list (deletejob s p).2 !! i = Some j) /\
  out (deletejob s p).2 = out s /\ err (deletejob s p).2 = err s /\
  signals (deletejob s p).2 = signals s /\ files (deletejob s p).2 = files s.
Proof.
  destruct (deletejob_jobs s p) as [[-> _]|(Hp & k & j0 & Hj0 & Hpid & _ & ->)]; [done|].
  cbn [snd set_nextjid set_jobs job_list out err signals files].
  split_and!; [|..|done|done|done|done].
  - apply length_insert.
  - intros i j Hi Hother. rewrite list_lookup_insert_ne; [done|]. congruence.
Qed.

(** X5. [deletejob] touches the first slot that holds the process id and no
    other: the table keeps its length, every slot with another process id
    stays as it is, the lookups of every other process id give what they gave
    before, and nothing is written or signalled. *)
Theorem deletejob_frame (s : shell) (p q : Z) :
  q <> p ->
  length (job_list (deletejob s p).2) = length (job_list s) /\
  (forall i j, job_list s !! i = Some j -> pid j <> p ->
     job_list (deletejob s p).2 !! i = Some j) /\
  getjobpid (job_list (deletejob s p).2) q = getjobpid (job_list s) q /\
  pid2jid (job_list (deletejob s p).2) q = pid2jid (job_list s) q /\
  out (deletejob s p).2 = out s /\ err (deletejob s p).2 = err s /\
  signals (deletejob s p).2 = signals s.
Proof.
  intros Hq. destruct (deletejob_keeps s p) as (Hlen & Hslots & Hout & Herr & Hsig & _).
  split_and!; [done|done| | |done|done|done];
    destruct (deletejob_jobs s p) as [[-> _]|(Hp & k & j0 & Hj0 & Hpid & _ & ->)];
    try done; cbn [snd set_nextjid set_jobs job_list].
  - unfold getjobpid, scan. case_decide; [done|].
    rewrite (list_find_insert_other (fun j => pid j = q) _ k j0); [done..|lia|simpl; lia].
  - unfold pid2jid. case_decide; [done|].
    rewrite (list_find_insert_other (fun j => pid j = q) _ k j0); [done..|lia|simpl; lia].
Qed.

Lemma deletejob_frame_witness :
  let s := Shell [Job 7 1 BG "a"; Job 9 2 ST "b"] 3 false EmptyString [] [] [] in
  length (job_list (deletejob s 7).2) = 2%nat /\
  (forall i j, job_list s !! i = Some j -> pid j <> 7 ->
     job_list (deletejob s 7).2 !! i = Some j) /\
  getjobpid (job_list (deletejob s 7).2) 9 = Some 1%nat /\
  pid2jid (job_list (deletejob s 7).2) 9 = 2 /\
  out (deletejob s 7).2 = EmptyString /\ err (deletejob s 7).2 = [] /\
  signals (deletejob s 7).2 = [].
Proof. intros s. apply (deletejob_frame s 7 9). lia. Defined.

(** X6. Deleting a job right after adding it gives the table back: when
    [addjob] returns 1 for a process id that no slot held, and the empty
    slots are cleared ones, [deletejob] of that process id returns 1 and the
    slots are as before the addition; [nextjid] is then [maxjid + 1] of that
    table. *)
Theorem addjob_deletejob (s : shell) (p st : Z) (cmd : string) :
  (addjob s p st cmd).1 = 1 ->
  Forall (fun j => pid j <> p) (job_list s) ->
  Forall (fun j => pid j = 0 -> j = Job 0 0 UNDEF EmptyString) (job_list s) ->
  (deletejob (addjob s p st cmd).2 p).1 = 1 /\
  job_list (deletejob (addjob s p st cmd).2 p).2 = job_list s /\
  nextjid (deletejob (addjob s p st cmd).2 p).2 = int_add (maxjid (job_list s)) 1.
Proof.
  intros (Hp & i & j0 & _ & Hj0 & Hfree & Hjobs)%addjob_added Hnew Hclear.
  rewrite Forall_lookup in Hnew. rewrite Forall_lookup in Hclear.
  pose proof (Hclear i j0 Hj0 Hfree) as ->.
  assert (<[i := Job 0 0 UNDEF EmptyString]> (<[i := Job p (nextjid s) st cmd]> (job_list s))
          = job_list s) as Hback.
  { rewrite list_insert_insert_eq. by apply list_insert_id. }
  destruct (deletejob_jobs (addjob s p st cmd).2 p)
    as [[_ [?|Habsent]]|(_ & k & jk & Hk & Hpid & Hfirst & ->)].
  - lia.
  - rewrite Hjobs, Forall_lookup in Habsent.
    destruct (Habsent i (Job p (nextjid s) st cmd)); [|done].
    apply list_lookup_insert_eq. by eapply lookup_lt_Some.
  - rewrite Hjobs in Hk, Hfirst |- *.
    assert (k = i) as ->.
    { destruct (decide (k = i)) as [|Hne]; [done|].
      rewrite list_lookup_insert_ne in Hk by done. by destruct (Hnew k jk Hk). }
    cbn [fst snd set_nextjid set_jobs job_list nextjid]. by rewrite Hback.
Qed.

Lemma addjob_deletejob_witness :
  let s := Shell [Job 7 1 BG "a"; Job 0 0 UNDEF EmptyString] 2 false EmptyString [] [] [] in
  (deletejob (addjob s 9 FG "b").2 9).1 = 1 /\
  job_list (deletejob (addjob s 9 FG "b").2 9).2 = job_list s /\
  nextjid (deletejob (addjob s 9 FG "b").2 9).2 = 2.
Proof.
  intros s. apply (addjob_deletejob s 9 FG "b").
  - reflexivity.
  - repeat constructor; discriminate.
  - repeat constructor; discriminate.
Defined.

(** X7. After a deletion [nextjid] is above every job id in the table, so
    that the job added next gets a job id that no job has: stated for job ids
    below INT_MAX, where [maxjid(job_list) + 1] does not overflow. *)
Theorem deletejob_fresh_jid (s : shell) (p : Z) :
  (deletejob s p).1 = 1 ->
  Forall (fun j => jid j < INT_MAX) (job_list s) ->
  Forall (fun j => jid j < nextjid (deletejob s p).2) (job_list (deletejob s p).2).
Proof.
  intros Hret Hsmall.
  destruct (deletejob_jobs s p) as [[Hno _]|(_ & i & j0 & Hj0 & _ & _ & Hdel)].
  { by rewrite Hno in Hret. }
  rewrite Hdel. cbn [snd set_nextjid set_jobs job_list nextjid].
  set (jobs' := <[i := Job 0 0 UNDEF EmptyString]> (job_list s)).
  destruct (maxjid_foldl_spec jobs' 0) as [Hle Hwho]. fold (maxjid jobs') in Hle, Hwho.
  assert (maxjid jobs' < INT_MAX) as Hmax.
  { destruct Hwho as [->|(j & Hin & <-)]; [by vm_compute|].
    apply list_elem_of_lookup in Hin as [k Hk]. unfold jobs' in Hk.
    destruct (decide (k = i)) as [->|Hne].
    - rewrite list_lookup_insert_eq in Hk by (by eapply lookup_lt_Some).
      injection Hk as <-. by vm_compute.
    - rewrite list_lookup_insert_ne in Hk by done.
      rewrite Forall_lookup in Hsmall. by eapply Hsmall. }
  rewrite int_add_id.
  - eapply Forall_impl; [exact Hle|]. intros j Hj. simpl in Hj. lia.
  - pose proof (maxjid_nonneg jobs'). unfold in_int, INT_MIN, INT_MAX in *. lia.
Qed.

Lemma deletejob_fresh_jid_witness :
  let s := Shell [Job 7 1 BG "a"; Job 9 2 ST "b"] 1 false EmptyString [] [] [] in
  Forall (fun j => jid j < nextjid (deletejob s 7).2) (job_list (deletejob s 7).2).
Proof.
  intros s. apply (deletejob_fresh_jid s 7).
  - reflexivity.
  - repeat constructor.
Defined.

(** X8. Job ids can repeat.  When [nextjid] has reached MAXJOBS, the next
    [addjob] sets it back to 1 whatever the table holds; if a job with job id
    1 is still there, the job added after that gets job id 1 as well. *)
Theorem addjob_repeats_jid (s : shell) (p q st st' : Z) (cmd cmd' : string)
    (k : nat) (j1 : job_t) :
  nextjid s = MAXJOBS ->
  job_list s !! k = Some j1 -> pid j1 <> 0 -> jid j1 = 1 ->
  (addjob s p st cmd).1 = 1 ->
  (addjob (addjob s p st cmd).2 q st' cmd').1 = 1 ->
  exists i,
    i <> k /\
    job_list (addjob (addjob s p st cmd).2 q st' cmd').2 !! k = Some j1 /\
    job_list (addjob (addjob s p st cmd).2 q st' cmd').2 !! i = Some (Job q 1 st' cmd').
Proof.
  intros Hnext Hk Hlive Hjid Hadd1 Hadd2.
  set (s1 := (addjob s p st cmd).2) in *.
  assert (job_list s1 !! k = Some j1 /\ nextjid s1 = 1) as [Hk1 Hnext1].
  { destruct (addjob_added _ _ _ _ Hadd1) as (Hp & i & j0 & Hscan & _ & _ & _).
    destruct (addjob_first_empty s p st cmd i Hp Hscan) as (_ & _ & Hn).
    split.
    - by apply addjob_live_slots.
    - unfold s1. rewrite Hn, Hnext. by vm_compute. }
  destruct (addjob_added _ _ _ _ Hadd2) as (Hq & i & j0 & _ & Hj0 & Hfree & Hjobs).
  exists i. split_and!.
  - congruence.
  - by apply addjob_live_slots.
  - rewrite Hjobs, Hnext1. apply list_lookup_insert_eq. by eapply lookup_lt_Some.
Qed.

(** The table after fifteen background jobs have been added to the empty
    table and thirteen of them, the second to the fourteenth, deleted. *)
Lemma addjob_repeats_jid_witness :
  let launched := foldl (fun s p => (addjob s p BG "a &").2) shell0 (seqZ 101 15) in
  let s := foldl (fun s p => (deletejob s p).2) launched (seqZ 102 13) in
  exists i,
    i <> 0%nat /\
    job_list (addjob (addjob s 200 BG "b &").2 201 BG "c &").2 !! 0%nat
      = Some (Job 101 1 BG "a &") /\
    job_list (addjob (addjob s 200 BG "b &").2 201 BG "c &").2 !! i
      = Some (Job 201 1 BG "c &").
Proof.
  intros launched s.
  apply (addjob_repeats_jid s 200 201 BG BG "b &" "c &" 0%nat (Job 101 1 BG "a &")).
  - by vm_compute.
  - by vm_compute.
  - simpl. lia.
  - reflexivity.
  - by vm_compute.
  - by vm_compute.
Defined.

(** ** The keyboard signals and the foreground wait *)

(** What [fgpid] returns: 0, or the process id of a job in the foreground
    that no slot in the FG state precedes. *)
Lemma fgpid_cases (jobs : list job_t) :
  fgpid jobs = 0 \/
  exists i j, jobs !! i = Some j /\ fg_job j /\ fgpid jobs = pid j /\
    forall k jk, jobs !! k = Some jk -> (k < i)%nat -> state jk <> FG.
Proof.
  unfold fgpid. destruct (list_find _ jobs) as [[i j]|] eqn:Hfind; [|by left].
  apply list_find_Some in Hfind as (Hj & Hst & Hfirst).
  destruct (decide (pid j = 0)) as [|Hlive]; [by left|].
  right. exists i, j. split_and!; [done|by split|done|].
  intros k jk Hk Hlt. by eapply Hfirst.
Qed.

Section keyboard_signals.
Variable unix_error : string -> shell -> outcome shell.

(** X9. At the prompt a keyboard signal is sent on to nobody: in every
    configuration the shell reaches with its main line between two commands,
    [sigint_handler] and [sigtstp_handler] return without a call of [kill]
    and leave the state as it is. *)
Theorem keyboard_signal_at_prompt (c : config) (kill_ok : bool) :
  reachable c -> place c = AtPrompt ->
  sigint_handler unix_error kill_ok (proc c) = Ret (proc c) /\
  sigtstp_handler unix_error kill_ok (proc c) = Ret (proc c).
Proof.
  intros (_ & _ & Hmode)%inv_reachable Hplace. rewrite Hplace in Hmode. simpl in Hmode.
  assert (fgpid (job_list (proc c)) = 0) as Hfg.
  { destruct (fgpid_cases (job_list (proc c))) as [|(i & j & Hj & Hfgj & _)]; [done|].
    by destruct (Hmode i j). }
  unfold sigint_handler, sigtstp_handler, forward_signal.
  rewrite Hfg. by rewrite decide_False by (intros H; by apply H).
Qed.

(** X10. While eval waits for a foreground job, a keyboard signal goes to
    that job or to nobody: in every configuration reached with the main line
    in the loop [while (pid == fgpid(job_list))], the handler either returns
    at once, or sends the one signal to the process group of [pid]. *)
Theorem keyboard_signal_target (c : config) (p sig : Z) :
  reachable c -> place c = FgSuspend p ->
  forward_signal unix_error sig true (proc c) = Ret (proc c) \/
  (0 < p /\ fgpid (job_list (proc c)) = p /\
   forward_signal unix_error sig true (proc c) = Ret (kill (proc c) (int_neg p) sig)).
Proof.
  intros ([Hpos _] & _ & Hmode)%inv_reachable Hplace. rewrite Hplace in Hmode. simpl in Hmode.
  unfold forward_signal.
  destruct (fgpid_cases (job_list (proc c))) as [->|(i & j & Hj & Hfgj & Hfg & _)].
  - left. by rewrite decide_False by (intros H; by apply H).
  - right. destruct (Hmode i j Hj Hfgj) as [Hp _]. destruct Hfgj as [Hlive _].
    pose proof (Hpos i j Hj). rewrite Hfg, Hp.
    split_and!; [lia|done|]. by rewrite decide_True by lia.
Qed.

(** X11. The foreground wait ends only when the job has left the
    foreground: when the loop [while (pid == fgpid(job_list))] is left,
    [fgpid] is not [pid]; and when no further signal arrives while it still
    is, the shell stays blocked. *)
Theorem wait_fg_returns (p : Z) (events : list sig_event) (s s' : shell) :
  (wait_fg unix_error p events s = Ret s' -> fgpid (job_list s') <> p) /\
  (fgpid (job_list s) <> p -> wait_fg unix_error p events s = Ret s) /\
  (fgpid (job_list s) = p -> wait_fg unix_error p [] s = Blocked s).
Proof.
  split_and!.
  - revert s. induction events as [|ev events IH]; intros s; simpl.
    + case_decide; [done|]. by intros [= <-].
    + case_decide; [|by intros [= <-]].
      destruct (handle unix_error ev s) as [s1| | | |]; try done. apply IH.
  - intros Hfg. destruct events; simpl; by rewrite decide_False.
  - intros Hfg. simpl. by rewrite decide_True.
Qed.
End keyboard_signals.

Lemma keyboard_signal_at_prompt_witness :
  sigint_handler (unix_error_exits 0) false shell0 = Ret shell0 /\
  sigtstp_handler (unix_error_exits 0) false shell0 = Ret shell0.
Proof.
  apply (keyboard_signal_at_prompt (unix_error_exits 0) (Config shell0 AtPrompt ∅) false).
  - exists (Config shell0 AtPrompt ∅). split; [|done].
    split_and!; [|done..]. by exists (job_list shell0).
  - reflexivity.
Defined.

Lemma keyboard_signal_target_witness :
  let s := (addjob shell0 100 (int_add 0 1) "ls").2 in
  forward_signal (unix_error_exits 0) SIGINT true s = Ret s \/
  (0 < 100 /\ fgpid (job_list s) = 100 /\
   forward_signal (unix_error_exits 0) SIGINT true s = Ret (kill s (int_neg 100) SIGINT)).
Proof.
  intros s.
  apply (keyboard_signal_target (unix_error_exits 0)
           (Config s (FgSuspend 100) ({[100]} ∪ ∅)) 100 SIGINT).
  - apply launch_foreground_reachable.
  - reflexivity.
Defined.

Lemma wait_fg_returns_witness :
  let s := (addjob shell0 100 FG "ls").2 in
  fgpid (job_list (deletejob s 100).2) <> 100 /\
  wait_fg (unix_error_exits 0) 7 [GotSIGINT true] s = Ret s /\
  wait_fg (unix_error_exits 0) 100 [] s = Blocked s.
Proof.
  intros s.
  pose proof (wait_fg_returns (unix_error_exits 0) 100 [GotSIGCHLD [(100, 0)]] s
                (deletejob s 100).2) as (Hret & _ & Hblocked).
  pose proof (wait_fg_returns (unix_error_exits 0) 7 [GotSIGINT true] s s) as (_ & Hnot & _).
  split_and!.
  - apply Hret. reflexivity.
  - apply Hnot. by vm_compute.
  - apply Hblocked. reflexivity.
Defined.

(** ** The built-in commands *)

Lemma getjobjid_Some jobs n i :
  getjobjid jobs n = Some i <->
  0 < n /\ exists j, jobs !! i = Some j /\ jid j = n /\
    forall k jk, jobs !! k = Some jk -> (k < i)%nat -> jid jk <> n.
Proof.
  unfold getjobjid. case_decide.
  - split; [done|]. intros [? _]. lia.
  - rewrite (scan_Some (fun j => jid j = n)). split; [intros; split; [lia|done]|by intros [_ ?]].
Qed.

(** The job [target_job] gives is the first slot whose job id, for an
    argument that begins with a percent sign, or else whose process id, is
    the number [atoi] reads. *)
Lemma target_job_Some jobs arg i :
  target_job jobs arg = Some i ->
  exists job, jobs !! i = Some job /\
    match arg with
    | String "%" rest => 0 < atoi rest /\ jid job = atoi rest
    | _ => 0 < atoi arg /\ pid job = atoi arg
    end.
Proof.
  assert (forall n, getjobjid jobs n = Some i ->
            exists job, jobs !! i = Some job /\ 0 < n /\ jid job = n) as Hjid.
  { intros n (Hn & j & Hj & Hjn & _)%getjobjid_Some. by exists j. }
  assert (forall n, getjobpid jobs n = Some i ->
            exists job, jobs !! i = Some job /\ 0 < n /\ pid job = n) as Hpid.
  { intros n (Hn & j & Hj & Hjn & _)%getjobpid_Some. by exists j. }
  unfold target_job. destruct arg as [|c rest]; [apply Hpid|].
  destruct (Ascii.eqb_spec c "%") as [->|Hne]; [apply Hjid|].
  destruct c as [[] [] [] [] [] [] [] []]; try apply Hpid. done.
Qed.

(** eval once the line is parsed: the dispatch on [tok.builtins]. *)
Lemma eval_dispatch unix_error cmdline bg tok msgs b o s :
  parseline cmdline = (bg, tok, msgs) -> bg <> -1 -> argv tok <> [] ->
  builtins tok = Some b ->
  eval unix_error cmdline o s =
    match b with
    | BUILTIN_QUIT => Exit 0
    | BUILTIN_JOBS =>
        match outfile tok with
        | Some name =>
            if open_ok o then
              bind (listjobs (job_list s) (Sink (write_ok o) EmptyString))
                   (fun fd => Ret (add_file s name (sink_text fd)))
            else unix_error "error opening file" s
        | None =>
            bind (listjobs (job_list s) (Sink (write_ok o) (out s)))
                 (fun fd => Ret (set_out s (sink_text fd)))
        end
    | BUILTIN_BG => bg_handler unix_error tok s
    | BUILTIN_FG => fg_handler unix_error tok (wait_events o) (wait_status o) s
    | BUILTIN_NONE => launch unix_error tok bg cmdline o s
    end.
Proof.
  intros Hparse Hbg Hargv Hb. unfold eval. rewrite Hparse.
  rewrite (parseline_ok_msgs _ _ _ _ Hparse Hbg). cbn [foldl].
  rewrite decide_False by done.
  destruct (argv tok) as [|arg0 args] eqn:Hargs; [done|].
  cbn [lookup list_lookup]. by rewrite Hb.
Qed.

Section builtins.
Variable unix_error : string -> shell -> outcome shell.

(** X12. bg on a job that is found, whatever its state: the job's state
    becomes BG, one SIGCONT is sent to its process group, the line
    [[jid] (pid) cmdline] is printed, and the handler returns; no other slot
    and no other part of the state changes. *)
Theorem bg_handler_found (tok : cmdline_tokens) (arg : string) (i : nat) (s : shell) :
  argv tok !! 1%nat = Some arg ->
  target_job (job_list s) arg = Some i ->
  exists job s',
    job_list s !! i = Some job /\
    bg_handler unix_error tok s = Ret s' /\
    job_list s' = <[i := Job (pid job) (jid job) BG (cmdline job)]> (job_list s) /\
    signals s' = signals s ++ [(int_neg (pid job), SIGCONT)] /\
    out s' = out s +:+ job_notice (jid job) (pid job) (cmdline job) /\
    err s' = err s /\ nextjid s' = nextjid s.
Proof.
  intros Harg Hfound. destruct (target_job_Some _ _ _ Hfound) as (job & Hjob & _).
  exists job. eexists. split; [done|].
  unfold bg_handler, bg_found. rewrite Harg, Hfound.
  cbn [set_jobs job_list]. rewrite (alter_at _ _ _ _ Hjob).
  rewrite list_lookup_insert_eq by (by eapply lookup_lt_Some).
  split; [reflexivity|]. done.
Qed.

(** X13. fg on a job that is found, in a table whose process ids are
    distinct, when no handler runs while [waitpid] blocks: one SIGCONT is
    sent to the job's process group and nothing is printed; if the status
    [waitpid] stores is a stop, the job ends in state ST, otherwise its slot
    is cleared. *)
Theorem fg_handler_found (tok : cmdline_tokens) (arg : string) (i : nat) (job : job_t)
    (status : Z) (s : shell) :
  argv tok !! 1%nat = Some arg ->
  target_job (job_list s) arg = Some i ->
  job_list s !! i = Some job ->
  table_ok (job_list s) -> pid job <> 0 ->
  exists s',
    fg_handler unix_error tok [] (Some status) s = Ret s' /\
    job_list s' =
      <[i := if WIFSTOPPED status then Job (pid job) (jid job) ST (cmdline job)
             else Job 0 0 UNDEF EmptyString]> (job_list s) /\
    signals s' = signals s ++ [(int_neg (pid job), SIGCONT)] /\
    out s' = out s /\ err s' = err s.
Proof.
  intros Harg Hfound Hjob [Hpos Huniq] Hlive.
  unfold fg_handler, fg_resume, fg_finish. rewrite Harg, Hfound, Hjob.
  cbn [bind handle_all set_jobs kill job_list].
  rewrite (alter_at _ _ _ _ Hjob).
  assert (i < length (job_list s))%nat as Hlt by (by eapply lookup_lt_Some).
  destruct (WIFSTOPPED status).
  - eexists. split; [reflexivity|]. cbn [job_list signals out err].
    split; [|done].
    rewrite (alter_at (set_state ST) (<[i := set_state FG job]> (job_list s)) i
               (set_state FG job)) by (by apply list_lookup_insert_eq).
    by rewrite list_insert_insert_eq.
  - rewrite list_lookup_insert_eq by done. cbn [pid set_state].
    set (s1 := set_jobs _ _).
    destruct (deletejob_jobs s1 (pid job))
      as [[_ [?|Habsent]]|(_ & k & jk & Hk & Hpid & _ & ->)].
    + pose proof (Hpos i job Hjob). lia.
    + unfold s1 in Habsent. cbn [job_list] in Habsent. rewrite Forall_lookup in Habsent.
      destruct (Habsent i (set_state FG job)); [|done].
      by apply list_lookup_insert_eq.
    + eexists. split; [reflexivity|]. unfold s1 in *.
      cbn [snd set_nextjid set_jobs job_list signals out err] in *.
      split; [|done].
      assert (k = i) as ->.
      { destruct (decide (k = i)) as [|Hne]; [done|].
        rewrite list_lookup_insert_ne in Hk by done.
        apply (Huniq k i jk job); [done|done|congruence|done]. }
      by rewrite list_insert_insert_eq.
Qed.

(** X14. bg or fg typed without an argument makes the shell fault: the
    handler reads [tok->argv[1][0]] where [argv[1]] is the NULL that ends the
    argument list.  This is so for a line made of the single word bg or fg,
    and for such a word followed by an argument that begins with an
    ampersand, which [parseline] takes off the list. *)
Theorem builtin_without_argument_faults (cmdline a : string) (rest : list string)
    (o : os_reply) (s : shell) :
  collected cmdline = Some (a :: rest) ->
  a = "bg" \/ a = "fg" ->
  rest = [] \/ (exists b, rest = [b] /\ starts_with_amp b = true) ->
  eval unix_error cmdline o s = Fault.
Proof.
  intros Hcollected Ha Hrest.
  assert (exists bg inf outf,
            parseline cmdline = (bg, Tokens [a] inf outf (Some (classify a)), [])
            /\ bg <> -1) as (bg & inf & outf & Hparse & Hbg).
  { destruct Hrest as [->|(b & -> & Hamp)].
    - destruct (parseline_collected cmdline [] a Hcollected) as (tok & _ & _ & Hparse).
      simpl in Hparse. exists 0, (infile tok), (outfile tok).
      destruct Ha as [-> | ->]; by simpl in Hparse.
    - destruct (parseline_collected cmdline [a] b Hcollected) as (tok & _ & _ & Hparse).
      rewrite Hamp in Hparse. simpl in Hparse. by exists 1, (infile tok), (outfile tok). }
  rewrite (eval_dispatch unix_error _ _ _ _ (classify a) o s Hparse Hbg); [|done..].
  by destruct Ha as [-> | ->].
Qed.
End builtins.

Lemma bg_handler_found_witness :
  let s := Shell [Job 7 1 ST "a"; Job 9 2 BG "b &"] 3 false EmptyString [] [] [] in
  exists job s',
    job_list s !! 0%nat = Some job /\
    bg_handler (unix_error_exits 0) (Tokens ["bg"; "%1"] None None (Some BUILTIN_BG)) s
      = Ret s' /\
    job_list s' = <[0%nat := Job (pid job) (jid job) BG (cmdline job)]> (job_list s) /\
    signals s' = signals s ++ [(int_neg (pid job), SIGCONT)] /\
    out s' = out s +:+ job_notice (jid job) (pid job) (cmdline job) /\
    err s' = err s /\ nextjid s' = nextjid s.
Proof.
  intros s.
  apply (bg_handler_found (unix_error_exits 0)
           (Tokens ["bg"; "%1"] None None (Some BUILTIN_BG)) "%1" 0%nat s);
    reflexivity.
Defined.

Lemma fg_handler_found_witness :
  let s := Shell [Job 7 1 ST "a"; Job 9 2 BG "b &"] 3 false EmptyString [] [] [] in
  exists s',
    fg_handler (unix_error_exits 0) (Tokens ["fg"; "9"] None None (Some BUILTIN_FG))
      [] (Some 0) s = Ret s' /\
    job_list s' = [Job 7 1 ST "a"; Job 0 0 UNDEF EmptyString] /\
    signals s' = [(int_neg 9, SIGCONT)] /\
    out s' = EmptyString /\ err s' = [].
Proof.
  intros s.
  apply (fg_handler_found (unix_error_exits 0)
           (Tokens ["fg"; "9"] None None (Some BUILTIN_FG)) "9" 1%nat (Job 9 2 BG "b &") 0 s).
  - reflexivity.
  - reflexivity.
  - reflexivity.
  - split.
    + intros [|[|i]] j Hj; [| |done]; injection Hj as <-; simpl; lia.
    + intros [|[|i]] [|[|i']] j j' Hj Hj'; try done;
        injection Hj as <-; injection Hj' as <-; simpl; lia.
  - simpl. lia.
Defined.

Lemma builtin_without_argument_faults_witness :
  eval (unix_error_exits 0) "fg &" (OsReply true true 0 true [] None) shell0 = Fault.
Proof.
  apply (builtin_without_argument_faults (unix_error_exits 0) "fg &" "fg" ["&"]).
  - reflexivity.
  - by right.
  - right. by exists "&".
Defined.

(** ** Commands that are not built in *)

(** [addjob] when it does not print: the state it leaves. *)
Lemma addjob_quiet s p st cmd i :
  1 <= p -> scan (fun j => pid j = 0) (job_list s) = Some i -> verbose s = false ->
  addjob s p st cmd =
    (1, Shell (<[i := Job p (nextjid s) st cmd]> (job_list s))
              (if decide (int_add (nextjid s) 1 > MAXJOBS) then 1 else int_add (nextjid s) 1)
              false (out s) (err s) (signals s) (files s)).
Proof.
  intros Hp Hscan Hquiet. unfold addjob. rewrite decide_False by lia. rewrite Hscan.
  cbn [verbose set_nextjid set_jobs]. rewrite Hquiet.
  unfold set_nextjid, set_jobs. cbn [job_list nextjid verbose out err signals files].
  by rewrite Hquiet.
Qed.

(** With no slot in the FG state before, the job put into slot [i] in the
    FG state is the foreground job, and there is none once the slot is
    cleared or the job stopped. *)
Lemma fgpid_insert_fg (jobs : list job_t) (i : nat) (j : job_t) :
  Forall (fun j => state j <> FG) jobs -> (i < length jobs)%nat -> state j = FG ->
  fgpid (<[i := j]> jobs) = pid j.
Proof.
  intros Hnone Hi Hst. unfold fgpid.
  assert (list_find (fun j => state j = FG) (<[i := j]> jobs) = Some (i, j)) as ->; [|done].
  apply list_find_Some. split_and!; [by apply list_lookup_insert_eq|done|].
  intros k jk Hk Hlt. rewrite list_lookup_insert_ne in Hk by lia.
  rewrite Forall_lookup in Hnone. by eapply Hnone.
Qed.

Lemma fgpid_insert_other (jobs : list job_t) (i : nat) (j : job_t) :
  Forall (fun j => state j <> FG) jobs -> state j <> FG ->
  fgpid (<[i := j]> jobs) = 0.
Proof.
  intros Hnone Hst. unfold fgpid.
  assert (list_find (fun j => state j = FG) (<[i := j]> jobs) = None) as ->; [|done].
  apply list_find_None. by apply Forall_insert.
Qed.

Lemma pid2jid_absent (jobs : list job_t) (p : Z) :
  Forall (fun j => pid j <> p) jobs -> pid2jid jobs p = 0.
Proof.
  intros Hnew. unfold pid2jid. case_decide; [done|].
  by rewrite (proj2 (list_find_None (fun j => pid j = p) jobs)).
Qed.

Lemma fgpid_absent (jobs : list job_t) (p : Z) :
  0 < p -> Forall (fun j => pid j <> p) jobs -> fgpid jobs <> p.
Proof.
  intros Hp Hnew. destruct (fgpid_cases jobs) as [->|(i & j & Hj & _ & -> & _)]; [lia|].
  rewrite Forall_lookup in Hnew. by eapply Hnew.
Qed.

(** The handlers never put a process id into the table: a slot keeps its
    process id or loses it. *)
Section handlers_keep.
Variable unix_error : string -> shell -> outcome shell.
Hypothesis unix_error_table :
  forall msg s s', unix_error msg s = Ret s' -> job_list s' = job_list s.

Lemma sigchld_handler_demotes reaped s s' :
  sigchld_handler reaped s = Ret s' -> Forall2 demoted (job_list s) (job_list s').
Proof.
  revert s. induction reaped as [|[p stat] reaped IH]; intros s; simpl.
  - by intros [= <-].
  - case_decide; [|by intros [= <-]].
    destruct (reap_child s p stat) as [s1| | | |] eqn:Hreap; try done. simpl.
    intros Hrest. etrans; [by eapply reap_child_demotes|by apply IH].
Qed.

Lemma handle_all_demotes events s s' :
  handle_all unix_error events s = Ret s' -> Forall2 demoted (job_list s) (job_list s').
Proof.
  revert s. induction events as [|ev events IH]; intros s; simpl.
  - by intros [= <-].
  - destruct (handle unix_error ev s) as [s1| | | |] eqn:Hhandle; try done. simpl.
    intros Hrest. etrans; [|by apply IH].
    assert (forall sig kill_ok, forward_signal unix_error sig kill_ok s = Ret s1 ->
              job_list s1 = job_list s) as Hforward.
    { intros sig kill_ok. unfold forward_signal. case_decide; [|by intros [= <-]].
      destruct kill_ok; [by intros [= <-]|]. by intros ->%unix_error_table. }
    destruct ev as [reaped|kill_ok|kill_ok]; simpl in Hhandle.
    + by eapply sigchld_handler_demotes.
    + by rewrite (Hforward _ _ Hhandle).
    + by rewrite (Hforward _ _ Hhandle).
Qed.

Lemma handle_all_absent events s s' p :
  0 < p -> Forall (fun j => pid j <> p) (job_list s) ->
  handle_all unix_error events s = Ret s' ->
  Forall (fun j => pid j <> p) (job_list s').
Proof.
  intros Hp Hnew Hhandle%handle_all_demotes%demotes_pids.
  apply Forall_lookup. intros i j' Hj'.
  destruct (Forall2_lookup_r _ _ _ _ _ Hhandle Hj') as (j & Hj & Hpid).
  rewrite Forall_lookup in Hnew. specialize (Hnew i j Hj).
  destruct Hpid as [->| ->]; [done|lia].
Qed.
End handlers_keep.

Section launch.
Variable unix_error : string -> shell -> outcome shell.

(** X15. The child of [fork] never comes back into the shell's loop: on the
    side where [fork] returned 0, the part of eval that launches a command
    does not return, and when the redirection files open (or there is none)
    it ends in the [execve]d program, or in [exit(0)] when [execve] fails. *)
Theorem child_never_returns (tok : cmdline_tokens) (bg : Z) (cmdline : string)
    (o : os_reply) (s : shell) :
  fork_ret o = 0 ->
  (forall s', launch unix_error tok bg cmdline o s <> Ret s') /\
  (open_ok o = true ->
   launch unix_error tok bg cmdline o s = if execve_ok o then Exec else Exit 0).
Proof.
  intros Hfork. unfold launch. rewrite Hfork.
  rewrite decide_False by lia. cbn [bind]. rewrite decide_True by done.
  split.
  - intros s'. unfold run_child.
    destruct (match infile tok with Some _ => _ | None => _ end); try done. simpl.
    destruct (match outfile tok with Some _ => _ | None => _ end); try done. simpl.
    by destruct (execve_ok o).
  - intros Hopen. unfold run_child. rewrite Hopen.
    by destruct (infile tok), (outfile tok).
Qed.

(** X16. A background command: when [parseline] marks the line background,
    [fork] gives a process id that no job holds and a slot is free, eval
    stores the job in the first free slot, in state BG and with the whole
    line as its command line, lets the handlers run for the signals that
    arrive once it has unblocked them, prints [[jid] (pid) line] with the job
    id [pid2jid] gives at that moment, and returns without waiting.  The job
    id printed is the one just given when no signal arrived in between, and 0
    when the SIGCHLD handler has already collected the exit of the child and
    deleted the job. *)
Theorem eval_background (cmdline : string) (tok : cmdline_tokens) (msgs : list string)
    (o : os_reply) (s : shell) (i : nat) :
  parseline cmdline = (1, tok, msgs) ->
  argv tok <> [] -> builtins tok = Some BUILTIN_NONE ->
  0 < fork_ret o ->
  Forall (fun j => pid j <> fork_ret o) (job_list s) ->
  scan (fun j => pid j = 0) (job_list s) = Some i ->
  let s1 := (addjob s (fork_ret o) BG cmdline).2 in
  job_list s1 = <[i := Job (fork_ret o) (nextjid s) BG cmdline]> (job_list s) /\
  eval unix_error cmdline o s =
    bind (handle_all unix_error (wait_events o) s1) (fun s2 =>
    Ret (printf s2 (job_notice (pid2jid (job_list s2) (fork_ret o)) (fork_ret o) cmdline))) /\
  (wait_events o = [] ->
   eval unix_error cmdline o s =
     Ret (printf s1 (job_notice (nextjid s) (fork_ret o) cmdline))) /\
  (forall stat,
     wait_events o = [GotSIGCHLD [(fork_ret o, stat)]] -> WIFEXITED stat = true ->
     eval unix_error cmdline o s =
       Ret (printf (deletejob s1 (fork_ret o)).2 (job_notice 0 (fork_ret o) cmdline)) /\
     job_list (deletejob s1 (fork_ret o)).2 =
       <[i := Job 0 0 UNDEF EmptyString]> (job_list s)).
Proof.
  intros Hparse Hargv Hnone Hfork Hnew Hscan s1.
  destruct (addjob_first_empty s (fork_ret o) BG cmdline i ltac:(lia) Hscan)
    as (Hadded & Hjobs & _).
  pose proof (addjob_pid2jid s (fork_ret o) BG cmdline Hadded Hnew) as Hjid.
  pose proof (scan_lt _ _ _ Hscan) as Hlt.
  assert (eval unix_error cmdline o s =
            bind (handle_all unix_error (wait_events o) s1) (fun s2 =>
            Ret (printf s2 (job_notice (pid2jid (job_list s2) (fork_ret o)) (fork_ret o)
                              cmdline)))) as Heval.
  { rewrite (eval_dispatch unix_error _ _ _ _ _ o s Hparse ltac:(done) Hargv Hnone).
    unfold launch. rewrite decide_False by lia. cbn [bind].
    rewrite decide_False by lia. by rewrite decide_True by done. }
  split_and!; [done|done| |].
  - intros Hquiet. rewrite Heval, Hquiet. cbn [handle_all bind]. fold s1 in Hjid.
    by rewrite Hjid.
  - intros stat Hevents Hexited.
    assert (job_list (deletejob s1 (fork_ret o)).2 =
              <[i := Job 0 0 UNDEF EmptyString]> (job_list s)) as Hgone.
    { destruct (deletejob_jobs s1 (fork_ret o))
        as [[_ [?|Habsent]]|(_ & k & jk & Hk & Hpid & _ & ->)].
      - lia.
      - fold s1 in Hjobs. rewrite Hjobs, Forall_lookup in Habsent.
        destruct (Habsent i (Job (fork_ret o) (nextjid s) BG cmdline)); [|done].
        by apply list_lookup_insert_eq.
      - fold s1 in Hjobs. rewrite Hjobs in Hk |- *.
        cbn [snd set_nextjid set_jobs job_list].
        assert (k = i) as ->.
        { destruct (decide (k = i)) as [|Hne]; [done|].
          rewrite list_lookup_insert_ne in Hk by done.
          rewrite Forall_lookup in Hnew. by destruct (Hnew k jk Hk). }
        by rewrite list_insert_insert_eq. }
    split; [|done].
    rewrite Heval, Hevents. cbn [handle_all handle sigchld_handler].
    rewrite decide_True by lia.
    rewrite (reap_child_exited s1 _ stat Hexited). cbn [bind].
    rewrite pid2jid_absent; [done|]. rewrite Hgone.
    apply Forall_insert; [done|]. simpl. lia.
Qed.

(** X17. A command launched while the table is full is not tracked: when
    every slot is in use and [fork] gives a new process id, eval prints
    [Tried to create too many jobs] and does not store the job; for a
    foreground command eval returns without waiting for the child, and for a
    background command the notice shows job id 0, whatever the handlers do
    that run before it is printed (as long as [unix_error], if one of them
    calls it and it returns, leaves the table alone). *)
Theorem eval_table_full (cmdline : string) (bg : Z) (tok : cmdline_tokens)
    (msgs : list string) (o : os_reply) (s : shell) :
  parseline cmdline = (bg, tok, msgs) -> bg <> -1 ->
  argv tok <> [] -> builtins tok = Some BUILTIN_NONE ->
  0 < fork_ret o ->
  Forall (fun j => pid j <> 0) (job_list s) ->
  Forall (fun j => pid j <> fork_ret o) (job_list s) ->
  let s1 := printf s ("Tried to create too many jobs" +:+ nl) in
  (bg = 0 \/ wait_events o = [] ->
   eval unix_error cmdline o s =
     Ret (if decide (bg <> 0) then printf s1 (job_notice 0 (fork_ret o) cmdline) else s1)) /\
  (bg <> 0 ->
   (forall msg s s', unix_error msg s = Ret s' -> job_list s' = job_list s) ->
   eval unix_error cmdline o s =
     bind (handle_all unix_error (wait_events o) s1) (fun s2 =>
     Ret (printf s2 (job_notice 0 (fork_ret o) cmdline)))).
Proof.
  intros Hparse Hbg Hargv Hnone Hfork Hfull Hnew s1.
  rewrite (eval_dispatch unix_error _ _ _ _ _ o s Hparse Hbg Hargv Hnone).
  unfold launch. rewrite decide_False by lia. cbn [bind].
  rewrite decide_False by lia.
  rewrite addjob_full by (done || lia). cbn [snd]. fold s1.
  split.
  - intros Hquiet. case_decide as Hb.
    + destruct Hquiet as [?| ->]; [done|]. cbn [handle_all bind].
      by rewrite pid2jid_absent.
    + assert (fgpid (job_list s1) <> fork_ret o) as Hfg by (by apply fgpid_absent).
      destruct (wait_events o); simpl; by rewrite decide_False.
  - intros Hb Herror. rewrite decide_True by done.
    destruct (handle_all unix_error (wait_events o) s1) as [s2| | | |] eqn:Hhandle;
      try done.
    cbn [bind]. rewrite pid2jid_absent; [done|].
    by eapply (handle_all_absent unix_error Herror (wait_events o) s1).
Qed.

(** X18. A line of white space only is ignored: eval returns with the state
    unchanged, nothing printed and no process created. *)
Theorem eval_blank_line (cmdline : string) (o : os_reply) (s : shell) :
  Forall (fun c => is_delim c = true) (list_ascii_of_string cmdline) ->
  eval unix_error cmdline o s = Ret s.
Proof.
  intros Hblank. unfold eval, parseline.
  rewrite <- (app_nil_r (list_ascii_of_string cmdline)).
  rewrite (parse_from_delims _ [] _ _ Hblank), parse_from_nil.
  by rewrite decide_False by (intros H; by apply H).
Qed.

Lemma collected_parseline (cmdline : string) (a0 : string) (rest : list string) :
  collected cmdline = Some (a0 :: rest) ->
  exists bg tok,
    parseline cmdline = (bg, tok, []) /\ bg <> -1 /\
    builtins tok = Some (classify a0) /\
    (argv tok = a0 :: rest \/
     exists a, a0 :: rest = argv tok ++ [a] /\ starts_with_amp a = true).
Proof.
  intros Hcollected.
  destruct (exists_last (l := a0 :: rest) ltac:(done)) as (args & a & Heq).
  rewrite Heq in Hcollected.
  destruct (parseline_collected cmdline args a Hcollected) as (tok & _ & _ & Hparse).
  assert (default a (head args) = a0) as Hhead.
  { destruct args as [|a1 args]; simpl in *; congruence. }
  rewrite Hhead in Hparse.
  destruct (starts_with_amp a) eqn:Hamp; eexists _, _; (split; [exact Hparse|]);
    (split; [done|]); (split; [done|]); simpl.
  - right. by exists a.
  - by left.
Qed.

(** X19. Every line whose first argument is [quit] ends the shell with exit
    status 0, whatever follows on the line and whatever jobs the table still
    holds. *)
Theorem eval_quit (cmdline : string) (rest : list string) (o : os_reply) (s : shell) :
  collected cmdline = Some ("quit" :: rest) ->
  eval unix_error cmdline o s = Exit 0.
Proof.
  intros (bg & tok & Hparse & Hbg & Hb & Hargv)%collected_parseline.
  rewrite (eval_dispatch unix_error _ _ _ _ BUILTIN_QUIT o s Hparse Hbg); [done| |exact Hb].
  destruct Hargv as [->|(a & Heq & Hamp)]; [done|].
  destruct (argv tok) as [|a1 args]; [|done].
  injection Heq as <- _. done.
Qed.

(** X20. The jobs command: with descriptors that accept the writes, eval
    appends the listing of the slots in use to standard output or, when the
    line names an output file that opens, writes it there; the job table is
    not changed and eval returns. *)
Theorem eval_jobs (cmdline : string) (bg : Z) (tok : cmdline_tokens) (msgs : list string)
    (o : os_reply) (s : shell) :
  parseline cmdline = (bg, tok, msgs) -> bg <> -1 ->
  argv tok <> [] -> builtins tok = Some BUILTIN_JOBS ->
  open_ok o = true -> write_ok o = true ->
  eval unix_error cmdline o s =
    Ret (match outfile tok with
         | Some name => add_file s name (listing (live_slots (job_list s)))
         | None => set_out s (out s +:+ listing (live_slots (job_list s)))
         end).
Proof.
  intros Hparse Hbg Hargv Hjobs Hopen Hwrite.
  rewrite (eval_dispatch unix_error _ _ _ _ _ o s Hparse Hbg Hargv Hjobs).
  rewrite Hopen, Hwrite. unfold listjobs. rewrite !listjobs_from_ok.
  by destruct (outfile tok).
Qed.

(** The shell once the parent has registered a foreground job in a table
    with a free slot and no slot in the FG state. *)
Lemma launch_foreground_registered (tok : cmdline_tokens) (cmdline : string) (o : os_reply)
    (s : shell) (i : nat) :
  0 < fork_ret o ->
  scan (fun j => pid j = 0) (job_list s) = Some i ->
  verbose s = false ->
  let s1 := Shell (<[i := Job (fork_ret o) (nextjid s) FG cmdline]> (job_list s))
                  (if decide (int_add (nextjid s) 1 > MAXJOBS) then 1
                   else int_add (nextjid s) 1)
                  false (out s) (err s) (signals s) (files s) in
  launch unix_error tok 0 cmdline o s = wait_fg unix_error (fork_ret o) (wait_events o) s1.
Proof.
  intros Hfork Hscan Hquiet s1. unfold launch.
  rewrite decide_False by lia. cbn [bind]. rewrite decide_False by lia.
  change (int_add 0 1) with FG.
  rewrite (addjob_quiet s (fork_ret o) FG cmdline i) by (done || lia). cbn [snd].
  by rewrite decide_False by (intros H; by apply H).
Qed.

(** X21. A foreground command whose child exits: started from a table with
    a free slot and no slot in the FG state, with a new process id from
    [fork], eval registers the job, waits, and returns once the SIGCHLD
    handler has got the exit status; the slot is then cleared, nothing has
    been printed and no signal sent. *)
Theorem eval_foreground_exits (cmdline : string) (tok : cmdline_tokens)
    (msgs : list string) (o : os_reply) (s : shell) (i : nat) (stat : Z) :
  parseline cmdline = (0, tok, msgs) ->
  argv tok <> [] -> builtins tok = Some BUILTIN_NONE ->
  0 < fork_ret o ->
  Forall (fun j => pid j <> fork_ret o) (job_list s) ->
  Forall (fun j => state j <> FG) (job_list s) ->
  scan (fun j => pid j = 0) (job_list s) = Some i ->
  verbose s = false ->
  wait_events o = [GotSIGCHLD [(fork_ret o, stat)]] ->
  WIFEXITED stat = true ->
  let jobs' := <[i := Job 0 0 UNDEF EmptyString]> (job_list s) in
  eval unix_error cmdline o s =
    Ret (Shell jobs' (int_add (maxjid jobs') 1) false (out s) (err s) (signals s) (files s)).
Proof.
  intros Hparse Hargv Hnone Hfork Hnew Hnofg Hscan Hquiet Hevents Hexited jobs'.
  rewrite (eval_dispatch unix_error _ _ _ _ _ o s Hparse ltac:(done) Hargv Hnone).
  rewrite (launch_foreground_registered tok cmdline o s i) by done.
  pose proof (scan_lt _ _ _ Hscan) as Hlt.
  set (job := Job (fork_ret o) (nextjid s) FG cmdline).
  set (s1 := Shell _ _ _ _ _ _ _).
  assert (fgpid (job_list s1) = fork_ret o) as Hfg by (by apply fgpid_insert_fg).
  rewrite Hevents. cbn [wait_fg]. rewrite decide_True by done.
  cbn [handle sigchld_handler]. rewrite decide_True by lia.
  rewrite (reap_child_exited s1 _ stat Hexited). cbn [bind].
  destruct (deletejob_jobs s1 (fork_ret o))
    as [[_ [?|Habsent]]|(_ & k & jk & Hk & Hpid & _ & ->)].
  - lia.
  - unfold s1 in Habsent. cbn [job_list] in Habsent. rewrite Forall_lookup in Habsent.
    destruct (Habsent i job); [|done]. by apply list_lookup_insert_eq.
  - unfold s1 in Hk |- *. cbn [job_list snd set_nextjid set_jobs] in Hk |- *.
    assert (k = i) as ->.
    { destruct (decide (k = i)) as [|Hne]; [done|].
      rewrite list_lookup_insert_ne in Hk by done.
      rewrite Forall_lookup in Hnew. by destruct (Hnew k jk Hk). }
    rewrite list_insert_insert_eq. fold jobs'.
    cbn [verbose out err signals files nextjid].
    rewrite decide_False; [done|]. cbn [job_list].
    unfold jobs'. rewrite fgpid_insert_other by done. lia.
Qed.

(** X22. A foreground command stopped from the keyboard: started as in X21,
    when SIGTSTP arrives during the wait and the SIGCHLD handler then gets a
    stop status for the child, eval sends SIGTSTP to the child's process
    group, the job stays in its slot in state ST, the line
    [Job [jid] (pid) stopped by signal N] is printed, and eval returns. *)
Theorem eval_foreground_stopped (cmdline : string) (tok : cmdline_tokens)
    (msgs : list string) (o : os_reply) (s : shell) (i : nat) (stat : Z) :
  parseline cmdline = (0, tok, msgs) ->
  argv tok <> [] -> builtins tok = Some BUILTIN_NONE ->
  0 < fork_ret o ->
  Forall (fun j => pid j <> fork_ret o) (job_list s) ->
  Forall (fun j => state j <> FG) (job_list s) ->
  scan (fun j => pid j = 0) (job_list s) = Some i ->
  verbose s = false ->
  wait_events o = [GotSIGTSTP true; GotSIGCHLD [(fork_ret o, stat)]] ->
  WIFSTOPPED stat = true ->
  eval unix_error cmdline o s =
    Ret (Shell (<[i := Job (fork_ret o) (nextjid s) ST cmdline]> (job_list s))
               (if decide (int_add (nextjid s) 1 > MAXJOBS) then 1
                else int_add (nextjid s) 1)
               false
               (out s +:+ ("Job [" +:+ pretty (nextjid s) +:+ "] (" +:+ pretty (fork_ret o)
                           +:+ ") stopped by signal " +:+ pretty (WSTOPSIG stat) +:+ nl))
               (err s)
               (signals s ++ [(int_neg (fork_ret o), SIGTSTP)])
               (files s)).
Proof.
  intros Hparse Hargv Hnone Hfork Hnew Hnofg Hscan Hquiet Hevents Hstopped.
  rewrite (eval_dispatch unix_error _ _ _ _ _ o s Hparse ltac:(done) Hargv Hnone).
  rewrite (launch_foreground_registered tok cmdline o s i) by done.
  pose proof (scan_lt _ _ _ Hscan) as Hlt.
  set (job := Job (fork_ret o) (nextjid s) FG cmdline).
  set (s1 := Shell _ _ _ _ _ _ _).
  assert (job_list s1 !! i = Some job) as Hjob by (by apply list_lookup_insert_eq).
  assert (fgpid (job_list s1) = fork_ret o) as Hfg by (by apply fgpid_insert_fg).
  assert (getjobpid (job_list s1) (fork_ret o) = Some i) as Hget
    by (apply addjob_getjobpid; [lia|done..]).
  destruct (pid2jid_found _ _ _ _ Hget Hjob) as [Hjid _].
  rewrite Hevents. cbn [wait_fg]. rewrite decide_True by done.
  cbn [handle]. unfold sigtstp_handler, forward_signal.
  rewrite Hfg. rewrite decide_True by lia. cbn [bind].
  change (job_list (kill s1 _ _)) with (job_list s1).
  rewrite decide_True by done. cbn [handle sigchld_handler].
  rewrite decide_True by lia.
  rewrite (reap_child_stopped (kill s1 (int_neg (fork_ret o)) SIGTSTP) _ stat i Hstopped Hget).
  cbn [bind].
  change (job_list (kill s1 _ _)) with (job_list s1).
  rewrite Hjid, (alter_at _ _ _ _ Hjob).
  unfold s1. cbn [job_list]. rewrite list_insert_insert_eq.
  rewrite decide_False; [done|]. cbn [printf set_out set_jobs job_list].
  rewrite fgpid_insert_other by done. lia.
Qed.
End launch.

Lemma child_never_returns_witness :
  let tok := Tokens ["/bin/nope"] None None (Some BUILTIN_NONE) in
  let o := OsReply true true 0 false [] None in
  (forall s', launch (unix_error_exits 0) tok 0 "/bin/nope" o shell0 <> Ret s') /\
  launch (unix_error_exits 0) tok 0 "/bin/nope" o shell0 = Exit 0.
Proof.
  intros tok o.
  destruct (child_never_returns (unix_error_exits 0) tok 0 "/bin/nope" o shell0 eq_refl)
    as [Hnever Hends].
  split; [exact Hnever|]. exact (Hends eq_refl).
Defined.

Lemma eval_background_witness :
  let quiet := OsReply true true 300 true [] None in
  let race := OsReply true true 300 true [GotSIGCHLD [(300, 0)]] None in
  let s1 := (addjob shell0 300 BG "sleep 5 &").2 in
  eval (unix_error_exits 0) "sleep 5 &" quiet shell0 =
    Ret (printf s1 (job_notice 1 300 "sleep 5 &")) /\
  eval (unix_error_exits 0) "sleep 5 &" race shell0 =
    Ret (printf (deletejob s1 300).2 (job_notice 0 300 "sleep 5 &")).
Proof.
  intros quiet race s1.
  assert (Forall (fun j => pid j <> 300) (job_list shell0)) as Hnew.
  { repeat (constructor; [discriminate|]). constructor. }
  destruct (eval_background (unix_error_exits 0) "sleep 5 &"
              (Tokens ["sleep"; "5"] None None (Some BUILTIN_NONE)) [] quiet shell0 0%nat
              eq_refl ltac:(discriminate) eq_refl ltac:(simpl; lia) Hnew eq_refl)
    as (_ & _ & Hquiet & _).
  destruct (eval_background (unix_error_exits 0) "sleep 5 &"
              (Tokens ["sleep"; "5"] None None (Some BUILTIN_NONE)) [] race shell0 0%nat
              eq_refl ltac:(discriminate) eq_refl ltac:(simpl; lia) Hnew eq_refl)
    as (_ & _ & _ & Hrace).
  split; [exact (Hquiet eq_refl)|exact (proj1 (Hrace 0 eq_refl eq_refl))].
Defined.

Lemma eval_table_full_witness :
  let s := foldl (fun s p => (addjob s p BG "a &").2) shell0 (seqZ 101 16) in
  let s1 := printf s ("Tried to create too many jobs" +:+ nl) in
  eval (unix_error_exits 0) "/bin/ls" (OsReply true true 300 true [] None) s = Ret s1 /\
  eval (unix_error_exits 0) "sleep 5 &"
       (OsReply true true 300 true [GotSIGCHLD [(101, 0)]] None) s =
    Ret (printf (deletejob s1 101).2 (job_notice 0 300 "sleep 5 &")).
Proof.
  intros s s1.
  assert (Forall (fun j => pid j <> 0) (job_list s)) as Hfull.
  { vm_compute. repeat (constructor; [discriminate|]). constructor. }
  assert (Forall (fun j => pid j <> 300) (job_list s)) as Hnew.
  { vm_compute. repeat (constructor; [discriminate|]). constructor. }
  pose proof (eval_table_full (unix_error_exits 0) "/bin/ls" 0
                (Tokens ["/bin/ls"] None None (Some BUILTIN_NONE)) []
                (OsReply true true 300 true [] None) s
                eq_refl ltac:(discriminate) ltac:(discriminate) eq_refl
                ltac:(simpl; lia) Hfull Hnew) as [Hfg _].
  pose proof (eval_table_full (unix_error_exits 0) "sleep 5 &" 1
                (Tokens ["sleep"; "5"] None None (Some BUILTIN_NONE)) []
                (OsReply true true 300 true [GotSIGCHLD [(101, 0)]] None) s
                eq_refl ltac:(discriminate) ltac:(discriminate) eq_refl
                ltac:(simpl; lia) Hfull Hnew) as [_ Hbg].
  split.
  - rewrite Hfg by (by left). reflexivity.
  - rewrite Hbg by done. by vm_compute.
Defined.

Lemma eval_blank_line_witness :
  eval (unix_error_exits 0) "   " (OsReply true true 0 true [] None) shell0 = Ret shell0.
Proof.
  apply (eval_blank_line (unix_error_exits 0) "   ").
  repeat constructor.
Defined.

Lemma eval_quit_witness :
  eval (unix_error_exits 0) "quit now" (OsReply true true 0 true [] None) shell0 = Exit 0.
Proof. apply (eval_quit (unix_error_exits 0) "quit now" ["now"]). reflexivity. Defined.

Lemma eval_jobs_witness :
  let s := (addjob shell0 300 BG "sleep 5 &").2 in
  eval (unix_error_exits 0) "jobs" (OsReply true true 0 true [] None) s =
    Ret (set_out s ("[1] (300) Running    sleep 5 &" +:+ nl)).
Proof.
  intros s.
  apply (eval_jobs (unix_error_exits 0) "jobs" 0
           (Tokens ["jobs"] None None (Some BUILTIN_JOBS)) []
           (OsReply true true 0 true [] None) s);
    reflexivity || discriminate.
Defined.

Lemma eval_foreground_exits_witness :
  let o := OsReply true true 300 true [GotSIGCHLD [(300, 0)]] None in
  eval (unix_error_exits 0) "/bin/ls" o shell0 = Ret shell0.
Proof.
  intros o.
  apply (eval_foreground_exits (unix_error_exits 0) "/bin/ls"
           (Tokens ["/bin/ls"] None None (Some BUILTIN_NONE)) [] o shell0 0%nat 0).
  - reflexivity.
  - discriminate.
  - reflexivity.
  - simpl. lia.
  - repeat (constructor; [discriminate|]). constructor.
  - repeat (constructor; [discriminate|]). constructor.
  - reflexivity.
  - reflexivity.
  - reflexivity.
  - reflexivity.
Defined.

Lemma eval_foreground_stopped_witness :
  let o := OsReply true true 300 true [GotSIGTSTP true; GotSIGCHLD [(300, 0x147f)]] None in
  eval (unix_error_exits 0) "/bin/cat" o shell0 =
    Ret (Shell (<[0%nat := Job 300 1 ST "/bin/cat"]> (job_list shell0)) 2 false
               ("Job [1] (300) stopped by signal 20" +:+ nl) []
               [(-300, SIGTSTP)] []).
Proof.
  intros o.
  apply (eval_foreground_stopped (unix_error_exits 0) "/bin/cat"
           (Tokens ["/bin/cat"] None None (Some BUILTIN_NONE)) [] o shell0 0%nat 0x147f).
  - reflexivity.
  - discriminate.
  - reflexivity.
  - simpl. lia.
  - repeat (constructor; [discriminate|]). constructor.
  - repeat (constructor; [discriminate|]). constructor.
  - reflexivity.
  - reflexivity.
  - reflexivity.
  - reflexivity.
Defined.

(** ** More on the tokenizer *)

Lemma record_token_argc tok st token tok1 :
  record_token tok st token = Some tok1 -> argc tok <= argc tok1 <= argc tok + 1.
Proof.
  unfold record_token, argc. repeat case_decide; intros [= <-]; simpl; try lia.
  rewrite length_app. simpl. lia.
Qed.

(** One turn of the loop of [parseline]: how it is left, or with what it
    goes round again. *)
Lemma parse_iter_cases k buf tok st :
  parse_iter k buf tok st = LoopDone tok st \/
  (exists msg, parse_iter k buf tok st = LoopFail tok msg /\
     (msg = msg_ambiguous \/ exists q, is_quote q = true /\ msg = msg_unmatched q)) \/
  (exists rest st', (length rest < length buf)%nat /\
     parse_iter k buf tok st = k rest tok st') \/
  (exists token tok1, record_token tok st token = Some tok1 /\
     ((argc tok1 >= MAXARGS - 1 /\ parse_iter k buf tok st = LoopDone tok1 ST_NORMAL) \/
      (argc tok1 < MAXARGS - 1 /\
       exists rest, (length rest < length buf)%nat /\
         parse_iter k buf tok st = k rest tok1 ST_NORMAL))).
Proof.
  unfold parse_iter. pose proof (strspn_delims_length buf) as Hskip.
  destruct (strspn_delims buf) as [|c rest] eqn:Hbuf; [by left|]. simpl in Hskip.
  destruct (c =? "<")%char.
  { destruct (infile tok).
    - right; left. eexists. split; [done|by left].
    - right; right; left. eexists _, _. split; [|done]. lia. }
  destruct (c =? ">")%char.
  { destruct (outfile tok).
    - right; left. eexists. split; [done|by left].
    - right; right; left. eexists _, _. split; [|done]. lia. }
  destruct (if is_quote c then strchr rest c else Some (strcspn_delims (c :: rest)))
    as [[token next]|] eqn:Hfound.
  - pose proof (found_length _ _ _ _ Hfound) as Hlen.
    destruct (record_token tok st _) as [tok1|] eqn:Hrec.
    + right; right; right. exists (string_of_list_ascii token), tok1. split; [done|].
      case_decide; [by left|right]. split; [lia|]. eexists. split; [|done]. lia.
    + right; left. eexists. split; [done|by left].
  - right; left. eexists. split; [done|]. right. exists c.
    by destruct (is_quote c).
Qed.

(** What the loop leaves, started with room in the argument array. *)
Lemma parse_loop_result fuel buf tok st :
  argc tok < MAXARGS - 1 ->
  match parse_loop fuel buf tok st with
  | LoopDone tok' _ => argc tok' <= MAXARGS - 1 /\ builtins tok' = builtins tok
  | LoopFail tok' msg =>
      argc tok' <= MAXARGS - 1 /\ builtins tok' = builtins tok /\
      (msg = msg_ambiguous \/ exists q, is_quote q = true /\ msg = msg_unmatched q)
  end.
Proof.
  revert buf tok st. induction fuel as [|fuel IH]; intros buf tok st Hroom.
  { simpl. split; [lia|done]. }
  rewrite parse_loop_S.
  destruct (parse_iter_cases (parse_loop fuel) buf tok st)
    as [->|[(msg & -> & Hmsg)|[(rest & st' & _ & ->)|(token & tok1 & Hrec & Hnext)]]].
  - split; [lia|done].
  - split_and!; [lia|done|done].
  - by apply IH.
  - pose proof (record_token_argc _ _ _ _ Hrec).
    pose proof (record_token_builtins _ _ _ _ Hrec) as Hb.
    destruct Hnext as [[Hfull ->]|(Hroom1 & rest & _ & ->)].
    + split; [lia|done].
    + specialize (IH rest tok1 ST_NORMAL Hroom1). rewrite Hb in IH. exact IH.
Qed.

(** X23. What [parseline] can return for a line that fits its buffer: the
    result is -1 with exactly one of its three error messages, or 0 or 1 with
    no message; the argument list never holds more than MAXARGS - 1 entries,
    so that the NULL that ends it is inside the array; and whenever the
    result is not -1 and there is an argument, [tok->builtins] has been
    assigned. *)
Theorem parseline_result (cmdline : string) (bg : Z) (tok : cmdline_tokens)
    (msgs : list string) :
  (String.length cmdline < Z.to_nat MAXLINE_TSH)%nat ->
  parseline cmdline = (bg, tok, msgs) ->
  argc tok <= MAXARGS - 1 /\
  ((bg = -1 /\
    exists msg, msgs = [msg] /\
      (msg = msg_ambiguous \/ msg = msg_nofile \/
       exists q, is_quote q = true /\ msg = msg_unmatched q)) \/
   ((bg = 0 \/ bg = 1) /\ msgs = [] /\
    (bg = 0 -> argv tok <> []) /\
    (argv tok <> [] -> exists b, builtins tok = Some b))).
Proof.
  intros _. unfold parseline, parse_from.
  pose proof (parse_loop_result (S (length (list_ascii_of_string cmdline)))
                (list_ascii_of_string cmdline) (Tokens [] None None None) ST_NORMAL
                ltac:(by vm_compute)) as Hloop.
  destruct (parse_loop _ _ _ _) as [tok0 msg|tok0 st].
  - destruct Hloop as (Hargc & _ & Hmsg). intros [= <- <- <-]. split; [done|].
    left. split; [done|]. exists msg. split; [done|]. destruct Hmsg as [?|?]; auto.
  - destruct Hloop as (Hargc & _). case_decide.
    { intros [= <- <- <-]. split; [done|]. left. split; [done|]. exists msg_nofile. auto. }
    destruct (last (argv tok0)) as [lastarg|] eqn:Hlast,
             (head (argv tok0)) as [arg0|] eqn:Hhead.
    + destruct (starts_with_amp lastarg); intros [= <- <- <-].
      * split.
        { cbn [argv]. unfold argc in *. cbn [argv].
          destruct (argv tok0) as [|a l] using rev_ind; [done|].
          rewrite removelast_last. rewrite length_app in Hargc. simpl in Hargc. lia. }
        right. split_and!; [by right|done|done|]. intros _. by eexists.
      * split; [done|].
        right. split_and!; [by left|done| |by eexists].
        intros _. cbn [argv]. by destruct (argv tok0).
    + by destruct (argv tok0).
    + destruct (argv tok0) as [|a l] using rev_ind; [done|]. by rewrite last_snoc in Hlast.
    + intros [= <- <- <-]. split; [done|].
      right. split_and!; [by right|done|done|].
      intros Hne. by destruct (argv tok0).
Qed.

Lemma record_token_normal tok token :
  record_token tok ST_NORMAL token =
    Some (Tokens (argv tok ++ [token]) (infile tok) (outfile tok) (builtins tok)).
Proof. done. Qed.

(** The loop on a line of words: each word becomes one argument. *)
Lemma parse_from_unwords (xs : list word) (tok : cmdline_tokens) :
  Forall word_ok xs ->
  argc tok + Z.of_nat (length xs) <= MAXARGS - 1 ->
  parse_from (unwords xs) tok ST_NORMAL =
    LoopDone (Tokens (argv tok ++ (word_arg <$> xs)) (infile tok) (outfile tok) (builtins tok))
             ST_NORMAL.
Proof.
  revert tok. induction xs as [|x xs IH]; intros tok Hok Hroom.
  { simpl. rewrite parse_from_nil, app_nil_r. by destruct tok. }
  apply Forall_cons in Hok as [Hx Hok].
  set (tok1 := Tokens (argv tok ++ [word_arg x]) (infile tok) (outfile tok) (builtins tok)).
  assert (argc tok1 = argc tok + 1) as Hargc1.
  { unfold argc, tok1. cbn [argv]. rewrite length_app. simpl. lia. }
  assert (Tokens (argv tok ++ word_arg x :: (word_arg <$> xs)) (infile tok) (outfile tok)
            (builtins tok)
          = Tokens (argv tok1 ++ (word_arg <$> xs)) (infile tok1) (outfile tok1)
              (builtins tok1)) as Hshift.
  { unfold tok1. cbn [argv infile outfile builtins]. by rewrite <- app_assoc. }
  rewrite fmap_cons, Hshift.
  destruct xs as [|x' xs].
  - (* the last word, up to the end of the line *)
    cbn [unwords fmap list_fmap]. rewrite app_nil_r.
    destruct x as [w|q body]; cbn [word_text word_arg word_ok] in *.
    + rewrite <- (app_nil_r w) at 1. rewrite (parse_from_bare w [] tok ST_NORMAL Hx I).
      rewrite record_token_normal. fold tok1. case_decide; [done|].
      simpl. by rewrite parse_from_nil.
    + destruct Hx as [Hq Hbody].
      rewrite (parse_from_quoted q body [] tok ST_NORMAL Hq Hbody).
      rewrite record_token_normal. fold tok1. case_decide; [done|].
      by rewrite parse_from_nil.
  - (* a word followed by a space and more words *)
    assert (argc tok1 < MAXARGS - 1) as Hroom1.
    { rewrite Hargc1. simpl in Hroom. lia. }
    assert (unwords (x :: x' :: xs) = word_text x ++ " "%char :: unwords (x' :: xs)) as ->
      by done.
    rewrite <- (IH tok1 Hok) by (simpl in *; lia).
    destruct x as [w|q body]; cbn [word_text word_arg word_ok] in *.
    + rewrite (parse_from_bare w (" "%char :: unwords (x' :: xs)) tok ST_NORMAL Hx eq_refl).
      rewrite record_token_normal. fold tok1. by rewrite decide_False by lia.
    + destruct Hx as [Hq Hbody].
      change ((q :: body ++ [q]) ++ " "%char :: unwords (x' :: xs))
        with (q :: (body ++ [q]) ++ " "%char :: unwords (x' :: xs)).
      rewrite <- app_assoc. cbn [app].
      rewrite (parse_from_quoted q body _ tok ST_NORMAL Hq Hbody).
      rewrite record_token_normal. fold tok1. rewrite decide_False by lia.
      by rewrite parse_from_delim.
Qed.

(** X24. A line of words is read back as its words.  For up to MAXARGS - 1
    words, each bare (free of white space, not beginning with a quote or a
    redirection operator) or between two quotes of one kind, with one space
    between two words, [parseline] returns exactly the words as arguments,
    a quoted one without its quotes and with the white space it holds; the
    built-in class is that of the first, and the result is 1, with the last
    argument taken off, when the last begins with an ampersand, otherwise
    0. *)
Theorem parseline_words (xs : list word) :
  Forall word_ok xs ->
  (length xs <= 127)%nat ->
  (length (unwords xs) < Z.to_nat MAXLINE_TSH)%nat ->
  parseline (string_of_list_ascii (unwords xs)) = parsed (word_arg <$> xs).
Proof.
  intros Hok Hcount _. unfold parseline.
  rewrite list_ascii_of_string_of_list_ascii.
  rewrite parse_from_unwords; [|done|unfold argc, MAXARGS; simpl; lia].
  cbn [argv infile outfile builtins app]. rewrite decide_False by (intros H; by apply H).
  unfold parsed. destruct (word_arg <$> xs) as [|a args] eqn:Hargs; [done|].
  destruct (last (a :: args)) as [lastarg|] eqn:Hlast; [done|].
  by apply last_None in Hlast.
Qed.

Lemma parseline_words_witness :
  parseline "echo 'a  b' c" =
    (0, Tokens ["echo"; "a  b"; "c"] None None (Some BUILTIN_NONE), []).
Proof.
  apply (parseline_words
           [Bare ["e"; "c"; "h"; "o"]%char; Quoted squote ["a"; " "; " "; "b"]%char;
            Bare ["c"]%char]).
  - apply Forall_cons; split; [|apply Forall_cons; split; [|apply Forall_cons; split]].
    + split; [by repeat constructor|]. by split_and!.
    + split; [reflexivity|].
      intros Hin. repeat (apply elem_of_cons in Hin as [Hin|Hin]; [discriminate|]).
      by apply elem_of_nil in Hin.
    + split; [by repeat constructor|]. by split_and!.
    + constructor.
  - simpl. lia.
  - vm_compute. lia.
Defined.

Lemma parseline_result_witness :
  argc (Tokens ["ls"; "-l"] None None (Some BUILTIN_NONE)) <= MAXARGS - 1.
Proof.
  apply (parseline_result "ls -l" 0 (Tokens ["ls"; "-l"] None None (Some BUILTIN_NONE)) []).
  - vm_compute. lia.
  - reflexivity.
Defined.

(** The loop at the end of the line, white space apart. *)
Lemma parse_from_blank rest tok st :
  Forall (fun c => is_delim c = true) rest -> parse_from rest tok st = LoopDone tok st.
Proof.
  intros Hblank. rewrite <- (app_nil_r rest).
  by rewrite (parse_from_delims _ [] _ _ Hblank), parse_from_nil.
Qed.

(** X25. A redirection operator with nothing but white space after it:
    when the tokenizer comes to a '<' with no input file recorded, or to a
    '>' with no output file recorded, and only white space follows up to the
    end of the line, [parseline] returns -1 with the message that a file
    name must be provided, and eval returns having done nothing else. *)
Theorem redirection_without_file (cmdline : string) (pre rest : list ascii) (op : ascii)
    (tok : cmdline_tokens) (st : Z) :
  list_ascii_of_string cmdline = pre ++ op :: rest ->
  scans no_tokens ST_NORMAL pre tok st ->
  (op = "<"%char /\ infile tok = None) \/ (op = ">"%char /\ outfile tok = None) ->
  Forall (fun c => is_delim c = true) rest ->
  parseline cmdline = (-1, tok, [msg_nofile]) /\
  forall unix_error o s, eval unix_error cmdline o s = Ret (eprintf s msg_nofile).
Proof.
  intros Hline Hscans Hop Hblank.
  assert (parseline cmdline = (-1, tok, [msg_nofile])) as Hparse.
  { unfold parseline. fold no_tokens. rewrite Hline.
    rewrite (scans_parse_from _ _ _ _ _ _ Hscans).
    destruct Hop as [[-> Hfile]|[-> Hfile]].
    - rewrite parse_from_infile, Hfile, parse_from_blank by done.
      rewrite decide_True; [done|]. intros [_ ?]%Z.lor_eq_0_iff. done.
    - rewrite parse_from_outfile, Hfile, parse_from_blank by done.
      rewrite decide_True; [done|]. intros [_ ?]%Z.lor_eq_0_iff. done. }
  split; [done|]. intros unix_error o s.
  by rewrite (eval_parse_error _ _ _ _ _ _ Hparse).
Qed.

Lemma redirection_without_file_witness :
  parseline "ls > " = (-1, Tokens ["ls"] None None None, [msg_nofile]).
Proof.
  refine (proj1 (redirection_without_file "ls > " ["l"; "s"; " "]%char [" "]%char ">"%char
                   (Tokens ["ls"] None None None) ST_NORMAL eq_refl _ _ _)).
  - apply (scans_bare no_tokens ST_NORMAL ["l"; "s"]%char " "%char
             (Tokens ["ls"] None None None) []).
    + split; [by repeat constructor|]. by split_and!.
    + reflexivity.
    + reflexivity.
    + vm_compute. reflexivity.
    + apply scans_done.
  - by right.
  - by repeat constructor.
Defined.

(** X26. An input and an output redirection with no file name between
    them: after a '<' and a '>', in either order, with at most white space
    between and after them, the next word is refused; [parseline] returns -1
    with the ambiguous-redirection message, and eval returns having done
    nothing else. *)
Theorem redirections_both_pending (cmdline : string) (pre ws ws' w rest : list ascii)
    (op op' : ascii) (tok : cmdline_tokens) :
  list_ascii_of_string cmdline = pre ++ op :: ws ++ op' :: ws' ++ w ++ rest ->
  scans no_tokens ST_NORMAL pre tok ST_NORMAL ->
  infile tok = None -> outfile tok = None ->
  (op = "<"%char /\ op' = ">"%char) \/ (op = ">"%char /\ op' = "<"%char) ->
  Forall (fun c => is_delim c = true) ws ->
  Forall (fun c => is_delim c = true) ws' ->
  bare_word w ->
  match rest with d :: _ => is_delim d = true | [] => True end ->
  parseline cmdline = (-1, tok, [msg_ambiguous]) /\
  forall unix_error o s, eval unix_error cmdline o s = Ret (eprintf s msg_ambiguous).
Proof.
  intros Hline Hscans Hin Hout Hops Hws Hws' Hw Hrest.
  assert (parseline cmdline = (-1, tok, [msg_ambiguous])) as Hparse.
  { unfold parseline. fold no_tokens. rewrite Hline.
    rewrite (scans_parse_from _ _ _ _ _ _ Hscans).
    destruct Hops as [[-> ->]|[-> ->]].
    - rewrite parse_from_infile, Hin, (parse_from_delims _ _ _ _ Hws).
      rewrite parse_from_outfile, Hout, (parse_from_delims _ _ _ _ Hws').
      by rewrite (parse_from_bare w rest _ _ Hw Hrest).
    - rewrite parse_from_outfile, Hout, (parse_from_delims _ _ _ _ Hws).
      rewrite parse_from_infile, Hin, (parse_from_delims _ _ _ _ Hws').
      by rewrite (parse_from_bare w rest _ _ Hw Hrest). }
  split; [done|]. intros unix_error o s.
  by rewrite (eval_parse_error _ _ _ _ _ _ Hparse).
Qed.

Lemma redirections_both_pending_witness :
  parseline "cat < > f" = (-1, Tokens ["cat"] None None None, [msg_ambiguous]).
Proof.
  refine (proj1 (redirections_both_pending "cat < > f" ["c"; "a"; "t"; " "]%char
                   [" "]%char [" "]%char ["f"]%char [] "<"%char ">"%char
                   (Tokens ["cat"] None None None) eq_refl _ eq_refl eq_refl _ _ _ _ I)).
  - apply (scans_bare no_tokens ST_NORMAL ["c"; "a"; "t"]%char " "%char
             (Tokens ["cat"] None None None) []).
    + split; [by repeat constructor|]. by split_and!.
    + reflexivity.
    + reflexivity.
    + vm_compute. reflexivity.
    + apply scans_done.
  - by left.
  - by repeat constructor.
  - by repeat constructor.
  - split; [by repeat constructor|]. by split_and!.
Defined.

(** ** Numbers printed and read back *)

Lemma digit_of_pretty_N_char (d : N) :
  (d < 10)%N ->
  digit_of (pretty_N_char d) = Some (Z.of_N d) /\
  is_space (pretty_N_char d) = false /\
  pretty_N_char d <> "-"%char /\ pretty_N_char d <> "+"%char /\
  pretty_N_char d <> "%"%char.
Proof.
  intros Hd.
  assert (d = 0 \/ d = 1 \/ d = 2 \/ d = 3 \/ d = 4 \/ d = 5 \/ d = 6 \/ d = 7 \/ d = 8
          \/ d = 9)%N as Hcases by lia.
  repeat (destruct Hcases as [->|Hcases]; [by vm_compute|]). subst d. by vm_compute.
Qed.

(** Reading the digits [pretty] wrote for [x] appends them to the number
    read so far. *)
Lemma digits_value_pretty_N_go (x : N) :
  exists k, 0 <= k /\
    forall acc s, digits_value acc (pretty_N_go x s) = digits_value (acc * 10 ^ k + Z.of_N x) s.
Proof.
  induction (N.lt_wf_0 x) as [x _ IH].
  destruct (decide (x = 0%N)) as [->|Hx].
  { exists 0. split; [done|]. intros acc s. rewrite pretty_N_go_0. f_equal. lia. }
  destruct (IH (x `div` 10)%N) as (k & Hk & Hread).
  { apply N.div_lt; lia. }
  exists (k + 1). split; [lia|]. intros acc s.
  rewrite pretty_N_go_step by lia. rewrite Hread. cbn [digits_value].
  destruct (digit_of_pretty_N_char (x `mod` 10)%N) as [-> _].
  { apply N.mod_lt. lia. }
  f_equal. rewrite Z.pow_add_r by lia.
  pose proof (N.div_mod x 10 ltac:(lia)) as Hdiv.
  apply (f_equal Z.of_N) in Hdiv. rewrite N2Z.inj_add, N2Z.inj_mul in Hdiv.
  change (Z.of_N 10) with 10 in Hdiv. lia.
Qed.

(** What [pretty] writes for a positive number begins with a digit. *)
Lemma pretty_N_go_head (x : N) (s : string) :
  (0 < x)%N ->
  exists d rest, (d < 10)%N /\ pretty_N_go x s = String (pretty_N_char d) rest.
Proof.
  revert s. induction (N.lt_wf_0 x) as [x _ IH]. intros s Hx.
  rewrite pretty_N_go_step by done.
  destruct (decide (x `div` 10 = 0)%N) as [->|Hdiv].
  - rewrite pretty_N_go_0. eexists _, _. split; [|done]. apply N.mod_lt. lia.
  - apply IH; [apply N.div_lt; lia|by apply N.neq_0_lt_0].
Qed.

Lemma strtol_pretty (n : Z) : 0 <= n <= LONG_MAX -> strtol (pretty n) = n.
Proof.
  intros Hn. destruct n as [|p|p]; [by vm_compute| |lia].
  unfold pretty, pretty_Z, pretty, pretty_positive, pretty, pretty_N.
  rewrite decide_False by done.
  destruct (pretty_N_go_head (N.pos p) EmptyString ltac:(lia)) as (d & rest & Hd & Hhead).
  destruct (digit_of_pretty_N_char d Hd) as (_ & Hsp & Hminus & Hplus & _).
  destruct (digits_value_pretty_N_go (N.pos p)) as (k & _ & Hread).
  specialize (Hread 0 EmptyString).
  assert (digits_value 0 (pretty_N_go (N.pos p) EmptyString) = Z.pos p) as Hvalue.
  { rewrite Hread. simpl. lia. }
  unfold strtol. rewrite Hhead in Hvalue |- *. cbn [skip_space]. rewrite Hsp.
  assert (match String (pretty_N_char d) rest with
          | String "-" rest0 => - digits_value 0 rest0
          | String "+" rest0 => digits_value 0 rest0
          | rest0 => digits_value 0 rest0
          end = digits_value 0 (String (pretty_N_char d) rest)) as ->.
  { destruct (pretty_N_char d) as [[] [] [] [] [] [] [] []]; done. }
  rewrite Hvalue. unfold LONG_MIN, LONG_MAX in *. lia.
Qed.

Lemma atoi_pretty (n : Z) : 0 <= n <= INT_MAX -> atoi (pretty n) = n.
Proof.
  intros Hn. unfold atoi. rewrite strtol_pretty.
  - apply to_int_id. unfold in_int, INT_MIN, INT_MAX in *. lia.
  - unfold LONG_MAX, INT_MAX in *. lia.
Qed.

(** X27. The numbers the shell prints can be typed back: for a number [n]
    from 0 to INT_MAX written in decimal as [printf] writes it, the argument
    [%n] makes bg and fg look the job up by job id [n], and the argument [n]
    by process id [n]. *)
Theorem target_job_printed (jobs : list job_t) (n : Z) :
  0 <= n <= INT_MAX ->
  target_job jobs (String "%" (pretty n)) = getjobjid jobs n /\
  target_job jobs (pretty n) = getjobpid jobs n.
Proof.
  intros Hn. split.
  - unfold target_job. by rewrite atoi_pretty.
  - assert (exists c rest, pretty n = String c rest /\ c <> "%"%char)
      as (c & rest & Hhead & Hc).
    { destruct n as [|p|p]; [by eexists _, _| |lia].
      destruct (pretty_N_go_head (N.pos p) EmptyString ltac:(lia))
        as (d & rest & Hd & Hhead).
      exists (pretty_N_char d), rest. split.
      - unfold pretty, pretty_Z, pretty, pretty_positive, pretty, pretty_N.
        by rewrite decide_False by done.
      - by apply digit_of_pretty_N_char. }
    rewrite <- (atoi_pretty n Hn) at 2. rewrite Hhead. unfold target_job.
    destruct c as [[] [] [] [] [] [] [] []]; done.
Qed.

Lemma target_job_printed_witness :
  let jobs := [Job 7 1 ST "a"; Job 300 2 BG "b &"] in
  target_job jobs (String "%" (pretty 2)) = getjobjid jobs 2 /\
  target_job jobs (pretty 2) = getjobpid jobs 2.
Proof.
  intros jobs. apply (target_job_printed jobs 2). unfold INT_MAX. simpl. lia.
Defined.

(** ** What the SIGCHLD handler leaves alone *)

Lemma reap_child_keeps (s : shell) (p stat : Z) :
  reap_child s p stat = Fault \/
  exists s', reap_child s p stat = Ret s' /\
    length (job_list s') = length (job_list s) /\
    (forall i j, job_list s !! i = Some j -> pid j <> p -> job_list s' !! i = Some j) /\
    err s' = err s /\ signals s' = signals s /\ files s' = files s.
Proof.
  destruct (WIFSTOPPED stat) eqn:Hstopped; [|destruct (WIFSIGNALED stat) eqn:Hsignaled;
    [|destruct (WIFEXITED stat) eqn:Hexited]].
  - destruct (getjobpid (job_list s) p) as [k|] eqn:Hget.
    + right. rewrite (reap_child_stopped s p stat k Hstopped Hget). eexists. split; [done|].
      cbn [printf set_out set_jobs job_list err signals files].
      apply getjobpid_Some in Hget as (_ & jk & Hk & Hpid & _).
      split_and!; [by rewrite length_alter| |done..].
      intros i j Hi Hother. rewrite list_lookup_alter_ne; [done|]. congruence.
    + left. unfold reap_child. by rewrite Hstopped, Hget.
  - right. rewrite (reap_child_signaled s p stat Hsignaled). eexists. split; [done|].
    set (s1 := printf s _).
    destruct (deletejob_keeps s1 p) as (Hlen & Hslots & _ & Herr & Hsig & Hfiles).
    by split_and!.
  - right. rewrite (reap_child_exited s p stat Hexited). eexists. split; [done|].
    destruct (deletejob_keeps s p) as (Hlen & Hslots & _ & Herr & Hsig & Hfiles).
    by split_and!.
  - right. exists s. split; [|done].
    unfold reap_child. by rewrite Hstopped, Hsignaled, Hexited.
Qed.

(** X28. The SIGCHLD handler touches only the jobs of the children it has
    collected: whatever [waitpid] gives it, the handler returns or faults (it
    never ends the shell by [exit]), and when it returns the table has its
    length, every slot whose process id was not among those collected is as
    before, and nothing was sent to standard error, to a file or to a
    process. *)
Theorem sigchld_handler_frame (reaped : list (Z * Z)) (s : shell) :
  sigchld_handler reaped s = Fault \/
  exists s', sigchld_handler reaped s = Ret s' /\
    length (job_list s') = length (job_list s) /\
    (forall i j, job_list s !! i = Some j -> pid j ∉ reaped.*1 ->
       job_list s' !! i = Some j) /\
    err s' = err s /\ signals s' = signals s /\ files s' = files s.
Proof.
  revert s. induction reaped as [|[p stat] reaped IH]; intros s.
  { right. by exists s. }
  cbn [sigchld_handler]. case_decide; [|right; by exists s].
  destruct (reap_child_keeps s p stat)
    as [->|(s1 & -> & Hlen1 & Hslots1 & Herr1 & Hsig1 & Hfiles1)]; [by left|].
  cbn [bind].
  destruct (IH s1) as [->|(s' & -> & Hlen & Hslots & Herr & Hsig & Hfiles)]; [by left|].
  right. exists s'. split; [done|].
  split_and!; [congruence| |congruence..].
  intros i j Hi Hother. rewrite fmap_cons, not_elem_of_cons in Hother.
  destruct Hother as [Hp Hrest]. apply Hslots; [|done]. by apply Hslots1.
Qed.

(** ** The SIGCHLD handler, one child after the other *)

(** Exit statuses, as [waitpid] stores them: every one of them is an exit. *)
Lemma exit_statuses (code : Z) :
  0 <= code < 256 ->
  WIFEXITED (Z.shiftl code 8) = true /\ WEXITSTATUS (Z.shiftl code 8) = code.
Proof.
  intros Hcode.
  pose proof (byte_cases
    (fun c => WIFEXITED (Z.shiftl c 8) && (WEXITSTATUS (Z.shiftl c 8) =? c))
    ltac:(by vm_compute) code Hcode) as H.
  apply andb_prop in H as [H1 H2]. split; [done|]. by apply Z.eqb_eq.
Qed.

(** C4. What [sigchld_handler] does with the statuses [waitpid] gives it.  It
    takes them one after the other as long as the process id is positive.
    For the status of a child that is a job of the table (and of one slot
    only): if the child was stopped, the slot gets state ST, "Job [jid] (pid)
    stopped by signal N" is emitted, the job stays in the table, and the
    handler goes on with the next status; if it was terminated by a signal,
    "Job [jid] (pid) terminated by signal N" is emitted, the slot is cleared
    so that the process id is found no more, and the handler goes on; if it
    exited, with any exit status, the slot is cleared, nothing is emitted,
    and the handler goes on. *)
Theorem sigchld_handler_spec (s : shell) (p stat : Z) (rest : list (Z * Z))
    (i : nat) (j : job_t) :
  0 < p ->
  getjobpid (job_list s) p = Some i -> job_list s !! i = Some j ->
  (forall k jk, job_list s !! k = Some jk -> pid jk = p -> k = i) ->
  (WIFSTOPPED stat = true ->
   let jobs' := <[i := Job p (jid j) ST (cmdline j)]> (job_list s) in
   sigchld_handler ((p, stat) :: rest) s =
     sigchld_handler rest
       (Shell jobs' (nextjid s) (verbose s)
          (out s +:+ ("Job [" +:+ pretty (jid j) +:+ "] (" +:+ pretty p
                      +:+ ") stopped by signal " +:+ pretty (WSTOPSIG stat) +:+ nl))
          (err s) (signals s) (files s)) /\
   getjobpid jobs' p = Some i) /\
  (WIFSIGNALED stat = true ->
   let jobs' := <[i := Job 0 0 UNDEF EmptyString]> (job_list s) in
   sigchld_handler ((p, stat) :: rest) s =
     sigchld_handler rest
       (Shell jobs' (int_add (maxjid jobs') 1) (verbose s)
          (out s +:+ ("Job [" +:+ pretty (jid j) +:+ "] (" +:+ pretty p
                      +:+ ") terminated by signal " +:+ pretty (WTERMSIG stat) +:+ nl))
          (err s) (signals s) (files s)) /\
   getjobpid jobs' p = None) /\
  (WIFEXITED stat = true ->
   let jobs' := <[i := Job 0 0 UNDEF EmptyString]> (job_list s) in
   sigchld_handler ((p, stat) :: rest) s =
     sigchld_handler rest
       (Shell jobs' (int_add (maxjid jobs') 1) (verbose s) (out s) (err s) (signals s)
          (files s)) /\
   getjobpid jobs' p = None) /\
  (forall code, 0 <= code < 256 ->
     WIFEXITED (Z.shiftl code 8) = true /\ WEXITSTATUS (Z.shiftl code 8) = code) /\
  (forall p0 stat0, p0 <= 0 -> sigchld_handler ((p0, stat0) :: rest) s = Ret s) /\
  sigchld_handler [] s = Ret s.
Proof.
  intros Hp Hget Hj Honly.
  destruct (pid2jid_found _ _ _ _ Hget Hj) as [Hjid Hpid].
  assert (forall s1 : shell, job_list s1 = job_list s ->
            (deletejob s1 p).2 =
              Shell (<[i := Job 0 0 UNDEF EmptyString]> (job_list s))
                    (int_add (maxjid (<[i := Job 0 0 UNDEF EmptyString]> (job_list s))) 1)
                    (verbose s1) (out s1) (err s1) (signals s1) (files s1)) as Hdelete.
  { intros s1 Hjobs.
    destruct (deletejob_jobs s1 p) as [[_ [?|Habsent]]|(_ & k & jk & Hk & Hpk & _ & ->)].
    - lia.
    - rewrite Hjobs, Forall_lookup in Habsent. by destruct (Habsent i j Hj).
    - rewrite Hjobs in Hk |- *. by rewrite (Honly k jk Hk Hpk). }
  assert (getjobpid (<[i := Job 0 0 UNDEF EmptyString]> (job_list s)) p = None) as Hgone.
  { apply getjobpid_None. right. apply Forall_lookup. intros k jk Hk.
    destruct (decide (k = i)) as [->|Hne].
    - rewrite list_lookup_insert_eq in Hk by (by eapply lookup_lt_Some).
      injection Hk as <-. simpl. lia.
    - rewrite list_lookup_insert_ne in Hk by done. intros Hpk. by apply Hne, (Honly k jk). }
  split_and!.
  - intros Hstopped jobs'. subst jobs'. cbn [sigchld_handler]. rewrite decide_True by lia.
    rewrite (reap_child_stopped s p stat i Hstopped Hget). cbn [bind].
    rewrite Hjid, (alter_at _ _ _ _ Hj). unfold set_state. rewrite Hpid. split; [done|].
    apply getjobpid_Some. split; [done|]. eexists. split_and!.
    + apply list_lookup_insert_eq. by eapply lookup_lt_Some.
    + done.
    + intros k jk Hk Hlt. rewrite list_lookup_insert_ne in Hk by lia.
      intros Hpk. pose proof (Honly k jk Hk Hpk). lia.
  - intros Hsignaled jobs'. subst jobs'. cbn [sigchld_handler]. rewrite decide_True by lia.
    rewrite (reap_child_signaled s p stat Hsignaled). cbn [bind].
    rewrite Hdelete by done. rewrite Hjid. by split.
  - intros Hexited jobs'. subst jobs'. cbn [sigchld_handler]. rewrite decide_True by lia.
    rewrite (reap_child_exited s p stat Hexited). cbn [bind].
    rewrite Hdelete by done. by split.
  - apply exit_statuses.
  - intros p0 stat0 Hp0. cbn [sigchld_handler]. by rewrite decide_False by lia.
  - done.
Qed.

Lemma sigchld_handler_spec_witness :
  let s := Shell [Job 7 1 FG "vi"; Job 9 2 BG "cc"] 3 false EmptyString [] [] [] in
  sigchld_handler [(7, 0x147f)] s =
    Ret (Shell [Job 7 1 ST "vi"; Job 9 2 BG "cc"] 3 false
           ("Job [1] (7) stopped by signal 20" +:+ nl) [] [] []) /\
  sigchld_handler [(9, 2)] s =
    Ret (Shell [Job 7 1 FG "vi"; Job 0 0 UNDEF EmptyString] 2 false
           ("Job [2] (9) terminated by signal 2" +:+ nl) [] [] []) /\
  sigchld_handler [(9, 0x100); (7, 0x147f)] s =
    Ret (Shell [Job 7 1 ST "vi"; Job 0 0 UNDEF EmptyString] 2 false
           ("Job [1] (7) stopped by signal 20" +:+ nl) [] [] []).
Proof.
  intros s.
  assert (forall k jk, job_list s !! k = Some jk -> pid jk = 7 -> k = 0%nat) as Honly7.
  { intros [|[|k]] jk Hk; [done| |done]. by injection Hk as <-. }
  assert (forall k jk, job_list s !! k = Some jk -> pid jk = 9 -> k = 1%nat) as Honly9.
  { intros [|[|k]] jk Hk; [|done|done]. by injection Hk as <-. }
  split_and!.
  - refine (proj1 (proj1 (sigchld_handler_spec s 7 0x147f [] 0%nat (Job 7 1 FG "vi")
                            _ eq_refl eq_refl Honly7) eq_refl)). lia.
  - refine (proj1 (proj1 (proj2 (sigchld_handler_spec s 9 2 [] 1%nat (Job 9 2 BG "cc")
                                   _ eq_refl eq_refl Honly9)) eq_refl)). lia.
  - rewrite (proj1 (proj1 (proj2 (proj2 (sigchld_handler_spec s 9 0x100 [(7, 0x147f)] 1%nat
                                           (Job 9 2 BG "cc") ltac:(lia) eq_refl eq_refl
                                           Honly9))) eq_refl)).
    reflexivity.
Defined.

(** ** eval and the invariant of the job table *)

(** X29. The read/eval loop keeps the table in order.  When [unix_error]
    leaves the job table alone, a call of eval made at the prompt of a
    reachable configuration, with answers of the operating system that fit
    the children it holds, comes back to the prompt of a reachable
    configuration: the table has its MAXJOBS slots, the process ids in use
    are positive and distinct, no job is in the foreground and [fgpid]
    gives 0. *)
Theorem eval_returns_to_prompt (unix_error : string -> shell -> outcome shell)
    (cmdline : string) (o : os_reply) (s s' : shell) (kids : gset Z) :
  (forall msg s s', unix_error msg s = Ret s' ->
     job_list s' = job_list s /\ nextjid s' = nextjid s) ->
  reachable (Config s AtPrompt kids) ->
  os_ok (parseline cmdline).1.2 o kids ->
  eval unix_error cmdline o s = Ret s' ->
  exists kids',
    reachable (Config s' AtPrompt kids') /\
    table_size (job_list s') /\ table_ok (job_list s') /\
    fg_jobs (job_list s') = [] /\ fgpid (job_list s') = 0.
Proof.
  intros Herror (c0 & Hinit & Hsteps) Hos Heval.
  destruct (eval_path unix_error Herror _ _ _ _ _ Hos Heval) as [kids' Hpath].
  assert (reachable (Config s' AtPrompt kids')) as Hreach.
  { exists c0. split; [done|]. by etrans. }
  exists kids'. split; [done|].
  pose proof (inv_reachable _ Hreach) as (Hok & _ & Hmode). simpl in Hok, Hmode.
  split_and!.
  - apply (reachable_table_size _ Hreach).
  - done.
  - by apply (at_most_one_foreground_job_at_prompt _ Hreach).
  - destruct (fgpid_cases (job_list s')) as [|(i & j & Hj & Hfgj & _)]; [done|].
    by destruct (Hmode i j).
Qed.

Lemma eval_returns_to_prompt_witness :
  exists kids',
    reachable (Config shell0 AtPrompt kids') /\
    table_size (job_list shell0) /\ table_ok (job_list shell0) /\
    fg_jobs (job_list shell0) = [] /\ fgpid (job_list shell0) = 0.
Proof.
  apply (eval_returns_to_prompt (unix_error_exits 0) "/bin/ls"
           (OsReply true true 7 true [GotSIGCHLD [(7, 0)]] None) shell0 shell0 ∅).
  - by intros msg s s' [= <-].
  - exists (Config shell0 AtPrompt ∅). split; [|done].
    split_and!; [|done..]. by exists (job_list shell0).
  - vm_compute. split; [right; right; split; [done|set_solver]|].
    split; [|done]. intros _. split; [set_solver|done].
  - reflexivity.
Defined.

(** ** The options of main *)

(** X30. The option loop of [main].  As long as [getopt] gives v or p the
    loop goes on, and when it ends [verbose] is set exactly when a v was
    among the options and the prompt is turned off exactly when a p was, in
    whatever order and number they came.  At the first call that gives
    anything else (h, or the question mark that stands for an unknown
    option) the shell ends with exit status 1, having written what [getopt]
    wrote for the options so far, this one included, and then the usage
    text. *)
Theorem main_options_spec (opts : list (ascii * string)) (verbose emit_prompt : bool) :
  (Forall (fun o => o.1 = "v"%char \/ o.1 = "p"%char) opts ->
   main_options opts verbose emit_prompt =
     (getopt_text opts EmptyString,
      inl (verbose || bool_decide ("v"%char ∈ opts.*1),
           emit_prompt && negb (bool_decide ("p"%char ∈ opts.*1))))) /\
  (forall good bad rest,
     opts = good ++ bad :: rest ->
     Forall (fun o => o.1 = "v"%char \/ o.1 = "p"%char) good ->
     bad.1 <> "v"%char -> bad.1 <> "p"%char ->
     main_options opts verbose emit_prompt =
       (getopt_text good (bad.2 +:+ usage_text), inr 1)).
Proof.
  split.
  - revert verbose emit_prompt.
    induction opts as [|[c diagnostic] opts IH]; intros verbose emit_prompt Hopts.
    { simpl. by rewrite orb_false_r, andb_true_r. }
    apply Forall_cons in Hopts as [Hc Hopts]. simpl in Hc.
    cbn [main_options getopt_text foldr snd]. rewrite fmap_cons. cbn [fst].
    destruct Hc as [-> | ->].
    + change ("v" =? "h")%char with false. change ("v" =? "v")%char with true. cbn iota.
      rewrite (IH true emit_prompt Hopts).
      rewrite (bool_decide_eq_true_2 ("v"%char ∈ "v"%char :: opts.*1)) by left.
      assert (bool_decide ("p"%char ∈ "v"%char :: opts.*1)
              = bool_decide ("p"%char ∈ opts.*1)) as ->.
      { apply bool_decide_ext. rewrite elem_of_cons. split; [by intros [?|?]|by right]. }
      by rewrite orb_true_r.
    + change ("p" =? "h")%char with false. change ("p" =? "v")%char with false.
      change ("p" =? "p")%char with true. cbn iota.
      rewrite (IH verbose false Hopts).
      rewrite (bool_decide_eq_true_2 ("p"%char ∈ "p"%char :: opts.*1)) by left.
      assert (bool_decide ("v"%char ∈ "p"%char :: opts.*1)
              = bool_decide ("v"%char ∈ opts.*1)) as ->.
      { apply bool_decide_ext. rewrite elem_of_cons. split; [by intros [?|?]|by right]. }
      by rewrite andb_false_r.
  - intros good bad rest -> Hgood Hv Hp. revert verbose emit_prompt.
    induction good as [|[c diagnostic] good IH]; intros verbose emit_prompt.
    + destruct bad as [c diagnostic]. simpl in Hv, Hp.
      cbn [app main_options getopt_text foldr snd].
      destruct (Ascii.eqb_spec c "h"); [done|].
      destruct (Ascii.eqb_spec c "v"); [done|].
      by destruct (Ascii.eqb_spec c "p").
    + apply Forall_cons in Hgood as [Hc Hgood]. simpl in Hc.
      change (((c, diagnostic) :: good) ++ bad :: rest)
        with ((c, diagnostic) :: (good ++ bad :: rest)).
      cbn [main_options getopt_text foldr snd].
      destruct Hc as [-> | ->].
      * change ("v" =? "h")%char with false. change ("v" =? "v")%char with true. cbn iota.
        by rewrite (IH Hgood true emit_prompt).
      * change ("p" =? "h")%char with false. change ("p" =? "v")%char with false.
        change ("p" =? "p")%char with true. cbn iota.
        by rewrite (IH Hgood verbose false).
Qed.

Lemma main_options_spec_witness :
  main_options [("p", EmptyString); ("v", EmptyString); ("p", EmptyString)]%char false true
    = (EmptyString, inl (true, false)) /\
  main_options [("v", EmptyString); ("?", "shell: invalid option -- 'x'" +:+ nl);
                ("p", EmptyString)]%char false true
    = ("shell: invalid option -- 'x'" +:+ nl +:+ usage_text, inr 1).
Proof.
  split.
  - apply (proj1 (main_options_spec
                    [("p", EmptyString); ("v", EmptyString); ("p", EmptyString)]%char
                    false true)).
    repeat (apply Forall_cons; split; [first [by left|by right]|]). constructor.
  - apply (proj2 (main_options_spec
                    [("v", EmptyString); ("?", "shell: invalid option -- 'x'" +:+ nl);
                     ("p", EmptyString)]%char false true)
             [("v", EmptyString)]%char ("?", "shell: invalid option -- 'x'" +:+ nl)%char
             [("p", EmptyString)]%char).
    + reflexivity.
    + apply Forall_cons; split; [by left|constructor].
    + discriminate.
    + discriminate.
Defined.

(** ** The listing and the states of the jobs *)

(** The states of the slots in use, along the steps of the shell. *)
Lemma live_state_set (st : Z) (j : job_t) :
  st = FG \/ st = BG \/ st = ST -> live_state_ok (set_state st j).
Proof. by intros Hst _. Qed.

Lemma live_states_alter (f : job_t -> job_t) (i : nat) (jobs : list job_t) :
  (forall j, live_state_ok (f j)) ->
  Forall live_state_ok jobs -> Forall live_state_ok (alter f i jobs).
Proof. intros Hf Hjobs. apply Forall_alter; [done|]. intros j _ _. apply Hf. Qed.

Lemma live_states_deletejob (s : shell) (p : Z) :
  Forall live_state_ok (job_list s) -> Forall live_state_ok (job_list (deletejob s p).2).
Proof.
  intros Hjobs. unfold deletejob. case_decide; [done|].
  destruct (scan _ _) as [i|]; [|done]. simpl.
  apply live_states_alter; [|done]. intros j Hlive. by destruct Hlive.
Qed.

Lemma live_states_reap_child (s : shell) (p stat : Z) (s' : shell) :
  reap_child s p stat = Ret s' ->
  Forall live_state_ok (job_list s) -> Forall live_state_ok (job_list s').
Proof.
  intros Hreap Hjobs.
  destruct (WIFSTOPPED stat) eqn:Hstopped; [|destruct (WIFSIGNALED stat) eqn:Hsignaled;
    [|destruct (WIFEXITED stat) eqn:Hexited]].
  - destruct (getjobpid (job_list s) p) as [k|] eqn:Hget.
    + rewrite (reap_child_stopped s p stat k Hstopped Hget) in Hreap.
      injection Hreap as <-. cbn [printf set_out set_jobs job_list].
      apply live_states_alter; [|done]. intros ?. apply live_state_set. auto.
    + unfold reap_child in Hreap. by rewrite Hstopped, Hget in Hreap.
  - rewrite (reap_child_signaled s p stat Hsignaled) in Hreap. injection Hreap as <-.
    by apply live_states_deletejob.
  - rewrite (reap_child_exited s p stat Hexited) in Hreap. injection Hreap as <-.
    by apply live_states_deletejob.
  - unfold reap_child in Hreap. rewrite Hstopped, Hsignaled, Hexited in Hreap.
    by injection Hreap as <-.
Qed.

Lemma live_states_step (c c' : config) :
  step c c' ->
  Forall live_state_ok (job_list (proc c)) -> Forall live_state_ok (job_list (proc c')).
Proof.
  intros Hstep Hjobs. destruct Hstep; cbn [proc] in *.
  - destruct (addjob_jobs s p (int_add bg 1) cmd) as [->|(_ & k & _ & ->)]; [done|].
    apply Forall_insert; [done|]. intros _. simpl.
    match goal with H : bg = 0 \/ bg = 1 |- _ => destruct H as [-> | ->] end; auto.
  - done.
  - by rewrite_job_list.
  - done.
  - by eapply live_states_reap_child.
  - by apply live_states_deletejob.
  - done.
  - match goal with H : bg_found _ _ = Ret _ |- _ => unfold bg_found in H; revert H end.
    cbn [set_jobs job_list]. destruct (alter _ _ _ !! i); [|done]. intros [= <-].
    cbn [printf set_out kill job_list].
    apply live_states_alter; [|done]. intros ?. apply live_state_set. auto.
  - done.
  - match goal with H : fg_resume _ _ = Ret _ |- _ => unfold fg_resume in H; revert H end.
    destruct (job_list s !! i); [|done]. intros [= <-].
    cbn [set_jobs kill job_list].
    apply live_states_alter; [|done]. intros ?. apply live_state_set. auto.
  - match goal with H : fg_finish _ _ _ = Ret _ |- _ => unfold fg_finish in H; revert H end.
    destruct (WIFSTOPPED status).
    + intros [= <-]. cbn [set_jobs job_list].
      apply live_states_alter; [|done]. intros ?. apply live_state_set. auto.
    + destruct (job_list s !! i); [|done]. intros [= <-]. by apply live_states_deletejob.
  - match goal with H : fg_finish _ _ _ = Ret _ |- _ => unfold fg_finish in H; revert H end.
    destruct (WIFSTOPPED status).
    + intros [= <-]. cbn [set_jobs job_list].
      apply live_states_alter; [|done]. intros ?. apply live_state_set. auto.
    + destruct (job_list s !! i); [|done]. intros [= <-]. by apply live_states_deletejob.
Qed.

Lemma live_states_reachable (c : config) :
  reachable c -> Forall live_state_ok (job_list (proc c)).
Proof.
  intros (c0 & ((jobs & _ & Hjobs) & _ & _) & Hsteps).
  apply (rtc_ind_r (R := step) (fun c => Forall live_state_ok (job_list (proc c))) c0);
    [|by intros c1 c2 _ Hstep H1; eapply live_states_step|done].
  rewrite Hjobs. apply Forall_lookup. intros i j Hj Hlive.
  by rewrite (initjobs_lookup _ _ _ Hj) in Hlive.
Qed.

(** C9 as amended.  With a descriptor that accepts the writes, listjobs
    writes one line for each slot whose pid is not 0, in table order, and
    nothing for the others.  The line is "[jid] (pid) ", the state text, the
    command line and a newline; the state text is "Running    " for BG,
    "Foreground " for FG and "Stopped    " for ST (the name followed by spaces
    up to 11 characters), and every slot in use of a table the shell reaches
    is in one of these three states, so that each of its lines carries one
    of the three labels; for any other state the text is the diagnostic
    "listjobs: Internal error: job[i].state=N ".  With a descriptor that
    refuses the writes, the listing of a table with a slot in use ends the
    process with exit status 1. *)
Theorem listjobs_spec (jobs : list job_t) (text : string) :
  listjobs jobs (Sink true text) = Ret (Sink true (text +:+ listing (live_slots jobs))) /\
  length (live_slots jobs) = length (filter (fun j => pid j <> 0) jobs) /\
  (forall i j, (i, j) ∈ live_slots jobs <-> jobs !! i = Some j /\ pid j <> 0) /\
  (forall i j,
     job_line i j = "[" +:+ pretty (jid j) +:+ "] (" +:+ pretty (pid j) +:+ ") "
                    +:+ state_text i (state j) +:+ cmdline j +:+ nl) /\
  (forall i,
     state_text i BG = "Running" +:+ padding 4 /\
     state_text i FG = "Foreground" +:+ padding 1 /\
     state_text i ST = "Stopped" +:+ padding 4) /\
  (forall label, label ∈ state_labels -> String.length label = 11%nat) /\
  (forall c, reachable c -> job_list (proc c) = jobs ->
     forall i j, (i, j) ∈ live_slots jobs -> state_text i (state j) ∈ state_labels) /\
  (forall i st, st <> BG -> st <> FG -> st <> ST ->
     state_text i st = "listjobs: Internal error: job[" +:+ pretty (Z.of_nat i)
                       +:+ "].state=" +:+ pretty st +:+ " ") /\
  listjobs jobs (Sink false text) =
    (if decide (Forall (fun j => pid j = 0) jobs) then Ret (Sink false text) else Exit 1).
Proof.
  assert (forall i j, (i, j) ∈ live_slots jobs <-> jobs !! i = Some j /\ pid j <> 0) as Hlive.
  { intros i j. unfold live_slots. rewrite list_elem_of_filter. simpl.
    rewrite elem_of_lookup_imap. split.
    - intros (Hlive & i' & j' & [= -> ->] & Hj). done.
    - intros [Hj Hlive]. split; [done|]. by exists i, j. }
  split_and!.
  - unfold listjobs. by rewrite listjobs_from_ok.
  - apply live_slots_length.
  - done.
  - done.
  - done.
  - intros label Hin. unfold state_labels in Hin.
    repeat (apply elem_of_cons in Hin as [->|Hin]; [done|]). by apply elem_of_nil in Hin.
  - intros c Hreach <- i j [Hj Hpid]%Hlive.
    pose proof (live_states_reachable c Hreach) as Hstates.
    rewrite Forall_lookup in Hstates.
    unfold state_labels.
    destruct (Hstates i j Hj Hpid) as [->|[->| ->]].
    + apply elem_of_cons. right. by left.
    + by left.
    + do 2 (apply elem_of_cons; right). by left.
  - intros i st H1 H2 H3. unfold state_text. by rewrite !decide_False.
  - apply listjobs_write_fails.
Qed.

(** A table the shell reaches by launching one background command. *)
Lemma background_job_reachable :
  reachable (Config (addjob shell0 5 (int_add 1 1) "ls &").2 (BgLaunched 5 "ls &")
               ({[5]} ∪ ∅)).
Proof.
  exists (Config shell0 AtPrompt ∅). split; [apply initial_shell0|].
  apply rtc_once. apply (step_launch shell0 ∅ 5 1 "ls &"); [|by right].
  right. split; [lia|]. apply not_elem_of_empty.
Qed.

(** C9 as stated fails on the table that holds one background job: its
    line has the label followed by four spaces, which is no label with spaces
    before it, whatever their number; and on a descriptor that refuses the
    writes nothing is written for it, the process ends. *)
Lemma listjobs_pads_on_the_right :
  let jobs := job_list (addjob shell0 5 (int_add 1 1) "ls &").2 in
  reachable (Config (addjob shell0 5 (int_add 1 1) "ls &").2 (BgLaunched 5 "ls &")
               ({[5]} ∪ ∅)) /\
  listjobs jobs (Sink true EmptyString) =
    Ret (Sink true ("[1] (5) Running    ls &" +:+ nl)) /\
  (~ exists (n : nat) (label : string),
       label ∈ ["Running"; "Foreground"; "Stopped"] /\
       listjobs jobs (Sink true EmptyString) =
         Ret (Sink true ("[1] (5) " +:+ padding n +:+ label +:+ " ls &" +:+ nl))) /\
  listjobs jobs (Sink false EmptyString) = Exit 1.
Proof.
  intros jobs. split_and!.
  - apply background_job_reachable.
  - reflexivity.
  - intros (n & label & Hin & Hout).
    assert (listjobs jobs (Sink true EmptyString)
            = Ret (Sink true ("[1] (5) Running    ls &" +:+ nl))) as Hreal by reflexivity.
    rewrite Hreal in Hout. injection Hout as Hout.
    repeat (apply elem_of_cons in Hin as [->|Hin];
            [destruct n as [|n]; vm_compute in Hout; discriminate Hout|]).
    by apply elem_of_nil in Hin.
  - reflexivity.
Qed.
